(** * hpp-model-urdf: the kinematic-tree construction engine of
      [src/urdf/parser.cc], embedded in Rocq.

    Conventions of the embedding.
    - A C++ [double] is a real number: arithmetic is exact, so the
      statements below are about the algorithm, not about rounding.
    - [std::map<std::string, T>] is an association list kept in key order
      ([SMap]); iteration is list order; [find] returns an [option] where
      the source compares an iterator with [end ()].
    - A [shared_ptr] that may be null is an [option].
    - Joint nodes are shared through pointers in the source (registry,
      robot, children lists).  Here the registry [jointsMap_] is the store
      and a pointer to a node is the name under which it is registered.
    - Dereferencing a null pointer or the [end ()] iterator is undefined
      behaviour: outcome [Undefined].  A C++ exception is [Throw].
      Recursion that the source does not bound is given fuel: [OutOfFuel]. *)

From Stdlib Require Import Reals Lra Lia List String Ascii Bool.
Import ListNotations.
Open Scope R_scope.
Open Scope string_scope.

(** ** Vectors and matrices *)

(** [vector3d] (also used for [urdf::Vector3]). *)
Record vector3d := mkV3 { vx : R; vy : R; vz : R }.

Definition vget (v : vector3d) (i : nat) : R :=
  match i with O => vx v | S O => vy v | _ => vz v end.

Definition vset (v : vector3d) (i : nat) (a : R) : vector3d :=
  match i with
  | O => mkV3 a (vy v) (vz v)
  | S O => mkV3 (vx v) a (vz v)
  | _ => mkV3 (vx v) (vy v) a
  end.

Definition dot (a b : vector3d) : R :=
  vx a * vx b + vy a * vy b + vz a * vz b.

Definition norm (a : vector3d) : R := sqrt (dot a a).

(** [vector3d::normalize]: every component divided by the Euclidean norm. *)
Definition normalize (a : vector3d) : vector3d :=
  mkV3 (vx a / norm a) (vy a / norm a) (vz a / norm a).

(** [operator^] of [vector3d]: the cross product. *)
Definition cross (a b : vector3d) : vector3d :=
  mkV3 (vy a * vz b - vz a * vy b)
       (vz a * vx b - vx a * vz b)
       (vx a * vy b - vy a * vx b).

(** [matrix3d]. *)
Record matrix3d := mkM3 {
  a00 : R; a01 : R; a02 : R;
  a10 : R; a11 : R; a12 : R;
  a20 : R; a21 : R; a22 : R }.

Definition zero3 : matrix3d := mkM3 0 0 0 0 0 0 0 0 0.
Definition identity3 : matrix3d := mkM3 1 0 0 0 1 0 0 0 1.

Definition mul3 (a b : matrix3d) : matrix3d :=
  mkM3 (a00 a * a00 b + a01 a * a10 b + a02 a * a20 b)
       (a00 a * a01 b + a01 a * a11 b + a02 a * a21 b)
       (a00 a * a02 b + a01 a * a12 b + a02 a * a22 b)
       (a10 a * a00 b + a11 a * a10 b + a12 a * a20 b)
       (a10 a * a01 b + a11 a * a11 b + a12 a * a21 b)
       (a10 a * a02 b + a11 a * a12 b + a12 a * a22 b)
       (a20 a * a00 b + a21 a * a10 b + a22 a * a20 b)
       (a20 a * a01 b + a21 a * a11 b + a22 a * a21 b)
       (a20 a * a02 b + a21 a * a12 b + a22 a * a22 b).

Definition transpose3 (a : matrix3d) : matrix3d :=
  mkM3 (a00 a) (a10 a) (a20 a)
       (a01 a) (a11 a) (a21 a)
       (a02 a) (a12 a) (a22 a).

Definition col3 (a : matrix3d) (j : nat) : vector3d :=
  match j with
  | O => mkV3 (a00 a) (a10 a) (a20 a)
  | S O => mkV3 (a01 a) (a11 a) (a21 a)
  | _ => mkV3 (a02 a) (a12 a) (a22 a)
  end.

Definition det3 (a : matrix3d) : R :=
  a00 a * (a11 a * a22 a - a12 a * a21 a)
  - a01 a * (a10 a * a22 a - a12 a * a20 a)
  + a02 a * (a10 a * a21 a - a11 a * a20 a).

(** [CkitMat4] and [matrix4d]: 4x4 homogeneous matrices, [mIJ] is the
    entry of row I and column J. *)
Record CkitMat4 := mkM4 {
  m00 : R; m01 : R; m02 : R; m03 : R;
  m10 : R; m11 : R; m12 : R; m13 : R;
  m20 : R; m21 : R; m22 : R; m23 : R;
  m30 : R; m31 : R; m32 : R; m33 : R }.

Definition identity : CkitMat4 :=
  mkM4 1 0 0 0
       0 1 0 0
       0 0 1 0
       0 0 0 1.

(** [operator*] of [CkitMat4]. *)
Definition mul (a b : CkitMat4) : CkitMat4 :=
  mkM4 (m00 a * m00 b + m01 a * m10 b + m02 a * m20 b + m03 a * m30 b)
       (m00 a * m01 b + m01 a * m11 b + m02 a * m21 b + m03 a * m31 b)
       (m00 a * m02 b + m01 a * m12 b + m02 a * m22 b + m03 a * m32 b)
       (m00 a * m03 b + m01 a * m13 b + m02 a * m23 b + m03 a * m33 b)
       (m10 a * m00 b + m11 a * m10 b + m12 a * m20 b + m13 a * m30 b)
       (m10 a * m01 b + m11 a * m11 b + m12 a * m21 b + m13 a * m31 b)
       (m10 a * m02 b + m11 a * m12 b + m12 a * m22 b + m13 a * m32 b)
       (m10 a * m03 b + m11 a * m13 b + m12 a * m23 b + m13 a * m33 b)
       (m20 a * m00 b + m21 a * m10 b + m22 a * m20 b + m23 a * m30 b)
       (m20 a * m01 b + m21 a * m11 b + m22 a * m21 b + m23 a * m31 b)
       (m20 a * m02 b + m21 a * m12 b + m22 a * m22 b + m23 a * m32 b)
       (m20 a * m03 b + m21 a * m13 b + m22 a * m23 b + m23 a * m33 b)
       (m30 a * m00 b + m31 a * m10 b + m32 a * m20 b + m33 a * m30 b)
       (m30 a * m01 b + m31 a * m11 b + m32 a * m21 b + m33 a * m31 b)
       (m30 a * m02 b + m31 a * m12 b + m32 a * m22 b + m33 a * m32 b)
       (m30 a * m03 b + m31 a * m13 b + m32 a * m23 b + m33 a * m33 b).

Declare Scope mat_scope.
Delimit Scope mat_scope with mat.
Infix "**" := mul (at level 40, left associativity) : mat_scope.

(** The upper-left 3x3 block and the translation column of a 4x4 matrix,
    and the embedding of a 3x3 block into an otherwise-identity 4x4
    matrix (the loops [M (i, j) = R (i, j)] of the source). *)
Definition rot3 (m : CkitMat4) : matrix3d :=
  mkM3 (m00 m) (m01 m) (m02 m)
       (m10 m) (m11 m) (m12 m)
       (m20 m) (m21 m) (m22 m).

Definition trans3 (m : CkitMat4) : vector3d :=
  mkV3 (m03 m) (m13 m) (m23 m).

Definition embed3 (r : matrix3d) : CkitMat4 :=
  mkM4 (a00 r) (a01 r) (a02 r) 0
       (a10 r) (a11 r) (a12 r) 0
       (a20 r) (a21 r) (a22 r) 0
       0 0 0 1.

(** [CkitMat4::rotateY]: the rotation of the given angle about Y. *)
Definition rotateY (a : R) : CkitMat4 :=
  mkM4 (cos a) 0 (sin a) 0
       0 1 0 0
       (- sin a) 0 (cos a) 0
       0 0 0 1.

(** ** The input graph ([urdf::ModelInterface]) *)

Inductive JointType :=
| UNKNOWN | REVOLUTE | CONTINUOUS | PRISMATIC | FLOATING | PLANAR | FIXED.

Definition JointType_eqb (a b : JointType) : bool :=
  match a, b with
  | UNKNOWN, UNKNOWN | REVOLUTE, REVOLUTE | CONTINUOUS, CONTINUOUS
  | PRISMATIC, PRISMATIC | FLOATING, FLOATING | PLANAR, PLANAR
  | FIXED, FIXED => true
  | _, _ => false
  end.

(** [urdf::Rotation] is a quaternion, [urdf::Pose] a position and a
    rotation. *)
Record Rotation := mkRot { qx : R; qy : R; qz : R; qw : R }.
Record Pose := mkPose { position : vector3d; rotation : Rotation }.

Record JointLimits := mkLimits {
  lower : R; upper : R; effort : R; velocity : R }.

Record UrdfJoint := mkJoint {
  jname : string;
  type : JointType;
  axis : vector3d;
  child_link_name : string;
  parent_link_name : string;
  parent_to_joint_origin_transform : Pose;
  limits : option JointLimits }.

(** The test [REVOLUTE || CONTINUOUS || PRISMATIC] that the source repeats
    wherever it normalizes or denormalizes a frame. *)
Definition isActuatedType (t : JointType) : bool :=
  match t with
  | REVOLUTE | CONTINUOUS | PRISMATIC => true
  | _ => false
  end.

(** ** Frame normalizer *)

(** The loop that selects [smallestComponent]: the first index whose
    component has the smallest magnitude. *)
Definition smallestComponent (x : vector3d) : nat :=
  fold_left
    (fun s i => if Rlt_dec (Rabs (vget x i)) (Rabs (vget x s)) then i else s)
    [0%nat; 1%nat; 2%nat] 0%nat.

(** [normalizeFrameOrientation]; the null test of the source is the
    [None] case (the diagnostic it prints there is not recorded). *)
Definition normalizeFrameOrientation (urdfJoint : option UrdfJoint)
  : CkitMat4 :=
  match urdfJoint with
  | None => identity
  | Some j =>
      let x := normalize (axis j) in
      let y := vset (mkV3 0 0 0) (smallestComponent x) 1 in
      let z := cross x y in
      let y := cross z x in
      mkM4 (vx x) (vx y) (vx z) 0
           (vy x) (vy y) (vy z) 0
           (vz x) (vz y) (vz z) 0
           0 0 0 1
  end.

(** ** Links and geometry of the input graph *)

Inductive Geometry :=
| SPHERE (radius : R)
| BOX (dim : vector3d)
| CYLINDER (length radius : R)
| MESH (filename : string) (scale : vector3d).

Record Visual := mkVisual { visual_origin : Pose; visual_geometry : Geometry }.
Record Collision := mkCollision {
  collision_origin : Pose; collision_geometry : Geometry }.

Record Inertial := mkInertial {
  inertial_origin : Pose;
  mass : R;
  ixx : R; ixy : R; ixz : R; iyy : R; iyz : R; izz : R }.

(** A link points to its parent joint and to its child joints; the joints
    point back by name only, so a link carries copies of the joint
    records. *)
Record UrdfLink := mkLink {
  lname : string;
  inertial : option Inertial;
  visual : option Visual;
  collision : option Collision;
  parent_joint : option UrdfJoint;
  child_joints : list UrdfJoint }.

(** ** [std::map] keyed by strings *)

Module SMap.

Definition t (V : Type) := list (string * V).

Definition empty {V} : t V := [].

Fixpoint find {V} (k : string) (m : t V) : option V :=
  match m with
  | [] => None
  | (k', v) :: m' => if String.eqb k k' then Some v else find k m'
  end.

(** [m[k] = v]: replaces the value of [k], or adds [k] at its place in
    key order. *)
Fixpoint insert {V} (k : string) (v : V) (m : t V) : t V :=
  match m with
  | [] => [(k, v)]
  | (k', v') :: m' =>
      if String.eqb k k' then (k, v) :: m'
      else if String.ltb k k' then (k, v) :: (k', v') :: m'
      else (k', v') :: insert k v m'
  end.

Definition count {V} (k : string) (m : t V) : nat :=
  match find k m with Some _ => 1 | None => 0 end.

Definition keys {V} (m : t V) : list string := map fst m.

End SMap.

Record ModelInterface := mkModel {
  name_ : string;
  joints_ : SMap.t (option UrdfJoint);
  links_ : SMap.t (option UrdfLink);
  root_link_ : option UrdfLink }.

(** [model_.clear ()]. *)
Definition clearModel : ModelInterface := mkModel "" SMap.empty SMap.empty None.

(** [ModelInterface::getJoint], [getLink] and [getRoot]: the pointer
    stored under the name, null when the name is absent. *)
Definition getJoint (m : ModelInterface) (name : string) : option UrdfJoint :=
  match SMap.find name (joints_ m) with Some p => p | None => None end.

Definition getLink (m : ModelInterface) (name : string) : option UrdfLink :=
  match SMap.find name (links_ m) with Some p => p | None => None end.

Definition getRoot (m : ModelInterface) : option UrdfLink := root_link_ m.

(** ** The output tree *)

(** A bound is a real number or an infinity
    ([std::numeric_limits<double>::infinity ()]). *)
Inductive bound := Finite (r : R) | PlusInfinity | MinusInfinity.

(** The classes of joint nodes and of the robot belong to other
    libraries.  What the parser does to the bounds of a node, and to the
    robot, is recorded as the sequence of the calls it makes, oldest
    first. *)
Inductive BoundCall :=
| isBounded (dof : nat) (b : bool)
| bounds (dof : nat) (lo hi : R)
| velocityBounds (dof : nat) (lo hi : R)
| torqueBounds (dof : nat) (lo hi : R)
| lowerBound (dof : nat) (v : bound)
| upperBound (dof : nat) (v : bound).

Inductive JointKind :=
| FreeflyerJoint | RotationJoint | TranslationJoint | AnchorJoint.

(** [CjrlBody]. *)
Record Body := mkBody {
  bodyMass : R;
  localCenterOfMass : vector3d;
  inertiaMatrix : matrix3d }.

(** The geometric primitives attached to a joint, each with its absolute
    position. *)
Inductive SolidComponent :=
| Polyhedron (name : string) (filename : string) (scale : vector3d)
             (absolutePosition : CkitMat4)
| Cylinder (name : string) (radius length : R) (absolutePosition : CkitMat4)
| Box (name : string) (x y z : R) (absolutePosition : CkitMat4)
| Capsule (name : string) (length radius : R) (absolutePosition : CkitMat4)
| Segment (name : string) (endPoint1 endPoint2 : vector3d) (radius : R)
          (absolutePosition : CkitMat4).

(** A joint node ([hpp::model::Joint] with its [CjrlJoint] and
    [CkppJointComponent] parts).  [currentPosition] is the matrix given at
    creation, which is also the initial position; [childJoints] holds the
    names of the children. *)
Record Joint := mkNode {
  name : string;
  kind : JointKind;
  currentPosition : CkitMat4;
  boundCalls : list BoundCall;
  childJoints : list string;
  linkedBody : option Body;
  solidComponents : list SolidComponent;
  bodyName : option string }.

Definition initialPosition (j : Joint) : CkitMat4 := currentPosition j.

Definition createNode (k : JointKind) (n : string) (mat : CkitMat4) : Joint :=
  mkNode n k mat [] [] None [] None.

Definition addBoundCall (c : BoundCall) (j : Joint) : Joint :=
  mkNode (name j) (kind j) (currentPosition j) (boundCalls j ++ [c])
         (childJoints j) (linkedBody j) (solidComponents j) (bodyName j).

Definition addChildJoint (c : string) (j : Joint) : Joint :=
  mkNode (name j) (kind j) (currentPosition j) (boundCalls j)
         (childJoints j ++ [c]) (linkedBody j) (solidComponents j) (bodyName j).

Definition setLinkedBody (b : Body) (j : Joint) : Joint :=
  mkNode (name j) (kind j) (currentPosition j) (boundCalls j)
         (childJoints j) (Some b) (solidComponents j) (bodyName j).

Definition addSolidComponentRef (c : SolidComponent) (j : Joint) : Joint :=
  mkNode (name j) (kind j) (currentPosition j) (boundCalls j)
         (childJoints j) (linkedBody j) (solidComponents j ++ [c]) (bodyName j).

Definition setBodyName (n : string) (j : Joint) : Joint :=
  mkNode (name j) (kind j) (currentPosition j) (boundCalls j)
         (childJoints j) (linkedBody j) (solidComponents j) (Some n).

Record Hand := mkHand {
  associatedWrist : string;
  center : vector3d;
  thumbAxis : vector3d;
  foreFingerAxis : vector3d;
  palmNormal : vector3d }.

Record Foot := mkFoot {
  associatedAnkle : string;
  anklePositionInLocalFrame : vector3d;
  soleSize : R * R }.

(** The calls made on [robot_]; joints are passed by name. *)
Inductive RobotCall :=
| setRootJoint (j : string)
| waist (j : string)
| chest (j : string)
| leftWrist (j : string)
| rightWrist (j : string)
| leftAnkle (j : string)
| rightAnkle (j : string)
| gazeJoint (j : string)
| gaze (dir origin : vector3d)
| leftHand (h : Hand)
| rightHand (h : Hand)
| leftFoot (f : Foot)
| rightFoot (f : Foot)
| initialize
| setActuatedJoints (l : list string)
| steeringMethodComponent.

(** [hpp::model::HumanoidRobot]. *)
Record HumanoidRobot := mkRobot {
  robotName : string;
  robotCalls : list RobotCall }.

(** ** The parser and its operations *)

Inductive Level := error | notice.

(** The attributes of [Parser]; [log_] collects what [hppDout] prints. *)
Record Parser := mkParser {
  model_ : ModelInterface;
  robot_ : option HumanoidRobot;
  rootJoint_ : option string;
  jointsMap_ : SMap.t Joint;
  waistJointName_ : string;
  chestJointName_ : string;
  leftWristJointName_ : string;
  rightWristJointName_ : string;
  leftHandJointName_ : string;
  rightHandJointName_ : string;
  leftAnkleJointName_ : string;
  rightAnkleJointName_ : string;
  leftFootJointName_ : string;
  rightFootJointName_ : string;
  gazeJointName_ : string;
  log_ : list (Level * string) }.

(** [Parser::Parser ()]. *)
Definition newParser : Parser :=
  mkParser clearModel None None SMap.empty
           "" "" "" "" "" "" "" "" "" "" "" [].

Definition set_model_ (a : ModelInterface) (p : Parser) : Parser :=
  mkParser a (robot_ p) (rootJoint_ p) (jointsMap_ p)
    (waistJointName_ p) (chestJointName_ p) (leftWristJointName_ p)
    (rightWristJointName_ p) (leftHandJointName_ p) (rightHandJointName_ p)
    (leftAnkleJointName_ p) (rightAnkleJointName_ p) (leftFootJointName_ p)
    (rightFootJointName_ p) (gazeJointName_ p) (log_ p).

Definition set_robot_ (a : option HumanoidRobot) (p : Parser) : Parser :=
  mkParser (model_ p) a (rootJoint_ p) (jointsMap_ p)
    (waistJointName_ p) (chestJointName_ p) (leftWristJointName_ p)
    (rightWristJointName_ p) (leftHandJointName_ p) (rightHandJointName_ p)
    (leftAnkleJointName_ p) (rightAnkleJointName_ p) (leftFootJointName_ p)
    (rightFootJointName_ p) (gazeJointName_ p) (log_ p).

Definition set_rootJoint_ (a : option string) (p : Parser) : Parser :=
  mkParser (model_ p) (robot_ p) a (jointsMap_ p)
    (waistJointName_ p) (chestJointName_ p) (leftWristJointName_ p)
    (rightWristJointName_ p) (leftHandJointName_ p) (rightHandJointName_ p)
    (leftAnkleJointName_ p) (rightAnkleJointName_ p) (leftFootJointName_ p)
    (rightFootJointName_ p) (gazeJointName_ p) (log_ p).

Definition set_jointsMap_ (a : SMap.t Joint) (p : Parser) : Parser :=
  mkParser (model_ p) (robot_ p) (rootJoint_ p) a
    (waistJointName_ p) (chestJointName_ p) (leftWristJointName_ p)
    (rightWristJointName_ p) (leftHandJointName_ p) (rightHandJointName_ p)
    (leftAnkleJointName_ p) (rightAnkleJointName_ p) (leftFootJointName_ p)
    (rightFootJointName_ p) (gazeJointName_ p) (log_ p).

Definition set_log_ (a : list (Level * string)) (p : Parser) : Parser :=
  mkParser (model_ p) (robot_ p) (rootJoint_ p) (jointsMap_ p)
    (waistJointName_ p) (chestJointName_ p) (leftWristJointName_ p)
    (rightWristJointName_ p) (leftHandJointName_ p) (rightHandJointName_ p)
    (leftAnkleJointName_ p) (rightAnkleJointName_ p) (leftFootJointName_ p)
    (rightFootJointName_ p) (gazeJointName_ p) a.

(** The ten names that [findSpecialJoints] assigns, in the order of the
    attributes. *)
Definition set_specialNames
    (w c lw rw lh rh la ra lf rf g : string) (p : Parser) : Parser :=
  mkParser (model_ p) (robot_ p) (rootJoint_ p) (jointsMap_ p)
    w c lw rw lh rh la ra lf rf g (log_ p).

(** *** Outcomes and the parser monad *)

Inductive outcome (A : Type) :=
| Ret (a : A)
| Undefined
| Throw (msg : string)
| OutOfFuel.
Arguments Ret {A} a.
Arguments Undefined {A}.
Arguments Throw {A} msg.
Arguments OutOfFuel {A}.

Definition M (A : Type) : Type := Parser -> outcome (A * Parser).

Definition ret {A} (a : A) : M A := fun p => Ret (a, p).

Definition bind {A B} (c : M A) (k : A -> M B) : M B :=
  fun p =>
    match c p with
    | Ret (a, p') => k a p'
    | Undefined => Undefined
    | Throw msg => Throw msg
    | OutOfFuel => OutOfFuel
    end.

Declare Scope parser_scope.
Delimit Scope parser_scope with parser.
Notation "x <- c ;; k" := (bind c (fun x => k))
  (at level 61, c at next level, right associativity) : parser_scope.
Notation "' pat <- c ;; k" := (bind c (fun x => let pat := x in k))
  (at level 61, pat pattern, c at next level, right associativity)
  : parser_scope.
Notation "c ;; k" := (bind c (fun _ => k))
  (at level 61, right associativity) : parser_scope.
Open Scope parser_scope.

Definition undefined {A} : M A := fun _ => Undefined.
Definition throw {A} (msg : string) : M A := fun _ => Throw msg.
Definition outOfFuel {A} : M A := fun _ => OutOfFuel.

Definition getParser : M Parser := fun p => Ret (p, p).
Definition modify (f : Parser -> Parser) : M unit := fun p => Ret (tt, f p).

(** [hppDout (level, message)]. *)
Definition hppDout (l : Level) (msg : string) : M unit :=
  modify (fun p => set_log_ (log_ p ++ [(l, msg)]) p).

(** [robot_->call]: [robot_] must not be null. *)
Definition onRobot (c : RobotCall) : M unit :=
  fun p =>
    match robot_ p with
    | None => Undefined
    | Some r =>
        Ret (tt,
             set_robot_
               (Some (mkRobot (robotName r) (robotCalls r ++ [c]))) p)
    end.

(** [joint->...]: access to the node behind a pointer; a null pointer is
    [None], and a pointer to a node is the name of a registered node. *)
Definition deref (joint : option string) : M Joint :=
  fun p =>
    match joint with
    | None => Undefined
    | Some n =>
        match SMap.find n (jointsMap_ p) with
        | None => Undefined
        | Some j => Ret (j, p)
        end
    end.

(** A mutation of the node behind a pointer. *)
Definition onJoint (joint : option string) (f : Joint -> Joint) : M unit :=
  fun p =>
    match joint with
    | None => Undefined
    | Some n =>
        match SMap.find n (jointsMap_ p) with
        | None => Undefined
        | Some j =>
            Ret (tt, set_jointsMap_ (SMap.insert n (f j) (jointsMap_ p)) p)
        end
    end.

(** *** Pose resolver *)

(** [btMatrix3x3 (btQuaternion)]: the rotation matrix of a quaternion, as
    [btMatrix3x3::setRotation] computes it. *)
Definition btMatrix3x3 (q : Rotation) : matrix3d :=
  let d := qx q * qx q + qy q * qy q + qz q * qz q + qw q * qw q in
  let s := 2 / d in
  let xs := qx q * s in let ys := qy q * s in let zs := qz q * s in
  let wx := qw q * xs in let wy := qw q * ys in let wz := qw q * zs in
  let xx := qx q * xs in let xy := qx q * ys in let xz := qx q * zs in
  let yy := qy q * ys in let yz := qy q * zs in let zz := qz q * zs in
  mkM3 (1 - (yy + zz)) (xy - wz) (xz + wy)
       (xy + wz) (1 - (xx + zz)) (yz - wx)
       (xz - wy) (yz + wx) (1 - (xx + yy)).

Definition poseToMatrix (p : Pose) : CkitMat4 :=
  let rotationMatrix := btMatrix3x3 (rotation p) in
  mkM4 (a00 rotationMatrix) (a01 rotationMatrix) (a02 rotationMatrix)
         (vx (position p))
       (a10 rotationMatrix) (a11 rotationMatrix) (a12 rotationMatrix)
         (vy (position p))
       (a20 rotationMatrix) (a21 rotationMatrix) (a22 rotationMatrix)
         (vz (position p))
       0 0 0 1.

Fixpoint getPoseInReferenceFrame (fuel : nat)
    (referenceJointName currentJointName : string) : M CkitMat4 :=
  match fuel with
  | O => outOfFuel
  | S fuel =>
      p <- getParser ;;
      if referenceJointName =? currentJointName then
        match getJoint (model_ p) currentJointName with
        | None => undefined
        | Some j => ret (poseToMatrix (parent_to_joint_origin_transform j))
        end
      else
        match getJoint (model_ p) currentJointName with
        | None =>
            hppDout error
              "Failed to retrieve parent while computing joint position" ;;
            ret identity
        | Some joint =>
            let transform :=
              poseToMatrix (parent_to_joint_origin_transform joint) in
            match getLink (model_ p) (parent_link_name joint) with
            | None => ret transform
            | Some parentLink =>
                match parent_joint parentLink with
                | None => ret transform
                | Some parentJoint =>
                    t <- getPoseInReferenceFrame fuel referenceJointName
                           (jname parentJoint) ;;
                    ret (mul t transform)
                end
            end
        end
  end.

(** *** Joint factory *)

(** The registration [jointsMap_[name] = joint]; the result is the pointer
    to the new node. *)
Definition register (n : string) (joint : Joint) : M (option string) :=
  modify (fun p => set_jointsMap_ (SMap.insert n joint (jointsMap_ p)) p) ;;
  ret (Some n).

Definition setLimits (limits : option JointLimits) (joint : Joint) : Joint :=
  match limits with
  | None => joint
  | Some l =>
      addBoundCall (torqueBounds 0 (- effort l) (effort l))
        (addBoundCall (velocityBounds 0 (- velocity l) (velocity l))
           (addBoundCall (bounds 0 (lower l) (upper l))
              (addBoundCall (isBounded 0 true) joint)))
  end.

Definition createFreeflyerJoint (n : string) (mat : CkitMat4)
  : M (option string) :=
  p <- getParser ;;
  match SMap.find n (jointsMap_ p) with
  | Some _ => hppDout error ("Duplicated free flyer joint " ++ n) ;; ret None
  | None =>
      register n
        (fold_left (fun joint i => addBoundCall (isBounded i false) joint)
                   (seq 0 6) (createNode FreeflyerJoint n mat))
  end.

Definition createRotationJoint (n : string) (mat : CkitMat4)
    (limits : option JointLimits) : M (option string) :=
  p <- getParser ;;
  match SMap.find n (jointsMap_ p) with
  | Some _ => hppDout error ("Duplicated rotation joint " ++ n) ;; ret None
  | None => register n (setLimits limits (createNode RotationJoint n mat))
  end.

Definition createContinuousJoint (n : string) (mat : CkitMat4)
  : M (option string) :=
  p <- getParser ;;
  match SMap.find n (jointsMap_ p) with
  | Some _ => hppDout error ("Duplicated continuous joint " ++ n) ;; ret None
  | None =>
      register n (addBoundCall (isBounded 0 false)
                    (createNode RotationJoint n mat))
  end.

Definition createTranslationJoint (n : string) (mat : CkitMat4)
    (limits : option JointLimits) : M (option string) :=
  p <- getParser ;;
  match SMap.find n (jointsMap_ p) with
  | Some _ => hppDout error ("Duplicated translation joint " ++ n) ;; ret None
  | None => register n (setLimits limits (createNode TranslationJoint n mat))
  end.

Definition createAnchorJoint (n : string) (mat : CkitMat4)
  : M (option string) :=
  p <- getParser ;;
  match SMap.find n (jointsMap_ p) with
  | Some _ => hppDout error ("Duplicated anchor joint " ++ n) ;; ret None
  | None => register n (createNode AnchorJoint n mat)
  end.

(** [Parser::findJoint]: the pointer registered under the name, or null. *)
Definition findJoint (jointName : string) : M (option string) :=
  p <- getParser ;;
  match SMap.find jointName (jointsMap_ p) with
  | None => ret None
  | Some _ => ret (Some jointName)
  end.

(** The loop of [parseJoints] over [model_.joints_]; the results of the
    creations are dropped, as in the source. *)
Fixpoint parseJointsLoop (fuel : nat)
    (its : list (string * option UrdfJoint)) : M bool :=
  match its with
  | [] => ret true
  | (first, second) :: rest =>
      position <- getPoseInReferenceFrame fuel "base_footprint_joint" first ;;
      p <- getParser ;;
      match getJoint (model_ p) first, second with
      | Some joint, Some second =>
          let position :=
            if isActuatedType (type joint)
            then mul position (normalizeFrameOrientation (Some joint))
            else position in
          match type second with
          | UNKNOWN =>
              hppDout error
                "Parsed joint has UNKNOWN type, this should not happen" ;;
              ret false
          | REVOLUTE =>
              createRotationJoint first position (limits second) ;;
              parseJointsLoop fuel rest
          | CONTINUOUS =>
              createContinuousJoint first position ;;
              parseJointsLoop fuel rest
          | PRISMATIC =>
              createTranslationJoint first position (limits second) ;;
              parseJointsLoop fuel rest
          | FLOATING =>
              createFreeflyerJoint first position ;;
              parseJointsLoop fuel rest
          | PLANAR =>
              hppDout error "PLANAR joints are not supported" ;;
              ret false
          | FIXED =>
              createAnchorJoint first position ;;
              parseJointsLoop fuel rest
          end
      | _, _ => undefined
      end
  end.

Definition parseJoints (fuel : nat) : M bool :=
  rootJoint <- createFreeflyerJoint "base_joint" identity ;;
  modify (set_rootJoint_ rootJoint) ;;
  match rootJoint with
  | None =>
      hppDout error "Failed to create root joint (free flyer)" ;;
      ret false
  | Some r =>
      onRobot (setRootJoint r) ;;
      p <- getParser ;;
      parseJointsLoop fuel (joints_ (model_ p))
  end.

(** The loop of [actuatedJoints]; [jointsVect] is the vector built so
    far. *)
Fixpoint actuatedJointsLoop (its : list (string * option UrdfJoint))
    (jointsVect : list string) : M (list string) :=
  match its with
  | [] => ret jointsVect
  | (first, None) :: _ => throw "null joint shared pointer"
  | (first, Some second) :: rest =>
      match type second with
      | UNKNOWN | FLOATING | FIXED => actuatedJointsLoop rest jointsVect
      | _ =>
          p <- getParser ;;
          match SMap.find first (jointsMap_ p) with
          | None => throw "failed to compute actuated joints"
          | Some _ =>
              if existsb (String.eqb first) jointsVect
              then actuatedJointsLoop rest jointsVect
              else actuatedJointsLoop rest (jointsVect ++ [first])
          end
      end
  end.

Definition actuatedJoints : M (list string) :=
  p <- getParser ;;
  actuatedJointsLoop (joints_ (model_ p)) [].

(** *** Anatomy resolver: names of the special joints *)

(** [findSpecialJoint (repName, jointName)]; the result is the value of
    the reference [jointName] on return.  [model_.links_[repName]] adds a
    null entry when [repName] is not a key. *)
Definition findSpecialJoint (repName jointName : string) : M string :=
  p <- getParser ;;
  let m := model_ p in
  match SMap.find repName (links_ m) with
  | None =>
      modify (set_model_
                (mkModel (name_ m) (joints_ m)
                         (SMap.insert repName None (links_ m))
                         (root_link_ m))) ;;
      ret jointName
  | Some None => ret jointName
  | Some (Some linkPtr) =>
      match parent_joint linkPtr with
      | Some joint => ret (jname joint)
      | None => ret jointName
      end
  end.

Definition findSpecialJoints : M unit :=
  p <- getParser ;;
  let w := "base_joint" in
  c <- findSpecialJoint "torso" (chestJointName_ p) ;;
  lw <- findSpecialJoint "l_wrist" (leftWristJointName_ p) ;;
  rw <- findSpecialJoint "r_wrist" (rightWristJointName_ p) ;;
  lh <- findSpecialJoint "l_gripper" (leftHandJointName_ p) ;;
  rh <- findSpecialJoint "r_gripper" (rightHandJointName_ p) ;;
  la <- findSpecialJoint "l_ankle" (leftAnkleJointName_ p) ;;
  ra <- findSpecialJoint "r_ankle" (rightAnkleJointName_ p) ;;
  lf <- findSpecialJoint "l_sole" (leftFootJointName_ p) ;;
  rf <- findSpecialJoint "r_sole" (rightFootJointName_ p) ;;
  g <- findSpecialJoint "gaze" (gazeJointName_ p) ;;
  modify (set_specialNames w c lw rw lh rh la ra lf rf g).

(** One statement [if (!findJoint (n)) hppDout (notice, msg); else
    robot_->role (findJoint (n)->jrlJoint ())] of [setSpecialJoints]. *)
Definition setSpecialJoint (n msg : string) (role : string -> RobotCall)
  : M unit :=
  j <- findJoint n ;;
  match j with
  | None => hppDout notice msg
  | Some j => onRobot (role j)
  end.

Definition setSpecialJoints : M unit :=
  p <- getParser ;;
  setSpecialJoint (waistJointName_ p) "No waist joint found" waist ;;
  setSpecialJoint (chestJointName_ p) "No chest joint found" chest ;;
  setSpecialJoint (leftWristJointName_ p) "No left wrist joint found"
    leftWrist ;;
  setSpecialJoint (rightWristJointName_ p) "No right wrist joint found"
    rightWrist ;;
  setSpecialJoint (leftAnkleJointName_ p) "No left ankle joint found"
    leftAnkle ;;
  setSpecialJoint (rightAnkleJointName_ p) "No right ankle joint found"
    rightAnkle ;;
  setSpecialJoint (gazeJointName_ p) "No gaze joint found" gazeJoint.

(** *** Tree assembler *)

(** The loop of [getChildrenJoint (jointName, result)] over the child
    joints of the child link; [recurse] is the recursive call. *)
Fixpoint getChildrenJointLoop
    (recurse : string -> list string -> M (bool * list string))
    (jointChildren : list UrdfJoint) (result : list string)
  : M (bool * list string) :=
  match jointChildren with
  | [] => ret (true, result)
  | joint :: rest =>
      p <- getParser ;;
      if (0 <? SMap.count (jname joint) (jointsMap_ p))%nat
      then getChildrenJointLoop recurse rest (result ++ [jname joint])
      else
        r <- recurse (jname joint) result ;;
        if fst r
        then getChildrenJointLoop recurse rest (snd r)
        else
          hppDout error
            ("Could not add children joint to joint " ++ jname joint) ;;
          ret (false, snd r)
  end.

(** [getChildrenJoint (jointName, result)]: the flag returned and the
    value of the reference [result] on return. *)
Fixpoint getChildrenJointInto (fuel : nat) (jointName : string)
    (result : list string) : M (bool * list string) :=
  match fuel with
  | O => outOfFuel
  | S fuel =>
      p <- getParser ;;
      let joint := getJoint (model_ p) jointName in
      match joint, jointName =? "base_joint" with
      | None, false =>
          hppDout error
            ("Failed to retrieve children joints of joint " ++ jointName) ;;
          ret (false, result)
      | _, isBase =>
          let childLink :=
            if isBase then getLink (model_ p) "base_link"
            else match joint with
                 | Some j => getLink (model_ p) (child_link_name j)
                 | None => None
                 end in
          match childLink with
          | None =>
              hppDout error
                ("Failed to retrieve children link of joint " ++ jointName) ;;
              undefined
          | Some l =>
              getChildrenJointLoop (getChildrenJointInto fuel)
                                   (child_joints l) result
          end
      end
  end.

(** [getChildrenJoint (jointName)]: the flag is dropped. *)
Definition getChildrenJoint (fuel : nat) (jointName : string)
  : M (list string) :=
  r <- getChildrenJointInto fuel jointName [] ;;
  ret (snd r).

(** The loop of [connectJoints] over the names that [getChildrenJoint]
    returned.  The test [child == jointsMap_.end () && !!child->second]
    reads [child->second] exactly when [child] is [end ()]; when [child]
    is an entry the test is false. *)
Fixpoint connectJointsLoop (recurse : option string -> M bool)
    (rootJoint : option string) (children : list string) : M bool :=
  match children with
  | [] => ret true
  | childName :: rest =>
      p <- getParser ;;
      match SMap.find childName (jointsMap_ p) with
      | None => undefined
      | Some _ =>
          onJoint rootJoint (addChildJoint childName) ;;
          recurse (Some childName) ;;
          connectJointsLoop recurse rootJoint rest
      end
  end.

Fixpoint connectJoints (fuel : nat) (rootJoint : option string) : M bool :=
  match fuel with
  | O => outOfFuel
  | S fuel =>
      j <- deref rootJoint ;;
      children <- getChildrenJoint fuel (name j) ;;
      connectJointsLoop (connectJoints fuel) rootJoint children
  end.

(** *** Operations that use other libraries

    The section variables stand for functions whose code is not in this
    repository. *)
Section Engine.

(** [CkitMat4::inverse]. *)
Variable inverse : CkitMat4 -> CkitMat4.
(** [matrix4d::Inversion]. *)
Variable Inversion : CkitMat4 -> CkitMat4.
(** [Parser::loadPolyhedronFromResource (filename, scale, polyhedron)]:
    whether the mesh could be loaded. *)
Variable loadPolyhedronFromResource : string -> vector3d -> bool.
(** [Capsule::getCapsule]: the two end points of a capsule of the given
    length and radius. *)
Variable getCapsule : R -> R -> vector3d * vector3d.
(** [urdf::Model::initString]: the decoded graph, or [None] when the
    document is rejected. *)
Variable initString : string -> option ModelInterface.
(** [resource_retriever::Retriever::get]: the content of a resource. *)
Variable resourceRetriever_get : string -> string.

(** **** Geometry attachment resolver *)

Definition computeBodyAbsolutePosition (link : UrdfLink) (pose : Pose)
  : M CkitMat4 :=
  let linkPositionInParentJoint := poseToMatrix pose in
  if lname link =? "base_link" then
    j <- findJoint "base_joint" ;;
    j <- deref j ;;
    ret (mul (currentPosition j) linkPositionInParentJoint)
  else
    match parent_joint link with
    | None => undefined
    | Some parent =>
        j <- findJoint (jname parent) ;;
        j <- deref j ;;
        let parentJointInWorld := currentPosition j in
        let parentJointInWorld :=
          if isActuatedType (type parent)
          then mul parentJointInWorld
                   (inverse (normalizeFrameOrientation (Some parent)))
          else parentJointInWorld in
        ret (mul parentJointInWorld linkPositionInParentJoint)
    end.

(** The four cases of [addSolidComponentToJoint] exclude one another, so
    the four [if] statements of the source are one [match]. *)
Definition addSolidComponentToJoint (link : UrdfLink) (joint : option string)
  : M bool :=
  match visual link, collision link with
  | Some visual, Some collision =>
      match visual_geometry visual, collision_geometry collision with
      | MESH visualFilename scale, MESH collisionFilename _ =>
          if negb (visualFilename =? collisionFilename) then
            hppDout error
              ("Unhandled:visual and collision meshes not the same for "
                 ++ lname link) ;;
            ret false
          else if negb (loadPolyhedronFromResource visualFilename scale) then
            hppDout error
              ("Could not load polyhedron from resource for "
                 ++ lname link) ;;
            ret false
          else
            position <- computeBodyAbsolutePosition link
                          (visual_origin visual) ;;
            onJoint joint
              (addSolidComponentRef
                 (Polyhedron (lname link) visualFilename scale position)) ;;
            ret true
      | CYLINDER length radius, CYLINDER _ _ =>
          position <- computeBodyAbsolutePosition link
                        (visual_origin visual) ;;
          let zTox := rotateY (PI / 2) in
          let position := mul position zTox in
          onJoint joint
            (addSolidComponentRef
               (Cylinder (lname link) radius length position)) ;;
          ret true
      | BOX dim, BOX _ =>
          position <- computeBodyAbsolutePosition link
                        (visual_origin visual) ;;
          onJoint joint
            (addSolidComponentRef
               (Box (lname link) (vx dim) (vy dim) (vz dim) position)) ;;
          ret true
      | MESH _ _, CYLINDER length radius =>
          position <- computeBodyAbsolutePosition link
                        (collision_origin collision) ;;
          let zTox := rotateY (PI / 2) in
          let position := mul position zTox in
          let endPoints := getCapsule length radius in
          let segmentName := lname link ++ "-segment" in
          onJoint joint
            (addSolidComponentRef
               (Capsule (lname link) length radius position)) ;;
          onJoint joint
            (addSolidComponentRef
               (Segment segmentName (fst endPoints) (snd endPoints) radius
                        position)) ;;
          ret true
      | _, _ => ret true
      end
  | _, _ => undefined
  end.

(** **** Body and inertia attacher *)

(** The inertia matrix that [addBodiesToJoints] fills from the six
    values of the link. *)
Definition inertiaOf (i : Inertial) : matrix3d :=
  mkM3 (ixx i) (ixy i) (ixz i)
       (ixy i) (iyy i) (iyz i)
       (ixz i) (iyz i) (izz i).

(** [localComTransform]: the identity with the centre of mass as its
    translation. *)
Definition translationOf (v : vector3d) : CkitMat4 :=
  mkM4 1 0 0 (vx v)
       0 1 0 (vy v)
       0 0 1 (vz v)
       0 0 0 1.

(** The re-expression of the centre of mass and of the inertia matrix
    in the normalized frame [normalizedJointTransform]. *)
Definition reexpressCom (normalizedJointTransform : CkitMat4)
    (localCom : vector3d) : vector3d :=
  trans3 (mul (inverse normalizedJointTransform) (translationOf localCom)).

Definition reexpressInertia (normalizedJointTransform : CkitMat4)
    (inertiaMatrix : matrix3d) : matrix3d :=
  rot3 (mul (mul (inverse normalizedJointTransform) (embed3 inertiaMatrix))
            normalizedJointTransform).

(** The body that [addBodiesToJoints] creates for the joint registered
    under [first], whose child link is [link]. *)
Definition bodyOfLink (first childLinkName : string) (link : UrdfLink)
  : M Body :=
  match inertial link with
  | Some inertial =>
      let localCom := position (inertial_origin inertial) in
      let inertiaMatrix := inertiaOf inertial in
      if first =? "base_joint" then
        ret (mkBody (mass inertial) localCom inertiaMatrix)
      else
        match parent_joint link with
        | None => undefined
        | Some parent =>
            if isActuatedType (type parent) then
              let normalizedJointTransform :=
                normalizeFrameOrientation (Some parent) in
              ret (mkBody (mass inertial)
                     (reexpressCom normalizedJointTransform localCom)
                     (reexpressInertia normalizedJointTransform
                                       inertiaMatrix))
            else ret (mkBody (mass inertial) localCom inertiaMatrix)
        end
  | None =>
      hppDout notice
        ("missing inertial information in link " ++ childLinkName) ;;
      ret (mkBody 0 (mkV3 0 0 0) zero3)
  end.

(** The loop of [addBodiesToJoints] over the keys of [jointsMap_]. *)
Fixpoint addBodiesLoop (keys : list string) : M bool :=
  match keys with
  | [] => ret true
  | first :: rest =>
      p <- getParser ;;
      let joint := getJoint (model_ p) first in
      match joint, first =? "base_joint" with
      | None, false => addBodiesLoop rest
      | _, isBase =>
          let childLinkName :=
            if isBase then "base_link"
            else match joint with
                 | Some j => child_link_name j
                 | None => ""
                 end in
          match getLink (model_ p) childLinkName with
          | None =>
              hppDout error
                ("Link " ++ childLinkName
                   ++ " not found, inconsistent model") ;;
              ret false
          | Some link =>
              jrlBody <- bodyOfLink first childLinkName link ;;
              onJoint (Some first) (setLinkedBody jrlBody) ;;
              match visual link, collision link with
              | Some _, Some _ =>
                  ok <- addSolidComponentToJoint link (Some first) ;;
                  if ok then
                    onJoint (Some first) (setBodyName childLinkName) ;;
                    addBodiesLoop rest
                  else
                    hppDout error
                      "Could not add solid component to joint." ;;
                    ret false
              | _, _ => addBodiesLoop rest
              end
          end
      end
  end.

Definition addBodiesToJoints : M bool :=
  p <- getParser ;;
  addBodiesLoop (SMap.keys (jointsMap_ p)).

(** **** End effectors, gaze and bounds of the root *)

(** [robot_->getRootJoint ()]: the joint of the last [setRootJoint]. *)
Definition lastRootJoint (calls : list RobotCall) : option string :=
  fold_left (fun r c => match c with setRootJoint j => Some j | _ => r end)
            calls None.

Definition getRootJoint : M (option string) :=
  fun p =>
    match robot_ p with
    | None => Undefined
    | Some r => Ret (lastRootJoint (robotCalls r), p)
    end.

Definition setFreeFlyerBounds : M unit :=
  rootJoint <- getRootJoint ;;
  let translations (j : Joint) :=
    fold_left
      (fun j i => addBoundCall (upperBound i PlusInfinity)
                    (addBoundCall (lowerBound i MinusInfinity) j))
      (seq 0 3) j in
  let rotations (j : Joint) :=
    fold_left
      (fun j i => addBoundCall (upperBound i (Finite (PI / 6)))
                    (addBoundCall (lowerBound i (Finite (- PI / 6)))
                       (addBoundCall (isBounded i true) j)))
      (seq 3 2) j in
  let yaw (j : Joint) :=
    addBoundCall (upperBound 5 PlusInfinity)
      (addBoundCall (lowerBound 5 MinusInfinity) j) in
  onJoint rootJoint (fun j => yaw (rotations (translations j))).

(** [computeHandsInformation]: centre, thumb axis, forefinger axis and
    palm normal, from the initial positions of the hand and wrist
    nodes. *)
Definition computeHandsInformation (hand wrist : Joint)
  : vector3d * vector3d * vector3d * vector3d :=
  let world_M_hand := initialPosition hand in
  let world_M_wrist := initialPosition wrist in
  let wrist_M_world := Inversion world_M_wrist in
  let wrist_M_hand := mul wrist_M_world world_M_hand in
  let wrist_R_hand := rot3 wrist_M_hand in
  (trans3 wrist_M_hand,
   col3 wrist_R_hand 0, col3 wrist_R_hand 1, col3 wrist_R_hand 2).

Definition computeAnklePositionInLocalFrame (foot ankle : Joint)
  : vector3d :=
  let world_M_foot := initialPosition foot in
  let world_M_ankle := initialPosition ankle in
  let foot_M_world := Inversion world_M_foot in
  trans3 (mul foot_M_world world_M_ankle).

(** [fillGaze] reads [gaze->second] without comparing [gaze] with
    [jointsMap_.end ()]. *)
Definition fillGaze : M unit :=
  p <- getParser ;;
  match SMap.find (gazeJointName_ p) (jointsMap_ p) with
  | None => undefined
  | Some _ =>
      onRobot (gazeJoint (gazeJointName_ p)) ;;
      onRobot (gaze (mkV3 1 0 0) (mkV3 0 0 0))
  end.

(** One of the two hand blocks of [fillHandsAndFeet]. *)
Definition fillHand (handName wristName msg : string)
    (role : Hand -> RobotCall) : M unit :=
  p <- getParser ;;
  match SMap.find handName (jointsMap_ p),
        SMap.find wristName (jointsMap_ p) with
  | Some hand, Some wrist =>
      let '(center, thumbAxis, foreFingerAxis, palmNormal) :=
        computeHandsInformation hand wrist in
      onRobot (role (mkHand wristName center thumbAxis foreFingerAxis
                            palmNormal))
  | _, _ => hppDout notice msg
  end.

(** One of the two foot blocks of [fillHandsAndFeet]. *)
Definition fillFoot (footName ankleName msg : string)
    (role : Foot -> RobotCall) : M unit :=
  p <- getParser ;;
  match SMap.find footName (jointsMap_ p),
        SMap.find ankleName (jointsMap_ p) with
  | Some foot, Some ankle =>
      onRobot (role (mkFoot ankleName
                       (computeAnklePositionInLocalFrame foot ankle)
                       (0, 0)))
  | _, _ => hppDout notice msg
  end.

Definition fillHandsAndFeet : M unit :=
  p <- getParser ;;
  fillHand (leftHandJointName_ p) (leftWristJointName_ p)
           "Could not set left hand" leftHand ;;
  fillHand (rightHandJointName_ p) (rightWristJointName_ p)
           "Could not set right hand" rightHand ;;
  fillFoot (leftFootJointName_ p) (leftAnkleJointName_ p)
           "Could not set left foot" leftFoot ;;
  fillFoot (rightFootJointName_ p) (rightAnkleJointName_ p)
           "Could not set right foot" rightFoot.

(** **** The build *)

(** The failure exit of [parseStream]: the message, [robot_.reset ()],
    and the null robot returned. *)
Definition abortBuild (msg : string) : M (option HumanoidRobot) :=
  hppDout error msg ;;
  modify (set_robot_ None) ;;
  ret None.

Definition parseStream (fuel : nat) (robotDescription : string)
  : M (option HumanoidRobot) :=
  modify (set_model_ clearModel) ;;
  modify (set_robot_ (Some (mkRobot (name_ clearModel) []))) ;;
  modify (set_rootJoint_ None) ;;
  modify (set_jointsMap_ SMap.empty) ;;
  match initString robotDescription with
  | None =>
      abortBuild "Failed to open URDF file. Is the filename location correct?"
  | Some m =>
      modify (set_model_ m) ;;
      findSpecialJoints ;;
      ok <- parseJoints fuel ;;
      if negb ok then abortBuild "Could not parse joints."
      else
        p <- getParser ;;
        match getRoot (model_ p) with
        | None => abortBuild "URDF model is missing a root link"
        | Some _ =>
            ok <- connectJoints fuel (rootJoint_ p) ;;
            if negb ok then abortBuild "Could not connect joints."
            else
              setSpecialJoints ;;
              ok <- addBodiesToJoints ;;
              if negb ok then abortBuild "Could not add bodies to joints."
              else
                onRobot initialize ;;
                actJointsVect <- actuatedJoints ;;
                onRobot (setActuatedJoints actJointsVect) ;;
                fillGaze ;;
                fillHandsAndFeet ;;
                onRobot steeringMethodComponent ;;
                setFreeFlyerBounds ;;
                p <- getParser ;;
                ret (robot_ p)
        end
  end.

Definition parse (fuel : nat) (filename : string)
  : M (option HumanoidRobot) :=
  parseStream fuel (resourceRetriever_get filename).

End Engine.

(** ** Instances and input graphs used by the examples *)

(** The inverse of a rigid transformation: the rotation block transposed
    and the translation brought back through it. *)
Definition rigidInverse (m : CkitMat4) : CkitMat4 :=
  mkM4 (m00 m) (m10 m) (m20 m)
         (- (m00 m * m03 m + m10 m * m13 m + m20 m * m23 m))
       (m01 m) (m11 m) (m21 m)
         (- (m01 m * m03 m + m11 m * m13 m + m21 m * m23 m))
       (m02 m) (m12 m) (m22 m)
         (- (m02 m * m03 m + m12 m * m13 m + m22 m * m23 m))
       0 0 0 1.

Definition loadAlways (_ : string) (_ : vector3d) : bool := true.

Definition capsuleAlongX (length _ : R) : vector3d * vector3d :=
  (mkV3 (- length / 2) 0 0, mkV3 (length / 2) 0 0).

(** A decoder that returns the given graph for every document. *)
Definition decodeAs (m : ModelInterface) (_ : string)
  : option ModelInterface := Some m.

(** The build with these instances, started from a new parser, on the
    decoded graph [m]. *)
Definition build (fuel : nat) (m : ModelInterface)
  : outcome (option HumanoidRobot * Parser) :=
  parseStream rigidInverse rigidInverse loadAlways capsuleAlongX (decodeAs m)
              fuel "" newParser.

Definition translation (x y z : R) : Pose :=
  mkPose (mkV3 x y z) (mkRot 0 0 0 1).

Definition jointOf (n : string) (t : JointType) (parent child : string)
    (origin : Pose) : UrdfJoint :=
  mkJoint n t (mkV3 1 2 2) child parent origin None.

Definition bareLink (n : string) (parent : option UrdfJoint)
    (children : list UrdfJoint) : UrdfLink :=
  mkLink n None None None parent children.

(** A revolute joint of axis (1, 2, 2). *)
Definition joint122 : UrdfJoint :=
  jointOf "j1" REVOLUTE "base_link" "l1" (translation 0 0 0).

(** A chain of three joints A, B, C under the root link L0. *)
Module Chain.
Definition A := jointOf "A" FIXED "L0" "L1" (translation 1 0 0).
Definition B := jointOf "B" FIXED "L1" "L2" (translation 0 1 0).
Definition C := jointOf "C" FIXED "L2" "L3" (translation 0 0 1).
Definition L0 := bareLink "L0" None [A].
Definition L1 := bareLink "L1" (Some A) [B].
Definition L2 := bareLink "L2" (Some B) [C].
Definition L3 := bareLink "L3" (Some C) [].
Definition model : ModelInterface :=
  mkModel "chain"
    [("A", Some A); ("B", Some B); ("C", Some C)]
    [("L0", Some L0); ("L1", Some L1); ("L2", Some L2); ("L3", Some L3)]
    (Some L0).
Definition parser : Parser := set_model_ model newParser.
End Chain.

(** The root link alone: no joint, no role. *)
Module Bare.
Definition baseLink := bareLink "base_link" None [].
Definition model : ModelInterface :=
  mkModel "bare" [] [("base_link", Some baseLink)] (Some baseLink).
End Bare.

(** The root link and a link named gaze under it. *)
Module GazeOnly.
Definition gazeJ := jointOf "gaze_joint" FIXED "base_link" "gaze"
                            (translation 0 0 1).
Definition baseLink := bareLink "base_link" None [gazeJ].
Definition gazeLink := bareLink "gaze" (Some gazeJ) [].
Definition model : ModelInterface :=
  mkModel "gaze only"
    [("gaze_joint", Some gazeJ)]
    [("base_link", Some baseLink); ("gaze", Some gazeLink)]
    (Some baseLink).
End GazeOnly.

(** The parser after [parseStream] has reset it for the graph [m] and
    [parseJoints] has run. *)
Definition afterParseJoints (fuel : nat) (m : ModelInterface) : Parser :=
  match (modify (set_model_ m) ;;
         modify (set_robot_ (Some (mkRobot "" []))) ;;
         parseJoints fuel) newParser with
  | Ret (_, p) => p
  | _ => newParser
  end.

(** The parser after the build of the graph [m]. *)
Definition afterBuild (fuel : nat) (m : ModelInterface) : Parser :=
  match build fuel m with
  | Ret (_, p) => p
  | _ => newParser
  end.

(** A document whose root link is world and whose first joint is named
    base_joint, the name of the root joint that the parser creates. *)
Module Duplicate.
Definition baseJ (t : JointType) :=
  jointOf "base_joint" t "world" "base_link" (translation 0 0 1).
Definition gazeJ := jointOf "gaze_joint" FIXED "base_link" "gaze"
                            (translation 0 0 1).
Definition world (t : JointType) := bareLink "world" None [baseJ t].
Definition baseLink (t : JointType) :=
  bareLink "base_link" (Some (baseJ t)) [gazeJ].
Definition gazeLink := bareLink "gaze" (Some gazeJ) [].
(** The graph in which the joint named base_joint has the kind [t]. *)
Definition modelOf (t : JointType) : ModelInterface :=
  mkModel "duplicate"
    [("base_joint", Some (baseJ t)); ("gaze_joint", Some gazeJ)]
    [("base_link", Some (baseLink t)); ("gaze", Some gazeLink);
     ("world", Some (world t))]
    (Some (world t)).
Definition model : ModelInterface := modelOf FIXED.
End Duplicate.

(** A fixed joint and a planar joint under the root link. *)
Module Planar.
Definition a0 := jointOf "a0" FIXED "base_link" "l0" (translation 1 0 0).
Definition p1 := jointOf "p1" PLANAR "base_link" "l1" (translation 0 1 0).
Definition baseLink := bareLink "base_link" None [a0; p1].
Definition l0 := bareLink "l0" (Some a0) [].
Definition l1 := bareLink "l1" (Some p1) [].
Definition model : ModelInterface :=
  mkModel "planar"
    [("a0", Some a0); ("p1", Some p1)]
    [("base_link", Some baseLink); ("l0", Some l0); ("l1", Some l1)]
    (Some baseLink).
End Planar.

(** Two sibling links under the root link: la carries the visual mesh
    a.obj and the collision mesh b.obj, lb carries a mass. *)
Module Meshes.
Definition ja := jointOf "ja" FIXED "base_link" "la" (translation 1 0 0).
Definition jb := jointOf "jb" FIXED "base_link" "lb" (translation 0 1 0).
Definition baseLink := bareLink "base_link" None [ja; jb].
Definition la : UrdfLink :=
  mkLink "la" None
    (Some (mkVisual (translation 0 0 0) (MESH "a.obj" (mkV3 1 1 1))))
    (Some (mkCollision (translation 0 0 0) (MESH "b.obj" (mkV3 1 1 1))))
    (Some ja) [].
Definition lb : UrdfLink :=
  mkLink "lb"
    (Some (mkInertial (translation 0 0 0) 1 1 0 0 1 0 1))
    None None (Some jb) [].
Definition model : ModelInterface :=
  mkModel "meshes"
    [("ja", Some ja); ("jb", Some jb)]
    [("base_link", Some baseLink); ("la", Some la); ("lb", Some lb)]
    (Some baseLink).
End Meshes.

(** A revolute joint and the gaze link under the root link. *)
Module Arm.
Definition gazeJ := jointOf "gaze_joint" FIXED "base_link" "gaze"
                            (translation 0 0 1).
Definition baseLink := bareLink "base_link" None [gazeJ; joint122].
Definition gazeLink := bareLink "gaze" (Some gazeJ) [].
Definition l1 := bareLink "l1" (Some joint122) [].
Definition model : ModelInterface :=
  mkModel "arm"
    [("gaze_joint", Some gazeJ); ("j1", Some joint122)]
    [("base_link", Some baseLink); ("gaze", Some gazeLink);
     ("l1", Some l1)]
    (Some baseLink).
End Arm.

(** ** Predicates of the statements *)

(** A creation is rejected in the state [p]: it returns the null pointer,
    prints an error, and leaves the registry as it was. *)
Definition rejected (c : M (option string)) (p : Parser) : Prop :=
  exists (msg : string) (p' : Parser),
    c p = Ret (None, p') /\
    jointsMap_ p' = jointsMap_ p /\
    log_ p' = (log_ p ++ [(error, msg)])%list.

(** The characteristic polynomial of a 3x3 matrix, and its roots: the
    eigenvalues (the principal moments of an inertia matrix). *)
Definition shift3 (a : matrix3d) (l : R) : matrix3d :=
  mkM3 (a00 a - l) (a01 a) (a02 a)
       (a10 a) (a11 a - l) (a12 a)
       (a20 a) (a21 a) (a22 a - l).

Definition charpoly (a : matrix3d) (l : R) : R := det3 (shift3 a l).

Definition eigenvalue (a : matrix3d) (l : R) : Prop := charpoly a l = 0.

(** A 3x3 matrix whose columns are pairwise orthogonal and of unit
    length. *)
Definition orthonormal (r : matrix3d) : Prop :=
  mul3 (transpose3 r) r = identity3.

(** The rotation of a quarter turn about z, and an inertia with products
    of inertia. *)
Definition quarterTurnZ : matrix3d :=
  mkM3 0 (- 1) 0
       1 0 0
       0 0 1.

Definition sampleInertial : Inertial :=
  mkInertial (translation 0 0 0) 1 3 1 0 2 0 5.

(** Two graphs with the same joints and the same links under every
    name ([findSpecialJoints] may add null entries to [links_]). *)
Definition sameGraph (m m' : ModelInterface) : Prop :=
  joints_ m' = joints_ m /\ forall n, getLink m' n = getLink m n.

(** The joints that [actuatedJoints] does not skip. *)
Definition qualifies (t : JointType) : bool :=
  match t with
  | UNKNOWN | FLOATING | FIXED => false
  | _ => true
  end.

(** An operation that leaves the input graph as it is, whenever it
    returns. *)
Definition keepsModel {A} (c : M A) : Prop :=
  forall p a p', c p = Ret (a, p') -> model_ p' = model_ p.

(** The entries of [model_.joints_] hold joints, and [getJoint] finds a
    joint under each of their names. *)
Definition wellFormedJoints (m : ModelInterface) : Prop :=
  forall k v, In (k, v) (joints_ m) ->
    v <> None /\ getJoint m k <> None.

(** Pose resolution, as [parseJoints] calls it, returns a pose for every
    joint of the graph [m] when it is given [fuel]. *)
Definition resolves (fuel : nat) (m : ModelInterface) : Prop :=
  forall k v, In (k, v) (joints_ m) ->
    exists t p',
      getPoseInReferenceFrame fuel "base_footprint_joint" k
        (set_model_ m newParser) = Ret (t, p').

(** The joints of the model of [p] have been accepted by [parseJoints]. *)
Definition parsed (p : Parser) : Prop :=
  exists fuel p0 p1,
    parseJointsLoop fuel (joints_ (model_ p)) p0 = Ret (true, p1).

(** ** Definitions of the further properties *)

(** The joint [j] with another axis. *)
Definition withAxis (j : UrdfJoint) (a : vector3d) : UrdfJoint :=
  mkJoint (jname j) (type j) a (child_link_name j) (parent_link_name j)
          (parent_to_joint_origin_transform j) (limits j).

(** The walk of the pose resolver from the joint [current] towards the
    root: [ancestors] are the joints met above it, nearest first.  The
    walk ends at the reference joint, or at a joint whose parent link is
    missing or has no parent joint. *)
Fixpoint walk (m : ModelInterface) (reference : string)
    (current : UrdfJoint) (ancestors : list UrdfJoint) : Prop :=
  getJoint m (jname current) = Some current /\
  match ancestors with
  | [] =>
      reference = jname current \/
      getLink m (parent_link_name current) = None \/
      exists l, getLink m (parent_link_name current) = Some l /\
                parent_joint l = None
  | a :: rest =>
      reference <> jname current /\
      (exists l pj, getLink m (parent_link_name current) = Some l /\
                    parent_joint l = Some pj /\ jname pj = jname a) /\
      walk m reference a rest
  end.

(** The product of the own transforms along a walk, root side first. *)
Fixpoint pathProduct (current : UrdfJoint) (ancestors : list UrdfJoint)
  : CkitMat4 :=
  match ancestors with
  | [] => poseToMatrix (parent_to_joint_origin_transform current)
  | a :: rest =>
      mul (pathProduct a rest)
          (poseToMatrix (parent_to_joint_origin_transform current))
  end.

(** A creation has registered a new node of kind [k] under the name [n],
    at the position [mat]: the node is found under [n], by the registry
    and by [findJoint], and the other entries are as they were. *)
Definition registeredAs (c : M (option string)) (p : Parser) (n : string)
    (k : JointKind) (mat : CkitMat4) : Prop :=
  exists node p',
    c p = Ret (Some n, p') /\
    SMap.find n (jointsMap_ p') = Some node /\
    name node = n /\ kind node = k /\ currentPosition node = mat /\
    childJoints node = [] /\ linkedBody node = None /\
    (forall k', k' <> n ->
                SMap.find k' (jointsMap_ p') = SMap.find k' (jointsMap_ p)) /\
    findJoint n p' = Ret (Some n, p').

(** The node that [parseJoints] asks the factory to register for the
    entry [(first, second)] of the graph, at the position [position]. *)
Definition nodeOfJoint (first : string) (second : UrdfJoint)
    (position : CkitMat4) : option Joint :=
  match type second with
  | REVOLUTE =>
      Some (setLimits (limits second)
                      (createNode RotationJoint first position))
  | CONTINUOUS =>
      Some (addBoundCall (isBounded 0 false)
                         (createNode RotationJoint first position))
  | PRISMATIC =>
      Some (setLimits (limits second)
                      (createNode TranslationJoint first position))
  | FLOATING =>
      Some (fold_left (fun joint i => addBoundCall (isBounded i false) joint)
                      (seq 0 6) (createNode FreeflyerJoint first position))
  | FIXED => Some (createNode AnchorJoint first position)
  | UNKNOWN | PLANAR => None
  end.

(** The position that [parseJoints] gives to the node of [joint], from
    the pose [t] that the resolver returned. *)
Definition nodePosition (joint : UrdfJoint) (t : CkitMat4) : CkitMat4 :=
  if isActuatedType (type joint)
  then mul t (normalizeFrameOrientation (Some joint))
  else t.

(** The parser as [parseStream] leaves it for [parseJoints]: the graph
    [m], a fresh robot and an empty registry. *)
Definition resetParser (m : ModelInterface) : Parser :=
  set_robot_ (Some (mkRobot "" [])) (set_model_ m newParser).

(** The names of the entries that [actuatedJoints] does not skip, in the
    order of the map. *)
Definition qualifyingNames (its : list (string * option UrdfJoint))
  : list string :=
  map fst (filter (fun e => match snd e with
                            | Some j => qualifies (type j)
                            | None => false
                            end) its).

(** The link whose child joints [getChildrenJoint] visits for the joint
    [jointName]: base_link for base_joint, the child link of the joint
    otherwise. *)
Definition childLinkOf (m : ModelInterface) (jointName : string)
  : option UrdfLink :=
  if jointName =? "base_joint" then getLink m "base_link"
  else match getJoint m jointName with
       | Some j => getLink m (child_link_name j)
       | None => None
       end.

(** A graph whose root link is not named base_link. *)
Module Trunk.
Definition trunk := bareLink "trunk" None [].
Definition model : ModelInterface :=
  mkModel "trunk" [] [("trunk", Some trunk)] (Some trunk).
End Trunk.

(** A build that gives no robot: it has no defined result, does not end
    within the recursion bound, raises an error, or returns the null
    robot after resetting [robot_]. *)
Definition givesNoRobot (o : outcome (option HumanoidRobot * Parser))
  : Prop :=
  o = Undefined \/ o = OutOfFuel \/ (exists msg, o = Throw msg) \/
  exists p', o = Ret (None, p') /\ robot_ p' = None.

(** The image of a vector by a 3x3 matrix, the sum of two vectors, and
    the image of a point by a homogeneous matrix whose last row is
    (0, 0, 0, 1). *)
Definition apply3 (r : matrix3d) (v : vector3d) : vector3d :=
  mkV3 (a00 r * vx v + a01 r * vy v + a02 r * vz v)
       (a10 r * vx v + a11 r * vy v + a12 r * vz v)
       (a20 r * vx v + a21 r * vy v + a22 r * vz v).

Definition add3 (a b : vector3d) : vector3d :=
  mkV3 (vx a + vx b) (vy a + vy b) (vz a + vz b).

Definition transform (m : CkitMat4) (v : vector3d) : vector3d :=
  add3 (apply3 (rot3 m) v) (trans3 m).

(** A homogeneous matrix whose last row is (0, 0, 0, 1). *)
Definition affine (m : CkitMat4) : Prop :=
  m30 m = 0 /\ m31 m = 0 /\ m32 m = 0 /\ m33 m = 1.

(** A joint of axis z, and a link that hangs from it. *)
Module AxisZ.
Definition joint : UrdfJoint := withAxis joint122 (mkV3 0 0 1).
Definition link : UrdfLink := bareLink "l1" (Some joint) [].
Definition pose : Pose := translation 1 2 3.
Definition parser : Parser :=
  set_jointsMap_
    (SMap.insert "j1"
       (createNode RotationJoint "j1"
          (nodePosition joint (poseToMatrix (translation 4 5 6))))
       SMap.empty)
    newParser.
End AxisZ.

(** Nodes at translations of the world frame. *)
Module Limb.
Definition foot : Joint :=
  createNode AnchorJoint "foot" (translationOf (mkV3 1 2 3)).
Definition ankle : Joint :=
  createNode RotationJoint "ankle" (translationOf (mkV3 1 2 4)).
Definition wrist : Joint :=
  createNode RotationJoint "wrist" (translationOf (mkV3 0 3 5)).
Definition hand : Joint :=
  createNode AnchorJoint "hand" (translationOf (mkV3 0 3 6)).
End Limb.

(** The name that [findSpecialJoint (repName, jointName)] leaves in
    [jointName], read in the graph [m]: the name of the parent joint of
    the link [repName], or the name as it was. *)
Definition specialJointName (m : ModelInterface)
    (repName jointName : string) : string :=
  match getLink m repName with
  | Some linkPtr =>
      match parent_joint linkPtr with
      | Some joint => jname joint
      | None => jointName
      end
  | None => jointName
  end.

(** The node [j] with the list [c] of children. *)
Definition withChildren (j : Joint) (c : list string) : Joint :=
  mkNode (name j) (kind j) (currentPosition j) (boundCalls j) c
         (linkedBody j) (solidComponents j) (bodyName j).

(** The registry [r'] has the keys of [r], and each of its nodes is the
    node of [r] with names of registered nodes appended to its
    children. *)
Definition childrenExtended (r r' : SMap.t Joint) : Prop :=
  forall k,
    match SMap.find k r with
    | None => SMap.find k r' = None
    | Some a =>
        exists suffix,
          SMap.find k r'
          = Some (withChildren a (childJoints a ++ suffix)) /\
          forall c, In c suffix -> SMap.find c r <> None
    end.

(** A homogeneous matrix of every registered node. *)
Definition affinePositions (r : SMap.t Joint) : Prop :=
  forall k node, SMap.find k r = Some node -> affine (currentPosition node).

(** The registry [r'] has the keys of [r], and each of its nodes has the
    name, the kind, the position, the bounds and the children of the node
    of [r], and a body when that node had one. *)
Definition bodyAttached (r r' : SMap.t Joint) : Prop :=
  forall k,
    match SMap.find k r with
    | None => SMap.find k r' = None
    | Some a =>
        exists b,
          SMap.find k r' = Some b /\
          name b = name a /\ kind b = kind a /\
          currentPosition b = currentPosition a /\
          boundCalls b = boundCalls a /\
          childJoints b = childJoints a /\
          (linkedBody a <> None -> linkedBody b <> None)
    end.

(** An operation that changes the registry within [bodyAttached]. *)
Definition keepsSkeleton {A} (c : M A) : Prop :=
  forall p a p', c p = Ret (a, p') ->
                 bodyAttached (jointsMap_ p) (jointsMap_ p').

(** A change of a node that [bodyAttached] allows. *)
Definition gentle (f : Joint -> Joint) : Prop :=
  forall a,
    name (f a) = name a /\ kind (f a) = kind a /\
    currentPosition (f a) = currentPosition a /\
    boundCalls (f a) = boundCalls a /\
    childJoints (f a) = childJoints a /\
    (linkedBody a <> None -> linkedBody (f a) <> None).

(** The registry [r'] has the keys of [r], and each of its nodes has a
    body when the node of [r] had one. *)
Definition bodiesKept (r r' : SMap.t Joint) : Prop :=
  forall k,
    match SMap.find k r with
    | None => SMap.find k r' = None
    | Some a =>
        exists b, SMap.find k r' = Some b /\
                  (linkedBody a <> None -> linkedBody b <> None)
    end.

(** An operation that leaves the registry as it is. *)
Definition keepsRegistry {A} (c : M A) : Prop :=
  forall p a p', c p = Ret (a, p') -> jointsMap_ p' = jointsMap_ p.

(** An operation that leaves the body of the node [k] as it is. *)
Definition keepsLinked (k : string) {A} (c : M A) : Prop :=
  forall p a p',
    c p = Ret (a, p') ->
    option_map linkedBody (SMap.find k (jointsMap_ p'))
    = option_map linkedBody (SMap.find k (jointsMap_ p)).

(** A link with a mass under a revolute joint of axis z. *)
Module Heavy.
Definition link : UrdfLink :=
  mkLink "l1" (Some sampleInertial) None None (Some AxisZ.joint) [].
Definition baseLink : UrdfLink := bareLink "base_link" None [AxisZ.joint].
Definition model : ModelInterface :=
  mkModel "heavy"
    [("j1", Some AxisZ.joint)]
    [("base_link", Some baseLink); ("l1", Some link)]
    (Some baseLink).
End Heavy.

(** ** Evaluation of concrete runs *)

(** The runs on concrete graphs are evaluated without unfolding the
    arithmetic of the reals, nor the matrices built from it. *)
Tactic Notation "run" :=
  cbv -[mul poseToMatrix normalizeFrameOrientation rigidInverse rotateY PI
        Rplus Rmult Rminus Ropp Rdiv Rinv IZR].
Tactic Notation "run" "in" hyp(H) :=
  cbv -[mul poseToMatrix normalizeFrameOrientation rigidInverse rotateY PI
        Rplus Rmult Rminus Ropp Rdiv Rinv IZR] in H.

(** ** Frame normalizer *)

Lemma sqrt_9 : sqrt 9 = 3.
Proof. replace 9 with (3 * 3) by lra. apply sqrt_square. lra. Qed.

Lemma smallestComponent_eq (x : vector3d) :
  smallestComponent x =
  if Rlt_dec (Rabs (vy x)) (Rabs (vx x))
  then if Rlt_dec (Rabs (vz x)) (Rabs (vy x)) then 2%nat else 1%nat
  else if Rlt_dec (Rabs (vz x)) (Rabs (vx x)) then 2%nat else 0%nat.
Proof.
  unfold smallestComponent; cbn [fold_left vget].
  destruct (Rlt_dec (Rabs (vx x)) (Rabs (vx x))) as [H | _]; [lra |].
  cbn [vget].
  destruct (Rlt_dec (Rabs (vy x)) (Rabs (vx x))); reflexivity.
Qed.

Lemma smallestComponent_cases (x : vector3d) :
  smallestComponent x = 0%nat \/ smallestComponent x = 1%nat
  \/ smallestComponent x = 2%nat.
Proof.
  rewrite smallestComponent_eq.
  repeat match goal with
         | |- context [Rlt_dec ?a ?b] => destruct (Rlt_dec a b)
         end; auto.
Qed.

(** The component selected has the smallest magnitude. *)
Lemma smallestComponent_least (x : vector3d) (i : nat) :
  Rabs (vget x (smallestComponent x)) <= Rabs (vget x i).
Proof.
  rewrite smallestComponent_eq.
  destruct i as [| [| i]]; cbn [vget];
    repeat match goal with
           | |- context [Rlt_dec ?a ?b] => destruct (Rlt_dec a b)
           end; cbn [vget]; lra.
Qed.

(** What does hold of the result for every joint: the first column is the
    normalized axis and the three columns are pairwise orthogonal. *)
Lemma normalizeFrameOrientation_first_column (j : UrdfJoint) :
  col3 (rot3 (normalizeFrameOrientation (Some j))) 0 = normalize (axis j).
Proof.
  cbn [normalizeFrameOrientation rot3 col3 m00 m10 m20].
  destruct (normalize (axis j)); reflexivity.
Qed.

Lemma normalizeFrameOrientation_orthogonal (j : UrdfJoint) :
  let r := rot3 (normalizeFrameOrientation (Some j)) in
  dot (col3 r 0) (col3 r 1) = 0 /\ dot (col3 r 0) (col3 r 2) = 0
  /\ dot (col3 r 1) (col3 r 2) = 0.
Proof.
  simpl.
  destruct (smallestComponent_cases (normalize (axis j))) as [H | [H | H]];
    rewrite H; unfold dot, cross; simpl; repeat split; ring.
Qed.

Lemma normalize_unit (a : vector3d) :
  a <> mkV3 0 0 0 -> dot (normalize a) (normalize a) = 1.
Proof.
  intros Ha. destruct a as [x y z].
  assert (Hpos : 0 < x * x + y * y + z * z).
  { destruct (Req_dec x 0) as [-> | Hx];
      [destruct (Req_dec y 0) as [-> | Hy];
       [destruct (Req_dec z 0) as [-> | Hz]; [now elim Ha | nra] | nra]
      | nra]. }
  unfold normalize, norm, dot; simpl.
  assert (Hs : sqrt (x * x + y * y + z * z) * sqrt (x * x + y * y + z * z)
               = x * x + y * y + z * z) by (apply sqrt_sqrt; lra).
  assert (Hn : sqrt (x * x + y * y + z * z) <> 0).
  { intros E. rewrite E in Hs. lra. }
  field_simplify_eq; [nra | exact Hn].
Qed.

Lemma cross_lagrange (a b : vector3d) :
  dot (cross a b) (cross a b) = dot a a * dot b b - dot a b * dot a b.
Proof. destruct a, b; unfold dot, cross; simpl; ring. Qed.

Lemma cross_orthogonal (a b : vector3d) : dot (cross a b) a = 0.
Proof. destruct a, b; unfold dot, cross; simpl; ring. Qed.

(** The lengths of the three columns, for every joint of non-zero axis:
    the first is of unit length; the squared length of the other two is
    one minus the square of the smallest component of the normalized
    axis, so they are of unit length only when that component is zero. *)
Lemma normalizeFrameOrientation_column_lengths (j : UrdfJoint) :
  axis j <> mkV3 0 0 0 ->
  let x := normalize (axis j) in
  let r := rot3 (normalizeFrameOrientation (Some j)) in
  let xk := vget x (smallestComponent x) in
  dot (col3 r 0) (col3 r 0) = 1 /\
  dot (col3 r 1) (col3 r 1) = 1 - xk * xk /\
  dot (col3 r 2) (col3 r 2) = 1 - xk * xk.
Proof.
  intros Ha x r xk.
  pose proof (normalize_unit (axis j) Ha) as Hx. fold x in Hx.
  set (y0 := vset (mkV3 0 0 0) (smallestComponent x) 1).
  assert (E0 : col3 r 0 = x) by apply normalizeFrameOrientation_first_column.
  assert (E2 : col3 r 2 = cross x y0) by reflexivity.
  assert (E1 : col3 r 1 = cross (cross x y0) x) by reflexivity.
  assert (Hy : dot y0 y0 = 1 /\ dot x y0 = xk).
  { unfold y0, xk.
    destruct (smallestComponent_cases x) as [H | [H | H]]; rewrite H;
      unfold dot, vset, vget; simpl; split; ring. }
  destruct Hy as [Hy Hxy].
  assert (H2 : dot (cross x y0) (cross x y0) = 1 - xk * xk).
  { rewrite cross_lagrange, Hx, Hy, Hxy. ring. }
  rewrite E0, E1, E2. repeat split; [exact Hx | | exact H2].
  rewrite cross_lagrange, Hx, H2, cross_orthogonal. ring.
Qed.

Lemma norm_122 : norm (mkV3 1 2 2) = 3.
Proof.
  unfold norm, dot; simpl.
  replace (1 * 1 + 2 * 2 + 2 * 2) with 9 by lra. apply sqrt_9.
Qed.

Lemma smallestComponent_122 :
  smallestComponent (normalize (mkV3 1 2 2)) = 0%nat.
Proof.
  rewrite smallestComponent_eq. unfold normalize. rewrite norm_122. simpl.
  rewrite !Rabs_pos_eq by lra.
  destruct (Rlt_dec (2 / 3) (1 / 3)); [lra |].
  destruct (Rlt_dec (2 / 3) (1 / 3)); [lra | reflexivity].
Qed.

(** C1. For the axis (1, 2, 2), [normalizeFrameOrientation] returns the
    columns (1/3, 2/3, 2/3), (8/9, -2/9, -2/9) and (0, 2/3, -2/3): the
    first is the normalized axis, but the second and the third have
    squared length 8/9, so they are not of unit length and the matrix is
    not orthonormal. *)
Theorem normalizeFrameOrientation_122_not_unit :
  let r := rot3 (normalizeFrameOrientation (Some joint122)) in
  col3 r 0 = mkV3 (1 / 3) (2 / 3) (2 / 3) /\
  col3 r 1 = mkV3 (8 / 9) (- 2 / 9) (- 2 / 9) /\
  col3 r 2 = mkV3 0 (2 / 3) (- 2 / 3) /\
  dot (col3 r 1) (col3 r 1) = 8 / 9 /\
  dot (col3 r 2) (col3 r 2) = 8 / 9 /\
  ~ orthonormal r.
Proof.
  cbv zeta. unfold normalizeFrameOrientation, joint122, jointOf, axis.
  rewrite smallestComponent_122. unfold normalize. rewrite norm_122.
  unfold rot3, col3, cross, dot, vset; simpl.
  repeat split; try (f_equal; lra); try lra.
  unfold orthonormal. intros E. apply (f_equal a22) in E.
  unfold mul3, transpose3, identity3 in E; simpl in E. lra.
Qed.
(** ** Pose resolver *)

(** Two 4x4 matrices are equal when their entries are. *)
Lemma mkM4_eq (a00 a01 a02 a03 a10 a11 a12 a13 a20 a21 a22 a23 a30 a31 a32 a33
    b00 b01 b02 b03 b10 b11 b12 b13 b20 b21 b22 b23 b30 b31 b32 b33 : R) :
  a00 = b00 -> a01 = b01 -> a02 = b02 -> a03 = b03 ->
  a10 = b10 -> a11 = b11 -> a12 = b12 -> a13 = b13 ->
  a20 = b20 -> a21 = b21 -> a22 = b22 -> a23 = b23 ->
  a30 = b30 -> a31 = b31 -> a32 = b32 -> a33 = b33 ->
  mkM4 a00 a01 a02 a03 a10 a11 a12 a13 a20 a21 a22 a23 a30 a31 a32 a33
  = mkM4 b00 b01 b02 b03 b10 b11 b12 b13 b20 b21 b22 b23 b30 b31 b32 b33.
Proof. intros; subst; reflexivity. Qed.

Lemma mul_identity_l (m : CkitMat4) : mul identity m = m.
Proof. destruct m; unfold mul, identity; simpl; apply mkM4_eq; ring. Qed.

Lemma mul_identity_r (m : CkitMat4) : mul m identity = m.
Proof. destruct m; unfold mul, identity; simpl; apply mkM4_eq; ring. Qed.

Lemma mul_assoc (a b c : CkitMat4) : mul (mul a b) c = mul a (mul b c).
Proof. destruct a, b, c; unfold mul; simpl; apply mkM4_eq; ring. Qed.

(** The matrix of a pose without rotation. *)
Lemma poseToMatrix_translation (x y z : R) :
  poseToMatrix (translation x y z)
  = mkM4 1 0 0 x
         0 1 0 y
         0 0 1 z
         0 0 0 1.
Proof. unfold poseToMatrix, btMatrix3x3; simpl. apply mkM4_eq; field. Qed.

(** One step of the walk towards the root: when the current joint is not
    the reference and its parent link has a parent joint. *)
Lemma getPoseInReferenceFrame_step
    (fuel : nat) (p : Parser) (reference current : string)
    (joint parentJoint : UrdfJoint) (parentLink : UrdfLink) :
  reference <> current ->
  getJoint (model_ p) current = Some joint ->
  getLink (model_ p) (parent_link_name joint) = Some parentLink ->
  parent_joint parentLink = Some parentJoint ->
  getPoseInReferenceFrame (S fuel) reference current p
  = bind (getPoseInReferenceFrame fuel reference (jname parentJoint))
         (fun t => ret (mul t (poseToMatrix
                                 (parent_to_joint_origin_transform joint))))
         p.
Proof.
  intros Hne Hj Hl Hp. apply String.eqb_neq in Hne.
  cbn [getPoseInReferenceFrame]. unfold bind at 1, getParser.
  rewrite Hne, Hj, Hl, Hp. reflexivity.
Qed.

(** C7. For every joint [J] of the input graph, whatever the rest of the
    graph and of the parser state, resolving [J] in the frame of [J]
    returns the matrix of the parent-to-joint-origin transform of [J], and
    leaves the parser as it was. *)
Theorem getPoseInReferenceFrame_self
    (fuel : nat) (p : Parser) (J : string) (j : UrdfJoint) :
  getJoint (model_ p) J = Some j ->
  getPoseInReferenceFrame (S fuel) J J p
  = Ret (poseToMatrix (parent_to_joint_origin_transform j), p).
Proof.
  intros Hj. cbn [getPoseInReferenceFrame]. unfold bind, getParser.
  rewrite String.eqb_refl, Hj. reflexivity.
Qed.

Lemma getPoseInReferenceFrame_self_witness :
  getPoseInReferenceFrame 1 "B" "B" Chain.parser
  = Ret (poseToMatrix (translation 0 1 0), Chain.parser).
Proof.
  apply (getPoseInReferenceFrame_self 0 Chain.parser "B" Chain.B).
  reflexivity.
Defined.

(** C2, as the code has it. On a chain A -> B -> C (B the parent joint of
    the parent link of C, A different from C, B different from C) on which
    resolving B in the frame of A returns [P]: resolving C in the frame of
    A returns [P * M_C], and resolving C in the frame of B returns
    [M_B * M_C], where [M_B] and [M_C] are the matrices of the own
    transforms of B and C.  So the composition of the two results equals
    the direct result when [M_B] is the identity. *)
Theorem getPoseInReferenceFrame_through
    (fuel : nat) (p p' : Parser) (A B C : string)
    (jb jc parentJoint : UrdfJoint) (parentLink : UrdfLink) (P : CkitMat4) :
  A <> C -> B <> C ->
  getJoint (model_ p) B = Some jb ->
  getJoint (model_ p) C = Some jc ->
  getLink (model_ p) (parent_link_name jc) = Some parentLink ->
  parent_joint parentLink = Some parentJoint ->
  jname parentJoint = B ->
  getPoseInReferenceFrame fuel A B p = Ret (P, p') ->
  let M_B := poseToMatrix (parent_to_joint_origin_transform jb) in
  let M_C := poseToMatrix (parent_to_joint_origin_transform jc) in
  getPoseInReferenceFrame (S fuel) A C p = Ret (mul P M_C, p') /\
  (forall n, getPoseInReferenceFrame (S (S n)) B C p
             = Ret (mul M_B M_C, p)) /\
  (M_B = identity -> mul P (mul M_B M_C) = mul P M_C).
Proof.
  intros HAC HBC Hb Hc Hl Hp Hn HAB M_B M_C. repeat split.
  - rewrite (getPoseInReferenceFrame_step fuel p A C jc parentJoint parentLink)
      by assumption.
    unfold bind. rewrite Hn, HAB. reflexivity.
  - intros n.
    rewrite (getPoseInReferenceFrame_step (S n) p B C jc parentJoint
               parentLink) by assumption.
    unfold bind. rewrite Hn.
    cbn [getPoseInReferenceFrame]. unfold bind, getParser.
    rewrite String.eqb_refl, Hb. reflexivity.
  - intros E. rewrite E, mul_identity_l. reflexivity.
Qed.

Lemma getPoseInReferenceFrame_through_witness :
  getPoseInReferenceFrame 3 "A" "C" Chain.parser
  = Ret (mul (mul (poseToMatrix (translation 1 0 0))
                  (poseToMatrix (translation 0 1 0)))
             (poseToMatrix (translation 0 0 1)), Chain.parser).
Proof.
  apply (getPoseInReferenceFrame_through 2 Chain.parser Chain.parser
           "A" "B" "C" Chain.B Chain.C Chain.B Chain.L2);
    try reflexivity; discriminate.
Defined.

(** On the chain A -> B -> C whose joints are translations along x, y and
    z, the composition of the results through B is not the direct result:
    the translation of B is counted twice. *)
Lemma getPoseInReferenceFrame_composition_fails :
  exists AB BC AC : CkitMat4,
    getPoseInReferenceFrame 3 "A" "B" Chain.parser = Ret (AB, Chain.parser) /\
    getPoseInReferenceFrame 3 "B" "C" Chain.parser = Ret (BC, Chain.parser) /\
    getPoseInReferenceFrame 3 "A" "C" Chain.parser = Ret (AC, Chain.parser) /\
    trans3 AC = mkV3 1 1 1 /\
    trans3 (mul AB BC) = mkV3 1 2 1 /\
    mul AB BC <> AC.
Proof.
  pose (MA := poseToMatrix (translation 1 0 0)).
  pose (MB := poseToMatrix (translation 0 1 0)).
  pose (MC := poseToMatrix (translation 0 0 1)).
  exists (mul MA MB), (mul MB MC), (mul (mul MA MB) MC).
  split; [run; reflexivity |].
  split; [run; reflexivity |].
  split; [run; reflexivity |].
  unfold MA, MB, MC. rewrite !poseToMatrix_translation.
  unfold trans3, mul; simpl. repeat split.
  - f_equal; ring.
  - f_equal; ring.
  - intros E. apply (f_equal m13) in E. simpl in E. lra.
Qed.

(** ** Joint factory *)

Lemma find_insert_same {V} (k : string) (v : V) (m : SMap.t V) :
  SMap.find k (SMap.insert k v m) = Some v.
Proof.
  induction m as [| [k' v'] m IH]; simpl.
  - now rewrite String.eqb_refl.
  - destruct (String.eqb k k') eqn:E; simpl.
    + now rewrite String.eqb_refl.
    + destruct (String.ltb k k'); simpl.
      * now rewrite String.eqb_refl.
      * now rewrite E.
Qed.

Lemma find_insert_other {V} (k k0 : string) (v : V) (m : SMap.t V) :
  k0 <> k -> SMap.find k0 (SMap.insert k v m) = SMap.find k0 m.
Proof.
  intros Hne. apply String.eqb_neq in Hne.
  induction m as [| [k' v'] m IH]; simpl.
  - now rewrite Hne.
  - destruct (String.eqb k k') eqn:E; simpl.
    + apply String.eqb_eq in E; subst k'. now rewrite Hne.
    + destruct (String.ltb k k'); simpl.
      * now rewrite Hne.
      * destruct (String.eqb k0 k'); [reflexivity | exact IH].
Qed.

(** An entry found under a key is an entry of the map. *)
Lemma find_In {V} (k : string) (v : V) (m : SMap.t V) :
  SMap.find k m = Some v -> In (k, v) m.
Proof.
  induction m as [| [k' v'] m IH]; simpl; [discriminate |].
  destruct (String.eqb k k') eqn:E.
  - apply String.eqb_eq in E; subst k'. intros [= ->]. now left.
  - intros H. right. auto.
Qed.

Lemma rejected_duplicate (p : Parser) (n msg : string) (first : Joint)
    (create : Joint) :
  SMap.find n (jointsMap_ p) = Some first ->
  rejected
    (p0 <- getParser ;;
     match SMap.find n (jointsMap_ p0) with
     | Some _ => hppDout error msg ;; ret None
     | None => register n create
     end) p.
Proof.
  intros H. exists msg. eexists.
  unfold bind, getParser. rewrite H. cbn. repeat split.
Qed.

(** C6. When the name is already a key of the registry, each of the five
    creations returns the null pointer, prints an error and leaves the
    registry as it was: the node registered first is still the one found
    under the name. *)
Theorem create_duplicate_rejected
    (p : Parser) (n : string) (mat : CkitMat4) (lim : option JointLimits)
    (first : Joint) :
  SMap.find n (jointsMap_ p) = Some first ->
  rejected (createFreeflyerJoint n mat) p /\
  rejected (createRotationJoint n mat lim) p /\
  rejected (createContinuousJoint n mat) p /\
  rejected (createTranslationJoint n mat lim) p /\
  rejected (createAnchorJoint n mat) p.
Proof.
  intros H. repeat split; eapply rejected_duplicate; exact H.
Qed.

Lemma create_duplicate_rejected_witness :
  rejected (createRotationJoint "j1" identity None)
           (set_jointsMap_ [("j1", createNode AnchorJoint "j1" identity)]
                           newParser).
Proof.
  apply (create_duplicate_rejected
           (set_jointsMap_ [("j1", createNode AnchorJoint "j1" identity)]
                           newParser)
           "j1" identity None (createNode AnchorJoint "j1" identity)).
  reflexivity.
Defined.

(** ** Body and inertia attacher *)

Lemma det3_mul3 (a b : matrix3d) : det3 (mul3 a b) = det3 a * det3 b.
Proof. destruct a, b; unfold det3, mul3; simpl; ring. Qed.

Lemma det3_identity3 : det3 identity3 = 1.
Proof. unfold det3, identity3; simpl; ring. Qed.

(** The entries of a product [a * x * r] shifted by [l], when [a * r] is
    the identity: the shift goes inside. *)
Lemma shift3_conjugate (a x r : matrix3d) (l : R) :
  mul3 a r = identity3 ->
  shift3 (mul3 (mul3 a x) r) l = mul3 (mul3 a (shift3 x l)) r.
Proof.
  intros H.
  assert (E : forall f : matrix3d -> R, f (mul3 a r) = f identity3)
    by (intros f; now rewrite H).
  pose proof (E a00) as E00. pose proof (E a01) as E01.
  pose proof (E a02) as E02. pose proof (E a10) as E10.
  pose proof (E a11) as E11. pose proof (E a12) as E12.
  pose proof (E a20) as E20. pose proof (E a21) as E21.
  pose proof (E a22) as E22. clear E H.
  destruct a, x, r; unfold shift3, mul3, identity3 in *; simpl in *.
  apply (f_equal (Rmult l)) in E00, E01, E02, E10, E11, E12, E20, E21, E22.
  f_equal; lra.
Qed.

(** The 3x3 block that [reexpressInertia] returns is the product of the
    3x3 blocks, when the normalized transform is the embedding of a 3x3
    matrix. *)
Lemma reexpressInertia_blocks (inverse : CkitMat4 -> CkitMat4)
    (r inertiaMatrix : matrix3d) :
  reexpressInertia inverse (embed3 r) inertiaMatrix
  = mul3 (mul3 (rot3 (inverse (embed3 r))) inertiaMatrix) r.
Proof.
  unfold reexpressInertia. destruct (inverse (embed3 r)), r, inertiaMatrix.
  unfold rot3, mul, mul3, embed3; simpl. f_equal; ring.
Qed.

Lemma left_inverse_blocks (x : CkitMat4) (r : matrix3d) :
  mul x (embed3 r) = identity -> mul3 (rot3 x) r = identity3.
Proof.
  intros H.
  assert (E : forall f : CkitMat4 -> R, f (mul x (embed3 r)) = f identity)
    by (intros f; now rewrite H).
  pose proof (E m00) as E00. pose proof (E m01) as E01.
  pose proof (E m02) as E02. pose proof (E m10) as E10.
  pose proof (E m11) as E11. pose proof (E m12) as E12.
  pose proof (E m20) as E20. pose proof (E m21) as E21.
  pose proof (E m22) as E22. clear E H.
  destruct x, r; unfold rot3, mul, mul3, embed3, identity, identity3 in *;
    simpl in *.
  f_equal; lra.
Qed.

(** The normalized transform that the attacher uses is the embedding of
    its 3x3 block. *)
Lemma normalizeFrameOrientation_embed3 (urdfJoint : option UrdfJoint) :
  normalizeFrameOrientation urdfJoint
  = embed3 (rot3 (normalizeFrameOrientation urdfJoint)).
Proof. destruct urdfJoint; reflexivity. Qed.

(** The similarity transform of the attacher.  Let [r] be a 3x3 matrix
    and [inverse] return a left inverse of its 4x4 embedding (for an
    orthonormal [r], the transpose).  Then [inverse (R) * I * R] has the
    characteristic polynomial of [I], hence the same eigenvalues. *)
Theorem reexpressInertia_eigenvalues (inverse : CkitMat4 -> CkitMat4)
    (r inertiaMatrix : matrix3d) :
  mul (inverse (embed3 r)) (embed3 r) = identity ->
  (forall l, charpoly (reexpressInertia inverse (embed3 r) inertiaMatrix) l
             = charpoly inertiaMatrix l) /\
  (forall l, eigenvalue (reexpressInertia inverse (embed3 r) inertiaMatrix) l
             <-> eigenvalue inertiaMatrix l).
Proof.
  intros H. apply left_inverse_blocks in H.
  assert (C : forall l,
             charpoly (reexpressInertia inverse (embed3 r) inertiaMatrix) l
             = charpoly inertiaMatrix l).
  { intros l. unfold charpoly.
    rewrite reexpressInertia_blocks, (shift3_conjugate _ _ _ l H).
    rewrite !det3_mul3.
    replace (det3 (rot3 (inverse (embed3 r))) * det3 (shift3 inertiaMatrix l)
             * det3 r)
      with (det3 (shift3 inertiaMatrix l)
            * (det3 (rot3 (inverse (embed3 r))) * det3 r)) by ring.
    rewrite <- det3_mul3, H, det3_identity3. ring. }
  split; [exact C |].
  intros l. unfold eigenvalue. now rewrite C.
Qed.

(** For an orthonormal rotation, the inverse of a rigid transformation is
    a left inverse. *)
Lemma rigidInverse_orthonormal (r : matrix3d) :
  orthonormal r -> mul (rigidInverse (embed3 r)) (embed3 r) = identity.
Proof.
  unfold orthonormal. intros H.
  assert (E : forall f : matrix3d -> R,
             f (mul3 (transpose3 r) r) = f identity3)
    by (intros f; now rewrite H).
  pose proof (E a00) as E00. pose proof (E a01) as E01.
  pose proof (E a02) as E02. pose proof (E a10) as E10.
  pose proof (E a11) as E11. pose proof (E a12) as E12.
  pose proof (E a20) as E20. pose proof (E a21) as E21.
  pose proof (E a22) as E22. clear E H.
  destruct r; unfold rigidInverse, mul, mul3, transpose3, embed3, identity,
    identity3 in *; simpl in *.
  apply mkM4_eq; lra.
Qed.

Lemma quarterTurnZ_orthonormal : orthonormal quarterTurnZ.
Proof.
  unfold orthonormal, quarterTurnZ, mul3, transpose3, identity3; simpl.
  f_equal; ring.
Qed.

Lemma reexpressInertia_eigenvalues_witness :
  eigenvalue (reexpressInertia rigidInverse (embed3 quarterTurnZ)
                               (inertiaOf sampleInertial)) 5
  <-> eigenvalue (inertiaOf sampleInertial) 5.
Proof.
  apply (reexpressInertia_eigenvalues rigidInverse quarterTurnZ
           (inertiaOf sampleInertial)).
  apply rigidInverse_orthonormal, quarterTurnZ_orthonormal.
Defined.

(** 5 is an eigenvalue of the sample inertia. *)
Lemma sampleInertial_eigenvalue : eigenvalue (inertiaOf sampleInertial) 5.
Proof. unfold eigenvalue, charpoly, det3, shift3; simpl; ring. Qed.

(** ** Anatomy resolver *)

(** [fillGaze] is undefined when no node is registered under the name of
    the gaze joint. *)
Lemma fillGaze_missing (p : Parser) :
  SMap.find (gazeJointName_ p) (jointsMap_ p) = None ->
  fillGaze p = Undefined.
Proof. intros H. unfold fillGaze, bind, getParser. now rewrite H. Qed.

(** When the gaze joint is there and the other roles are not, the build
    returns a robot: each missing role is left unset and a notice is
    printed for it. *)
Lemma build_gaze_only :
  exists r p,
    build 3 GazeOnly.model = Ret (Some r, p) /\
    robotCalls r
    = [setRootJoint "base_joint"; waist "base_joint"; gazeJoint "gaze_joint";
       initialize; setActuatedJoints []; gazeJoint "gaze_joint";
       gaze (mkV3 1 0 0) (mkV3 0 0 0); steeringMethodComponent] /\
    log_ p
    = [(notice, "No chest joint found");
       (notice, "No left wrist joint found");
       (notice, "No right wrist joint found");
       (notice, "No left ankle joint found");
       (notice, "No right ankle joint found");
       (notice, "missing inertial information in link base_link");
       (notice, "missing inertial information in link gaze");
       (notice, "Could not set left hand");
       (notice, "Could not set right hand");
       (notice, "Could not set left foot");
       (notice, "Could not set right foot")].
Proof.
  do 2 eexists. split; [run; reflexivity |].
  split; run; reflexivity.
Qed.

(** C8. On a document that has the root link only, hence no gaze link, the
    build does not complete: after [setSpecialJoints] has printed its
    notices, [fillGaze] reads the entry of the gaze joint in the registry,
    which is the end iterator. *)
Theorem build_without_gaze_undefined :
  forall fuel, build (S (S fuel)) Bare.model = Undefined.
Proof. intros fuel. run. reflexivity. Qed.

(** ** Tree assembler *)

Lemma bind_Ret_inv {A B} (c : M A) (k : A -> M B) (p p' : Parser) (b : B) :
  bind c k p = Ret (b, p') ->
  exists a q, c p = Ret (a, q) /\ k a q = Ret (b, p').
Proof.
  unfold bind. destruct (c p) as [[a q] | | |]; try discriminate. eauto.
Qed.

Lemma count_positive {V} (k : string) (m : SMap.t V) :
  (0 <? SMap.count k m)%nat = true -> SMap.find k m <> None.
Proof.
  unfold SMap.count. destruct (SMap.find k m); [discriminate |].
  cbn. discriminate.
Qed.

(** The names that the loop of [getChildrenJoint] adds to [result] are
    keys of the registry, when this holds of the recursive call. *)
Lemma getChildrenJointLoop_registered
    (recurse : string -> list string -> M (bool * list string)) :
  (forall n result p r p',
      recurse n result p = Ret (r, p') ->
      jointsMap_ p' = jointsMap_ p /\
      forall c, In c (snd r) ->
                In c result \/ SMap.find c (jointsMap_ p) <> None) ->
  forall children result p r p',
    getChildrenJointLoop recurse children result p = Ret (r, p') ->
    jointsMap_ p' = jointsMap_ p /\
    forall c, In c (snd r) ->
              In c result \/ SMap.find c (jointsMap_ p) <> None.
Proof.
  intros Hrec children.
  induction children as [| joint rest IH]; intros result p r p' H.
  - cbn in H. injection H as <- <-. auto.
  - cbn [getChildrenJointLoop] in H. unfold bind at 1, getParser in H.
    destruct (0 <? SMap.count (jname joint) (jointsMap_ p))%nat eqn:E.
    + apply IH in H. destruct H as [Hm Hc]. split; [exact Hm |].
      intros c Hin. destruct (Hc c Hin) as [Hr | Hr]; [| now right].
      apply in_app_or in Hr. destruct Hr as [Hr | [<- | []]]; [now left |].
      right. now apply count_positive.
    + apply bind_Ret_inv in H. destruct H as (r0 & q & H0 & H).
      apply Hrec in H0. destruct H0 as [Hq Hc0].
      destruct (fst r0).
      * apply IH in H. destruct H as [Hm Hc]. split; [congruence |].
        intros c Hin. destruct (Hc c Hin) as [Hr | Hr]; [auto |].
        right. now rewrite <- Hq.
      * unfold bind, hppDout, modify, ret in H. injection H as <- <-.
        auto.
Qed.

Lemma getChildrenJointInto_registered (fuel : nat) :
  forall n result p r p',
    getChildrenJointInto fuel n result p = Ret (r, p') ->
    jointsMap_ p' = jointsMap_ p /\
    forall c, In c (snd r) ->
              In c result \/ SMap.find c (jointsMap_ p) <> None.
Proof.
  induction fuel as [| fuel IH]; intros n result p r p' H; [discriminate |].
  cbn [getChildrenJointInto] in H. unfold bind at 1, getParser in H.
  destruct (getJoint (model_ p) n) as [j |] eqn:Ej;
    destruct (n =? "base_joint") eqn:En;
    try (destruct (getLink (model_ p) _) as [l |];
         [ now apply (getChildrenJointLoop_registered _ IH) in H
         | unfold bind, hppDout, modify, undefined in H; discriminate ]).
  unfold bind, hppDout, modify, ret in H. injection H as <- <-. auto.
Qed.

Lemma connectJointsLoop_true (recurse : option string -> M bool)
    (rootJoint : option string) :
  forall children p b p',
    connectJointsLoop recurse rootJoint children p = Ret (b, p') -> b = true.
Proof.
  induction children as [| c rest IH]; intros p b p' H.
  - cbn in H. now injection H as <- _.
  - cbn [connectJointsLoop] in H. unfold bind at 1, getParser in H.
    destruct (SMap.find c (jointsMap_ p)); [| discriminate].
    apply bind_Ret_inv in H. destruct H as (? & q & _ & H).
    apply bind_Ret_inv in H. destruct H as (? & q' & _ & H).
    now apply IH in H.
Qed.

(** Every name that [getChildrenJoint] returns is a key of the registry,
    so the test of [connectJoints] for a child without node is never
    reached; and whenever [connectJoints] returns, it returns success. *)
Theorem connectJoints_never_fails
    (fuel : nat) (rootJoint : option string) (p : Parser) :
  (forall n children p',
      getChildrenJoint fuel n p = Ret (children, p') ->
      forall c, In c children -> SMap.find c (jointsMap_ p') <> None) /\
  (forall b p', connectJoints fuel rootJoint p = Ret (b, p') -> b = true).
Proof.
  split.
  - intros n children p' H c Hin. unfold getChildrenJoint in H.
    apply bind_Ret_inv in H. destruct H as (r & q & H & Hr).
    injection Hr as <- <-.
    apply getChildrenJointInto_registered in H. destruct H as [Hm Hc].
    rewrite Hm. destruct (Hc c Hin) as [[] | Hr]. exact Hr.
  - intros b p' H. destruct fuel as [| fuel]; [discriminate |].
    cbn [connectJoints] in H.
    apply bind_Ret_inv in H. destruct H as (j & q & _ & H).
    apply bind_Ret_inv in H. destruct H as (children & q' & _ & H).
    now apply connectJointsLoop_true in H.
Qed.

Lemma connectJoints_never_fails_witness :
  exists b p',
    connectJoints 3 (Some "base_joint") (afterParseJoints 3 GazeOnly.model)
    = Ret (b, p') /\ b = true.
Proof.
  do 2 eexists. split; [run; reflexivity |].
  eapply (connectJoints_never_fails 3 (Some "base_joint")
            (afterParseJoints 3 GazeOnly.model)).
  run; reflexivity.
Defined.

(** If the list of children held a name without node, the loop of
    [connectJoints] would not return failure: its test reads the entry
    behind the end iterator. *)
Lemma connectJointsLoop_missing_child :
  SMap.find "ghost" (jointsMap_ (afterParseJoints 3 GazeOnly.model)) = None /\
  forall recurse,
    connectJointsLoop recurse (Some "base_joint") ["ghost"]
                      (afterParseJoints 3 GazeOnly.model)
    = Undefined.
Proof.
  split; [run; reflexivity | intros recurse; run; reflexivity].
Qed.

(** ** Geometry attachment resolver *)

(** The geometry of a link whose visual and collision geometries are
    meshes of different files is refused: [addSolidComponentToJoint]
    returns failure and only prints an error. *)
Lemma addSolidComponentToJoint_mismatch
    (inverse : CkitMat4 -> CkitMat4)
    (loadPolyhedronFromResource : string -> vector3d -> bool)
    (getCapsule : R -> R -> vector3d * vector3d)
    (link : UrdfLink) (joint : option string) (p : Parser)
    (v : Visual) (c : Collision) (f1 f2 : string) (s1 s2 : vector3d) :
  visual link = Some v -> collision link = Some c ->
  visual_geometry v = MESH f1 s1 -> collision_geometry c = MESH f2 s2 ->
  f1 <> f2 ->
  addSolidComponentToJoint inverse loadPolyhedronFromResource getCapsule
                           link joint p
  = Ret (false,
         set_log_
           (log_ p ++
            [(error,
              ("Unhandled:visual and collision meshes not the same for "
                 ++ lname link)%string)])%list p).
Proof.
  intros Hv Hc Hgv Hgc Hne. apply String.eqb_neq in Hne.
  unfold addSolidComponentToJoint. rewrite Hv, Hc, Hgv, Hgc, Hne.
  reflexivity.
Qed.

(** The body of a link is computed, with at most a notice printed, when
    the link has a parent joint. *)
Lemma bodyOfLink_returns (inverse : CkitMat4 -> CkitMat4)
    (first childLinkName : string) (link : UrdfLink) (parent : UrdfJoint)
    (p : Parser) :
  parent_joint link = Some parent ->
  exists b msgs,
    bodyOfLink inverse first childLinkName link p
    = Ret (b, set_log_ (log_ p ++ msgs)%list p).
Proof.
  intros Hp. unfold bodyOfLink. rewrite Hp.
  destruct (inertial link) as [i |].
  - destruct (first =? "base_joint"); [| destruct (isActuatedType _)];
      eexists; exists []; unfold ret; rewrite app_nil_r;
      destruct p; reflexivity.
  - eexists; eexists. reflexivity.
Qed.

(** The turn of the loop of [addBodiesToJoints] at a link whose visual
    and collision geometries are meshes of different files: geometry
    attachment fails and leaves the registry as it was; and when the
    joint of that link is the next key, the loop returns failure, the
    nodes of all the other keys are as they were (those that follow
    receive no body), and the error is printed. *)
Theorem mesh_mismatch_aborts
    (inverse : CkitMat4 -> CkitMat4)
    (loadPolyhedronFromResource : string -> vector3d -> bool)
    (getCapsule : R -> R -> vector3d * vector3d)
    (p : Parser) (first : string) (rest : list string)
    (j parent : UrdfJoint) (link : UrdfLink) (node : Joint)
    (v : Visual) (c : Collision) (f1 f2 : string) (s1 s2 : vector3d) :
  first <> "base_joint" ->
  getJoint (model_ p) first = Some j ->
  getLink (model_ p) (child_link_name j) = Some link ->
  parent_joint link = Some parent ->
  SMap.find first (jointsMap_ p) = Some node ->
  visual link = Some v -> collision link = Some c ->
  visual_geometry v = MESH f1 s1 -> collision_geometry c = MESH f2 s2 ->
  f1 <> f2 ->
  (exists p1,
      addSolidComponentToJoint inverse loadPolyhedronFromResource getCapsule
                               link (Some first) p = Ret (false, p1) /\
      jointsMap_ p1 = jointsMap_ p) /\
  (exists p',
      addBodiesLoop inverse loadPolyhedronFromResource getCapsule
                    (first :: rest) p = Ret (false, p') /\
      (forall k, k <> first ->
                 SMap.find k (jointsMap_ p') = SMap.find k (jointsMap_ p)) /\
      (exists b, SMap.find first (jointsMap_ p')
                 = Some (setLinkedBody b node)) /\
      In (error, "Could not add solid component to joint.") (log_ p')).
Proof.
  intros Hb Hj Hl Hp Hn Hv Hc Hgv Hgc Hne. split.
  - eexists. split.
    + eapply addSolidComponentToJoint_mismatch; eassumption.
    + reflexivity.
  - apply String.eqb_neq in Hb.
    cbn [addBodiesLoop]. unfold bind at 1, getParser.
    rewrite Hj, Hb, Hl.
    destruct (bodyOfLink_returns inverse first (child_link_name j) link
                parent p Hp) as (b & msgs & Hbody).
    unfold bind at 1. rewrite Hbody.
    unfold bind at 1, onJoint. cbn [jointsMap_ set_log_]. rewrite Hn.
    rewrite Hv, Hc. unfold bind at 1.
    erewrite addSolidComponentToJoint_mismatch by eassumption.
    eexists. split; [reflexivity |]. cbn. repeat split.
    + intros k Hk. now apply find_insert_other.
    + exists b. apply find_insert_same.
    + apply in_or_app. right. now left.
Qed.

Lemma mesh_mismatch_aborts_witness :
  exists p',
    addBodiesLoop rigidInverse loadAlways capsuleAlongX ["ja"; "jb"]
                  (afterParseJoints 3 Meshes.model) = Ret (false, p').
Proof.
  assert (Hn : exists node,
             SMap.find "ja" (jointsMap_ (afterParseJoints 3 Meshes.model))
             = Some node) by (eexists; run; reflexivity).
  destruct Hn as [node Hn].
  destruct (mesh_mismatch_aborts rigidInverse loadAlways capsuleAlongX
              (afterParseJoints 3 Meshes.model) "ja" ["jb"]
              Meshes.ja Meshes.ja Meshes.la node
              (mkVisual (translation 0 0 0) (MESH "a.obj" (mkV3 1 1 1)))
              (mkCollision (translation 0 0 0) (MESH "b.obj" (mkV3 1 1 1)))
              "a.obj" "b.obj" (mkV3 1 1 1) (mkV3 1 1 1))
    as [_ (p' & H & _)];
    try exact Hn; try discriminate; try (run; reflexivity).
  exists p'. exact H.
Defined.

(** On the graph with the sibling links la (mismatched meshes) and lb, the
    failure on la is not local: the build returns no robot, and the joint
    of lb, whose link carries a mass, has received no body. *)
Lemma mesh_mismatch_aborts_siblings :
  exists p node,
    build 3 Meshes.model = Ret (None, p) /\
    SMap.find "jb" (jointsMap_ p) = Some node /\
    linkedBody node = None /\
    inertial Meshes.lb <> None.
Proof.
  do 2 eexists. split; [run; reflexivity |].
  split; [run; reflexivity |].
  split; [reflexivity | discriminate].
Qed.

(** ** The build: fatal errors *)

Lemma sameGraph_refl (m : ModelInterface) : sameGraph m m.
Proof. split; auto. Qed.

Lemma sameGraph_trans (a b c : ModelInterface) :
  sameGraph a b -> sameGraph b c -> sameGraph a c.
Proof.
  intros [J1 L1] [J2 L2]. split; [congruence |].
  intros n. now rewrite L2, L1.
Qed.

Lemma sameGraph_getJoint (m m' : ModelInterface) (n : string) :
  sameGraph m m' -> getJoint m' n = getJoint m n.
Proof. intros [J _]. unfold getJoint. now rewrite J. Qed.

(** Pose resolution reads the graph only; it returns the same pose in
    every parser whose graph is the same, and changes the log only. *)
Lemma getPoseInReferenceFrame_sameGraph (fuel : nat) :
  forall reference current p q t p',
    sameGraph (model_ p) (model_ q) ->
    getPoseInReferenceFrame fuel reference current p = Ret (t, p') ->
    exists msgs,
      getPoseInReferenceFrame fuel reference current q
      = Ret (t, set_log_ (log_ q ++ msgs)%list q).
Proof.
  induction fuel as [| fuel IH]; intros reference current p q t p' G H;
    [discriminate |].
  cbn [getPoseInReferenceFrame] in *. unfold bind at 1, getParser in H.
  unfold bind at 1, getParser.
  rewrite (sameGraph_getJoint _ _ current G).
  assert (Hnil : set_log_ (log_ q ++ [])%list q = q)
    by (rewrite app_nil_r; destruct q; reflexivity).
  destruct (reference =? current).
  - destruct (getJoint (model_ p) current); [| discriminate].
    injection H as <- _. exists []. unfold ret. now rewrite Hnil.
  - destruct (getJoint (model_ p) current) as [joint |].
    + rewrite (proj2 G).
      destruct (getLink (model_ p) (parent_link_name joint)) as [l |].
      * destruct (parent_joint l) as [pj |].
        -- apply bind_Ret_inv in H. destruct H as (t0 & p0 & H0 & H).
           injection H as <- _.
           destruct (IH reference (jname pj) p q t0 p0 G H0) as [msgs Hq].
           exists msgs. unfold bind. now rewrite Hq.
        -- injection H as <- _. exists []. unfold ret. now rewrite Hnil.
      * injection H as <- _. exists []. unfold ret. now rewrite Hnil.
    + unfold bind, hppDout, modify, ret in H. injection H as <- _.
      eexists. reflexivity.
Qed.

Lemma set_model_same (p : Parser) : set_model_ (model_ p) p = p.
Proof. destruct p; reflexivity. Qed.

(** [findSpecialJoint] returns, and changes the graph at most by a null
    entry of [links_]. *)
Lemma findSpecialJoint_returns (repName jointName : string) (p : Parser) :
  exists out m',
    findSpecialJoint repName jointName p = Ret (out, set_model_ m' p) /\
    sameGraph (model_ p) m'.
Proof.
  unfold findSpecialJoint, bind, getParser.
  destruct (SMap.find repName (links_ (model_ p))) as [[l |] |] eqn:E.
  - destruct (parent_joint l); eexists; exists (model_ p);
      rewrite set_model_same; (split; [reflexivity | apply sameGraph_refl]).
  - eexists; exists (model_ p); rewrite set_model_same.
    split; [reflexivity | apply sameGraph_refl].
  - do 2 eexists. split; [reflexivity |]. split; [reflexivity |].
    intros n. unfold getLink. cbn [links_].
    destruct (String.eqb_spec n repName) as [-> | Hne].
    + now rewrite find_insert_same, E.
    + now rewrite find_insert_other.
Qed.

Lemma findSpecialJoints_returns (p : Parser) :
  exists p',
    findSpecialJoints p = Ret (tt, p') /\
    sameGraph (model_ p) (model_ p') /\
    robot_ p' = robot_ p /\ jointsMap_ p' = jointsMap_ p.
Proof.
  unfold findSpecialJoints. unfold bind at 1, getParser.
  repeat match goal with
         | |- context [bind (findSpecialJoint ?r ?n) _ ?q] =>
             let out := fresh "out" in
             let m := fresh "m" in
             let H := fresh "H" in
             let G := fresh "G" in
             destruct (findSpecialJoint_returns r n q) as (out & m & H & G);
             unfold bind at 1; rewrite H; clear H; cbn [model_ set_model_] in *
         end.
  eexists. split; [reflexivity |]. cbn. repeat split; try reflexivity.
  all: repeat match goal with
         | H : sameGraph _ _ |- _ => destruct H as [? ?]
         end; congruence.
Qed.

(** A creation returns, and leaves the graph and the robot as they
    were. *)
Lemma creation_returns (n msg : string) (node : Joint) (p : Parser) :
  exists h p',
    (p0 <- getParser ;;
     match SMap.find n (jointsMap_ p0) with
     | Some _ => hppDout error msg ;; ret None
     | None => register n node
     end) p = Ret (h, p') /\
    model_ p' = model_ p /\ robot_ p' = robot_ p.
Proof.
  unfold bind at 1, getParser.
  destruct (SMap.find n (jointsMap_ p)); do 2 eexists;
    (split; [reflexivity | split; reflexivity]).
Qed.

Lemma createFreeflyerJoint_returns (n : string) (mat : CkitMat4) (p : Parser) :
  exists h p', createFreeflyerJoint n mat p = Ret (h, p') /\
               model_ p' = model_ p /\ robot_ p' = robot_ p.
Proof. apply creation_returns. Qed.

Lemma createRotationJoint_returns (n : string) (mat : CkitMat4)
    (lim : option JointLimits) (p : Parser) :
  exists h p', createRotationJoint n mat lim p = Ret (h, p') /\
               model_ p' = model_ p /\ robot_ p' = robot_ p.
Proof. apply creation_returns. Qed.

Lemma createContinuousJoint_returns (n : string) (mat : CkitMat4)
    (p : Parser) :
  exists h p', createContinuousJoint n mat p = Ret (h, p') /\
               model_ p' = model_ p /\ robot_ p' = robot_ p.
Proof. apply creation_returns. Qed.

Lemma createTranslationJoint_returns (n : string) (mat : CkitMat4)
    (lim : option JointLimits) (p : Parser) :
  exists h p', createTranslationJoint n mat lim p = Ret (h, p') /\
               model_ p' = model_ p /\ robot_ p' = robot_ p.
Proof. apply creation_returns. Qed.

Lemma createAnchorJoint_returns (n : string) (mat : CkitMat4) (p : Parser) :
  exists h p', createAnchorJoint n mat p = Ret (h, p') /\
               model_ p' = model_ p /\ robot_ p' = robot_ p.
Proof. apply creation_returns. Qed.

(** The creation at the head of the goal returns. *)
Ltac creation_step h p1 Hc Hm :=
  match goal with
  | |- context [bind (createRotationJoint ?a ?b ?c) _ ?s] =>
      destruct (createRotationJoint_returns a b c s) as (h & p1 & Hc & Hm & _)
  | |- context [bind (createContinuousJoint ?a ?b) _ ?s] =>
      destruct (createContinuousJoint_returns a b s) as (h & p1 & Hc & Hm & _)
  | |- context [bind (createTranslationJoint ?a ?b ?c) _ ?s] =>
      destruct (createTranslationJoint_returns a b c s)
        as (h & p1 & Hc & Hm & _)
  | |- context [bind (createFreeflyerJoint ?a ?b) _ ?s] =>
      destruct (createFreeflyerJoint_returns a b s) as (h & p1 & Hc & Hm & _)
  | |- context [bind (createAnchorJoint ?a ?b) _ ?s] =>
      destruct (createAnchorJoint_returns a b s) as (h & p1 & Hc & Hm & _)
  end;
  unfold bind at 1; rewrite Hc.

(** With a planar joint among the entries still to be visited, the loop
    of [parseJoints] returns failure. *)
Lemma parseJointsLoop_planar (fuel : nat) (m : ModelInterface) :
  wellFormedJoints m -> resolves fuel m ->
  forall its p,
    sameGraph m (model_ p) ->
    (forall kv, In kv its -> In kv (joints_ m)) ->
    (exists k j, In (k, Some j) its /\ type j = PLANAR) ->
    exists p', parseJointsLoop fuel its p = Ret (false, p').
Proof.
  intros Hwf Hres its.
  induction its as [| [first second] rest IH]; intros p G Hsub Hpl.
  - destruct Hpl as (k & j & [] & _).
  - destruct (Hwf first second (Hsub _ (or_introl eq_refl))) as [Hs Hg].
    destruct (Hres first second (Hsub _ (or_introl eq_refl)))
      as (t & p0 & Hpose).
    destruct (getPoseInReferenceFrame_sameGraph fuel _ first _ p t p0
                (G : sameGraph (model_ (set_model_ m newParser)) (model_ p))
                Hpose) as [msgs Hq].
    cbn [parseJointsLoop]. unfold bind at 1. rewrite Hq.
    unfold bind at 1, getParser. cbn [model_ set_log_].
    rewrite (sameGraph_getJoint _ _ first G).
    destruct (getJoint m first) as [joint |]; [| now elim Hg].
    destruct second as [second |]; [| now elim Hs].
    set (q := set_log_ (log_ p ++ msgs)%list p).
    assert (Hrest : type second <> PLANAR ->
                    exists k j, In (k, Some j) rest /\ type j = PLANAR).
    { intros Hn. destruct Hpl as (k & j & [E | Hin] & Hj).
      - injection E as <- <-. contradiction.
      - eauto. }
    assert (Hnext : forall p1, model_ p1 = model_ q -> type second <> PLANAR ->
                    exists p', parseJointsLoop fuel rest p1 = Ret (false, p')).
    { intros p1 E Hn. apply IH.
      - now rewrite E.
      - intros kv Hin. apply Hsub. now right.
      - now apply Hrest. }
    destruct (type second) eqn:Et;
      try (eexists; reflexivity);
      (let h := fresh "h" in
       let p1 := fresh "p1" in
       let Hc := fresh "Hc" in
       let Hm := fresh "Hm" in
       creation_step h p1 Hc Hm;
       apply Hnext; [exact Hm | discriminate]).
Qed.

(** A document that the decoder rejects gives no robot. *)
Lemma parseStream_rejected_document
    (inverse Inversion : CkitMat4 -> CkitMat4)
    (loadPolyhedronFromResource : string -> vector3d -> bool)
    (getCapsule : R -> R -> vector3d * vector3d)
    (initString : string -> option ModelInterface)
    (fuel : nat) (doc : string) (p : Parser) :
  initString doc = None ->
  exists p',
    parseStream inverse Inversion loadPolyhedronFromResource getCapsule
                initString fuel doc p = Ret (None, p') /\
    robot_ p' = None.
Proof.
  intros H. unfold parseStream.
  do 4 (unfold bind at 1; unfold modify at 1).
  rewrite H. eexists. split; reflexivity.
Qed.

(** A PLANAR joint is fatal. For every document whose decoded graph holds
    a PLANAR joint (the entries of the graph being well formed and pose
    resolution returning on them), [parseStream] returns the null robot
    and resets [robot_]. *)
Theorem parseStream_planar_aborts
    (inverse Inversion : CkitMat4 -> CkitMat4)
    (loadPolyhedronFromResource : string -> vector3d -> bool)
    (getCapsule : R -> R -> vector3d * vector3d)
    (initString : string -> option ModelInterface)
    (fuel : nat) (doc : string) (p : Parser) (m : ModelInterface) :
  initString doc = Some m ->
  wellFormedJoints m ->
  resolves fuel m ->
  (exists k j, In (k, Some j) (joints_ m) /\ type j = PLANAR) ->
  exists p',
    parseStream inverse Inversion loadPolyhedronFromResource getCapsule
                initString fuel doc p = Ret (None, p') /\
    robot_ p' = None.
Proof.
  intros Hdoc Hwf Hres Hpl. unfold parseStream.
  do 4 (unfold bind at 1; unfold modify at 1).
  rewrite Hdoc. unfold bind at 1; unfold modify at 1.
  match goal with
  | |- context [bind findSpecialJoints _ ?s] =>
      destruct (findSpecialJoints_returns s) as (p1 & H1 & G1 & R1 & J1)
  end.
  unfold bind at 1. rewrite H1.
  cbn [model_ set_model_ robot_ set_robot_ jointsMap_ set_jointsMap_
       set_rootJoint_] in G1, R1, J1.
  unfold bind at 1. unfold parseJoints.
  unfold bind at 1. unfold createFreeflyerJoint at 1.
  unfold bind at 1, getParser. rewrite J1. cbn [SMap.find SMap.empty].
  unfold register, bind at 1, modify at 1, ret at 1.
  unfold bind at 1, modify at 1.
  unfold bind at 1, onRobot at 1. cbn [robot_ set_rootJoint_ set_jointsMap_].
  rewrite R1.
  unfold bind at 1, getParser.
  cbn [model_ set_robot_ set_rootJoint_ set_jointsMap_].
  match goal with
  | |- context [parseJointsLoop fuel ?its ?s] =>
      destruct (parseJointsLoop_planar fuel m Hwf Hres its s) as [p2 H2]
  end.
  - exact G1.
  - destruct G1 as [GJ _]. rewrite GJ. auto.
  - destruct G1 as [GJ _]. rewrite GJ. exact Hpl.
  - rewrite H2. eexists. split; reflexivity.
Qed.

Lemma parseStream_planar_aborts_witness :
  exists p', build 3 Planar.model = Ret (None, p') /\ robot_ p' = None.
Proof.
  apply (parseStream_planar_aborts rigidInverse rigidInverse loadAlways
           capsuleAlongX (decodeAs Planar.model) 3 "" newParser
           Planar.model).
  - reflexivity.
  - intros k v [E | [E | []]]; injection E as <- <-;
      (split; [discriminate | run; discriminate]).
  - intros k v [E | [E | []]]; injection E as <- <-;
      do 2 eexists; run; reflexivity.
  - exists "p1", Planar.p1. split; [right; left |]; reflexivity.
Defined.


(** ** The build keeps the input graph *)

Lemma keepsModel_ret {A} (a : A) : keepsModel (ret a).
Proof. intros p a' p' H. now injection H as _ <-. Qed.

Lemma keepsModel_bind {A B} (c : M A) (k : A -> M B) :
  keepsModel c -> (forall a, keepsModel (k a)) -> keepsModel (bind c k).
Proof.
  intros Hc Hk p b p' H. apply bind_Ret_inv in H.
  destruct H as (a & q & H1 & H2).
  apply Hc in H1. apply Hk in H2. congruence.
Qed.

Lemma keepsModel_getParser : keepsModel getParser.
Proof. intros p a p' H. now injection H as _ <-. Qed.

Lemma keepsModel_undefined {A} : keepsModel (@undefined A).
Proof. intros p a p' H. discriminate. Qed.

Lemma keepsModel_throw {A} (msg : string) : keepsModel (@throw A msg).
Proof. intros p a p' H. discriminate. Qed.

Lemma keepsModel_outOfFuel {A} : keepsModel (@outOfFuel A).
Proof. intros p a p' H. discriminate. Qed.

Lemma keepsModel_modify (f : Parser -> Parser) :
  (forall p, model_ (f p) = model_ p) -> keepsModel (modify f).
Proof. intros Hf p a p' H. injection H as _ <-. apply Hf. Qed.

Lemma keepsModel_hppDout (l : Level) (msg : string) :
  keepsModel (hppDout l msg).
Proof. apply keepsModel_modify. reflexivity. Qed.

Lemma keepsModel_onRobot (c : RobotCall) : keepsModel (onRobot c).
Proof.
  intros p a p' H. unfold onRobot in H.
  destruct (robot_ p); [| discriminate]. now injection H as _ <-.
Qed.

Lemma keepsModel_deref (j : option string) : keepsModel (deref j).
Proof.
  intros p a p' H. unfold deref in H. destruct j; [| discriminate].
  destruct (SMap.find s (jointsMap_ p)); [| discriminate].
  now injection H as _ <-.
Qed.

Lemma keepsModel_onJoint (j : option string) (f : Joint -> Joint) :
  keepsModel (onJoint j f).
Proof.
  intros p a p' H. unfold onJoint in H. destruct j; [| discriminate].
  destruct (SMap.find s (jointsMap_ p)); [| discriminate].
  now injection H as _ <-.
Qed.

(** Decomposition of an operation into the steps above. *)
Ltac keeps :=
  repeat first
    [ assumption
    | apply keepsModel_ret
    | apply keepsModel_getParser
    | apply keepsModel_undefined
    | apply keepsModel_throw
    | apply keepsModel_outOfFuel
    | apply keepsModel_hppDout
    | apply keepsModel_onRobot
    | apply keepsModel_deref
    | apply keepsModel_onJoint
    | apply keepsModel_modify; reflexivity
    | apply keepsModel_bind; [| intros ?]
    | match goal with
      | |- keepsModel (match ?x with _ => _ end) => destruct x
      | |- keepsModel (if ?b then _ else _) => destruct b
      end ].

Lemma keepsModel_getPoseInReferenceFrame (fuel : nat) :
  forall reference current,
    keepsModel (getPoseInReferenceFrame fuel reference current).
Proof.
  induction fuel as [| fuel IH]; intros reference current;
    cbn [getPoseInReferenceFrame]; keeps. apply IH.
Qed.

Lemma keepsModel_register (n : string) (j : Joint) :
  keepsModel (register n j).
Proof. unfold register. keeps. Qed.

Lemma keepsModel_createFreeflyerJoint (n : string) (mat : CkitMat4) :
  keepsModel (createFreeflyerJoint n mat).
Proof. unfold createFreeflyerJoint. keeps. Qed.

Lemma keepsModel_createRotationJoint (n : string) (mat : CkitMat4)
    (lim : option JointLimits) :
  keepsModel (createRotationJoint n mat lim).
Proof. unfold createRotationJoint. keeps. Qed.

Lemma keepsModel_createContinuousJoint (n : string) (mat : CkitMat4) :
  keepsModel (createContinuousJoint n mat).
Proof. unfold createContinuousJoint. keeps. Qed.

Lemma keepsModel_createTranslationJoint (n : string) (mat : CkitMat4)
    (lim : option JointLimits) :
  keepsModel (createTranslationJoint n mat lim).
Proof. unfold createTranslationJoint. keeps. Qed.

Lemma keepsModel_createAnchorJoint (n : string) (mat : CkitMat4) :
  keepsModel (createAnchorJoint n mat).
Proof. unfold createAnchorJoint. keeps. Qed.

Lemma keepsModel_parseJointsLoop (fuel : nat) :
  forall its, keepsModel (parseJointsLoop fuel its).
Proof.
  induction its as [| [first second] rest IH]; cbn [parseJointsLoop]; keeps;
    first [ apply keepsModel_getPoseInReferenceFrame
          | apply keepsModel_createRotationJoint
          | apply keepsModel_createContinuousJoint
          | apply keepsModel_createTranslationJoint
          | apply keepsModel_createFreeflyerJoint
          | apply keepsModel_createAnchorJoint ].
Qed.

Lemma keepsModel_getChildrenJointLoop
    (recurse : string -> list string -> M (bool * list string)) :
  (forall n result, keepsModel (recurse n result)) ->
  forall children result,
    keepsModel (getChildrenJointLoop recurse children result).
Proof.
  intros Hrec children.
  induction children as [| joint rest IH]; intros result;
    cbn [getChildrenJointLoop]; keeps; first [apply IH | apply Hrec].
Qed.

Lemma keepsModel_getChildrenJointInto (fuel : nat) :
  forall n result, keepsModel (getChildrenJointInto fuel n result).
Proof.
  induction fuel as [| fuel IH]; intros n result;
    cbn [getChildrenJointInto]; keeps;
    now apply keepsModel_getChildrenJointLoop.
Qed.

Lemma keepsModel_connectJointsLoop (recurse : option string -> M bool)
    (rootJoint : option string) :
  (forall j, keepsModel (recurse j)) ->
  forall children, keepsModel (connectJointsLoop recurse rootJoint children).
Proof.
  intros Hrec children.
  induction children as [| c rest IH]; cbn [connectJointsLoop]; keeps.
  apply Hrec.
Qed.

Lemma keepsModel_connectJoints (fuel : nat) :
  forall rootJoint, keepsModel (connectJoints fuel rootJoint).
Proof.
  induction fuel as [| fuel IH]; intros rootJoint; cbn [connectJoints];
    keeps.
  - unfold getChildrenJoint. keeps. apply keepsModel_getChildrenJointInto.
  - now apply keepsModel_connectJointsLoop.
Qed.

Lemma keepsModel_findJoint (n : string) : keepsModel (findJoint n).
Proof. unfold findJoint. keeps. Qed.

Lemma keepsModel_setSpecialJoints : keepsModel setSpecialJoints.
Proof.
  unfold setSpecialJoints, setSpecialJoint. keeps;
    apply keepsModel_findJoint.
Qed.

Lemma keepsModel_computeBodyAbsolutePosition
    (inverse : CkitMat4 -> CkitMat4) (link : UrdfLink) (pose : Pose) :
  keepsModel (computeBodyAbsolutePosition inverse link pose).
Proof.
  unfold computeBodyAbsolutePosition. keeps; apply keepsModel_findJoint.
Qed.

Lemma keepsModel_addSolidComponentToJoint
    (inverse : CkitMat4 -> CkitMat4)
    (loadPolyhedronFromResource : string -> vector3d -> bool)
    (getCapsule : R -> R -> vector3d * vector3d)
    (link : UrdfLink) (joint : option string) :
  keepsModel (addSolidComponentToJoint inverse loadPolyhedronFromResource
                                       getCapsule link joint).
Proof.
  unfold addSolidComponentToJoint. keeps;
    apply keepsModel_computeBodyAbsolutePosition.
Qed.

Lemma keepsModel_bodyOfLink (inverse : CkitMat4 -> CkitMat4)
    (first childLinkName : string) (link : UrdfLink) :
  keepsModel (bodyOfLink inverse first childLinkName link).
Proof. unfold bodyOfLink. keeps. Qed.

Lemma keepsModel_addBodiesLoop
    (inverse : CkitMat4 -> CkitMat4)
    (loadPolyhedronFromResource : string -> vector3d -> bool)
    (getCapsule : R -> R -> vector3d * vector3d) :
  forall keys,
    keepsModel (addBodiesLoop inverse loadPolyhedronFromResource getCapsule
                              keys).
Proof.
  induction keys as [| first rest IH]; cbn [addBodiesLoop]; keeps;
    first [ apply keepsModel_bodyOfLink
          | apply keepsModel_addSolidComponentToJoint ].
Qed.

Lemma keepsModel_actuatedJointsLoop :
  forall its jointsVect, keepsModel (actuatedJointsLoop its jointsVect).
Proof.
  induction its as [| [first [second |]] rest IH]; intros jointsVect;
    cbn [actuatedJointsLoop]; keeps; apply IH.
Qed.

Lemma keepsModel_fillGaze : keepsModel fillGaze.
Proof. unfold fillGaze. keeps. Qed.

Lemma keepsModel_fillHandsAndFeet (Inversion : CkitMat4 -> CkitMat4) :
  keepsModel (fillHandsAndFeet Inversion).
Proof.
  unfold fillHandsAndFeet, fillHand, fillFoot. keeps;
    destruct (computeHandsInformation _ _ _) as [[[? ?] ?] ?]; keeps.
Qed.

Lemma keepsModel_getRootJoint : keepsModel getRootJoint.
Proof.
  intros p a p' H. unfold getRootJoint in H.
  destruct (robot_ p); [| discriminate]. now injection H as _ <-.
Qed.

Lemma keepsModel_setFreeFlyerBounds : keepsModel setFreeFlyerBounds.
Proof. unfold setFreeFlyerBounds. keeps. apply keepsModel_getRootJoint. Qed.

(** The tail of [parseStream], from [connectJoints] on. *)
Lemma keepsModel_assembly
    (inverse Inversion : CkitMat4 -> CkitMat4)
    (loadPolyhedronFromResource : string -> vector3d -> bool)
    (getCapsule : R -> R -> vector3d * vector3d)
    (fuel : nat) (rootJoint : option string) (r : HumanoidRobot) :
  forall p p',
    (ok <- connectJoints fuel rootJoint ;;
     if negb ok then abortBuild "Could not connect joints."
     else
       setSpecialJoints ;;
       ok <- addBodiesToJoints inverse loadPolyhedronFromResource
                               getCapsule ;;
       if negb ok then abortBuild "Could not add bodies to joints."
       else
         onRobot initialize ;;
         actJointsVect <- actuatedJoints ;;
         onRobot (setActuatedJoints actJointsVect) ;;
         fillGaze ;;
         fillHandsAndFeet Inversion ;;
         onRobot steeringMethodComponent ;;
         setFreeFlyerBounds ;;
         p <- getParser ;;
         ret (robot_ p)) p = Ret (Some r, p') ->
    model_ p' = model_ p.
Proof.
  intros p p' H. revert H. generalize (Some r). intros a H. revert p a p' H.
  change (keepsModel
    (ok <- connectJoints fuel rootJoint ;;
     if negb ok then abortBuild "Could not connect joints."
     else
       setSpecialJoints ;;
       ok <- addBodiesToJoints inverse loadPolyhedronFromResource
                               getCapsule ;;
       if negb ok then abortBuild "Could not add bodies to joints."
       else
         onRobot initialize ;;
         actJointsVect <- actuatedJoints ;;
         onRobot (setActuatedJoints actJointsVect) ;;
         fillGaze ;;
         fillHandsAndFeet Inversion ;;
         onRobot steeringMethodComponent ;;
         setFreeFlyerBounds ;;
         p <- getParser ;;
         ret (robot_ p))).
  unfold abortBuild, addBodiesToJoints, actuatedJoints. keeps;
    first [ apply keepsModel_connectJoints
          | apply keepsModel_setSpecialJoints
          | apply keepsModel_addBodiesLoop
          | apply keepsModel_actuatedJointsLoop
          | apply keepsModel_fillGaze
          | apply keepsModel_fillHandsAndFeet
          | apply keepsModel_setFreeFlyerBounds
          | apply keepsModel_getRootJoint ].
Qed.

(** Every parser in which [parseStream] has returned a robot is one whose
    joints have been accepted by [parseJoints]. *)
Lemma parseStream_success_parsed
    (inverse Inversion : CkitMat4 -> CkitMat4)
    (loadPolyhedronFromResource : string -> vector3d -> bool)
    (getCapsule : R -> R -> vector3d * vector3d)
    (initString : string -> option ModelInterface)
    (fuel : nat) (doc : string) (p0 p : Parser) (r : HumanoidRobot) :
  parseStream inverse Inversion loadPolyhedronFromResource getCapsule
              initString fuel doc p0 = Ret (Some r, p) ->
  parsed p.
Proof.
  intros H. unfold parseStream in H.
  do 4 (unfold bind at 1 in H; unfold modify at 1 in H).
  destruct (initString doc) as [m |]; [| discriminate].
  unfold bind at 1 in H; unfold modify at 1 in H.
  match type of H with
  | context [bind findSpecialJoints _ ?s] =>
      destruct (findSpecialJoints_returns s) as (p1 & H1 & _)
  end.
  unfold bind at 1 in H. rewrite H1 in H. clear H1.
  apply bind_Ret_inv in H. destruct H as (ok & p2 & Hparse & H).
  destruct ok; [| discriminate]. cbn [negb] in H.
  unfold bind at 1, getParser in H.
  destruct (getRoot (model_ p2)); [| discriminate].
  apply keepsModel_assembly in H.
  unfold parseJoints in Hparse.
  apply bind_Ret_inv in Hparse. destruct Hparse as (rj & q1 & _ & Hparse).
  apply bind_Ret_inv in Hparse. destruct Hparse as (? & q2 & _ & Hparse).
  destruct rj as [rj |]; [| discriminate].
  apply bind_Ret_inv in Hparse. destruct Hparse as (? & q3 & _ & Hparse).
  unfold bind, getParser in Hparse.
  pose proof (keepsModel_parseJointsLoop fuel _ _ _ _ Hparse) as Hm.
  exists fuel, q3, p2. now rewrite H, Hm.
Qed.

(** ** Actuated joints *)

Lemma existsb_eqb_In (n : string) (l : list string) :
  existsb (String.eqb n) l = false -> ~ In n l.
Proof.
  induction l as [| a l IH]; cbn; [tauto |].
  intros H. apply orb_false_iff in H. destruct H as [Ha Hl].
  apply String.eqb_neq in Ha. intros [E | Hin]; [congruence | tauto].
Qed.

Lemma NoDup_snoc (n : string) (l : list string) :
  NoDup l -> ~ In n l -> NoDup (l ++ [n]).
Proof.
  intros Hl Hn. induction Hl as [| a l Ha Hl IH]; cbn.
  - constructor; [tauto | constructor].
  - constructor.
    + intros Hin. apply in_app_or in Hin.
      destruct Hin as [Hin | [E | []]]; [tauto |].
      subst. apply Hn. now left.
    + apply IH. intros Hin. apply Hn. now right.
Qed.

(** The loop of [actuatedJoints] returns a list or raises an error, and
    never changes the parser.  The list extends [jointsVect] by names of
    entries that qualify and have a node, without repetition. *)
Lemma actuatedJointsLoop_spec (p : Parser) :
  forall its jointsVect,
    (exists l,
        actuatedJointsLoop its jointsVect p = Ret (l, p) /\
        (NoDup jointsVect -> NoDup l) /\
        forall n, In n l ->
          In n jointsVect \/
          exists j, In (n, Some j) its /\ qualifies (type j) = true /\
                    SMap.find n (jointsMap_ p) <> None) \/
    (exists msg, actuatedJointsLoop its jointsVect p = Throw msg).
Proof.
  induction its as [| [first [second |]] rest IH]; intros jointsVect.
  - left. exists jointsVect. cbn. auto.
  - assert (Hskip :
      (exists l,
          actuatedJointsLoop rest jointsVect p = Ret (l, p) /\
          (NoDup jointsVect -> NoDup l) /\
          forall n, In n l ->
            In n jointsVect \/
            exists j, In (n, Some j) ((first, Some second) :: rest) /\
                      qualifies (type j) = true /\
                      SMap.find n (jointsMap_ p) <> None) \/
      (exists msg, actuatedJointsLoop rest jointsVect p = Throw msg)).
    { destruct (IH jointsVect) as [(l & Hl & Hd & Hin) | Ht];
        [left | now right].
      exists l. repeat split; auto.
      intros n Hn. destruct (Hin n Hn) as [? | (j & Hj & ?)]; [now left |].
      right. exists j. split; [now right | assumption]. }
    assert (Hkeep :
      qualifies (type second) = true ->
      (exists l,
          (p0 <- getParser ;;
           match SMap.find first (jointsMap_ p0) with
           | None => throw "failed to compute actuated joints"
           | Some _ =>
               if existsb (String.eqb first) jointsVect
               then actuatedJointsLoop rest jointsVect
               else actuatedJointsLoop rest (jointsVect ++ [first])
           end) p = Ret (l, p) /\
          (NoDup jointsVect -> NoDup l) /\
          forall n, In n l ->
            In n jointsVect \/
            exists j, In (n, Some j) ((first, Some second) :: rest) /\
                      qualifies (type j) = true /\
                      SMap.find n (jointsMap_ p) <> None) \/
      (exists msg,
          (p0 <- getParser ;;
           match SMap.find first (jointsMap_ p0) with
           | None => throw "failed to compute actuated joints"
           | Some _ =>
               if existsb (String.eqb first) jointsVect
               then actuatedJointsLoop rest jointsVect
               else actuatedJointsLoop rest (jointsVect ++ [first])
           end) p = Throw msg)).
    { intros Hq. unfold bind, getParser.
      destruct (SMap.find first (jointsMap_ p)) as [node |] eqn:Ef;
        [| right; eexists; reflexivity].
      destruct (existsb (String.eqb first) jointsVect) eqn:Ex;
        [exact Hskip |].
      destruct (IH (jointsVect ++ [first])%list)
        as [(l & Hl & Hd & Hin) | Ht]; [left | now right].
      exists l. split; [exact Hl |]. split.
      - intros Hnd. apply Hd, NoDup_snoc; [exact Hnd |].
        now apply existsb_eqb_In.
      - intros n Hn. destruct (Hin n Hn) as [Ha | (j & Hj & ?)].
        + apply in_app_or in Ha. destruct Ha as [Ha | [<- | []]];
            [now left |].
          right. exists second. split; [now left |]. split; [exact Hq |].
          now rewrite Ef.
        + right. exists j. split; [now right | assumption]. }
    cbn [actuatedJointsLoop].
    destruct (type second); try exact Hskip; now apply Hkeep.
  - right. eexists. reflexivity.
Qed.

(** An entry that qualifies and has no node makes the loop raise an
    error. *)
Lemma actuatedJointsLoop_throws (p : Parser) :
  forall its jointsVect,
    (exists k j, In (k, Some j) its /\ qualifies (type j) = true /\
                 SMap.find k (jointsMap_ p) = None) ->
    exists msg, actuatedJointsLoop its jointsVect p = Throw msg.
Proof.
  induction its as [| [first [second |]] rest IH]; intros jointsVect Hex.
  - destruct Hex as (k & j & [] & _).
  - assert (Hrest : (first, Some second) <> (first, Some second) \/
                    qualifies (type second) = false \/
                    SMap.find first (jointsMap_ p) <> None ->
                    forall v, exists msg,
                        actuatedJointsLoop rest v p = Throw msg).
    { intros Hc v. apply IH. destruct Hex as (k & j & [E | Hin] & Hq & Hf).
      - injection E as <- <-. destruct Hc as [Hc | [Hc | Hc]];
          [now elim Hc | congruence | contradiction].
      - eauto. }
    cbn [actuatedJointsLoop].
    destruct (type second) eqn:Et;
      try (apply Hrest; right; left; reflexivity);
      unfold bind, getParser;
      (destruct (SMap.find first (jointsMap_ p)) eqn:Ef;
       [| eexists; reflexivity]);
      (destruct (existsb (String.eqb first) jointsVect);
       apply Hrest; right; right; discriminate).
  - eexists. reflexivity.
Qed.

(** The entries that [parseJoints] has accepted hold joints whose kind is
    neither PLANAR nor UNKNOWN. *)
Lemma parseJointsLoop_accepted (fuel : nat) :
  forall its p0 p1,
    parseJointsLoop fuel its p0 = Ret (true, p1) ->
    forall k v, In (k, v) its ->
      exists j, v = Some j /\ type j <> PLANAR /\ type j <> UNKNOWN.
Proof.
  induction its as [| [first second] rest IH]; intros p0 p1 H k v Hin;
    [destruct Hin |].
  cbn [parseJointsLoop] in H.
  apply bind_Ret_inv in H. destruct H as (t & q & _ & H).
  unfold bind at 1, getParser in H.
  destruct (getJoint (model_ q) first) as [joint |]; [| discriminate].
  destruct second as [second |]; [| discriminate].
  destruct (type second) eqn:Et;
    try (unfold bind, hppDout, modify, ret in H; discriminate);
    apply bind_Ret_inv in H; destruct H as (h & q' & _ & H);
    (destruct Hin as [E | Hin];
     [ injection E as <- <-; exists second;
       rewrite Et; repeat split; discriminate
     | exact (IH _ _ H k v Hin) ]).
Qed.

(** What [actuatedJoints] tests.  In a parser whose joints have been
    accepted by [parseJoints] (as is every parser in which [parseStream]
    has returned a robot), [actuatedJoints] either returns a list, without
    changing the parser, or raises an error.  The list has no repetition,
    and each of its members is the node registered under the name of an
    input joint whose kind is REVOLUTE, CONTINUOUS or PRISMATIC.  When an
    input joint of such a kind has no registered node, the operation
    raises an error. *)
Theorem actuatedJoints_spec (p : Parser) :
  parsed p ->
  ((exists l,
       actuatedJoints p = Ret (l, p) /\
       NoDup l /\
       forall n, In n l ->
         exists j, In (n, Some j) (joints_ (model_ p)) /\
                   (type j = REVOLUTE \/ type j = CONTINUOUS
                    \/ type j = PRISMATIC) /\
                   SMap.find n (jointsMap_ p) <> None) \/
   (exists msg, actuatedJoints p = Throw msg)) /\
  ((exists k j, In (k, Some j) (joints_ (model_ p)) /\
                isActuatedType (type j) = true /\
                SMap.find k (jointsMap_ p) = None) ->
   exists msg, actuatedJoints p = Throw msg).
Proof.
  intros (fuel & p0 & p1 & Hparsed). unfold actuatedJoints, bind, getParser.
  split.
  - destruct (actuatedJointsLoop_spec p (joints_ (model_ p)) [])
      as [(l & Hl & Hd & Hin) | Ht]; [left | now right].
    exists l. split; [exact Hl |]. split; [apply Hd; constructor |].
    intros n Hn. destruct (Hin n Hn) as [[] | (j & Hj & Hq & Hf)].
    exists j. split; [exact Hj |]. split; [| exact Hf].
    destruct (parseJointsLoop_accepted fuel _ _ _ Hparsed n (Some j) Hj)
      as (j' & E & Hp & Hu).
    injection E as <-.
    destruct (type j); try discriminate; auto; contradiction.
  - intros (k & j & Hin & Ha & Hf).
    apply actuatedJointsLoop_throws. exists k, j.
    split; [exact Hin |]. split; [| exact Hf].
    destruct (type j); try discriminate; reflexivity.
Qed.

Lemma actuatedJoints_spec_witness :
  exists l,
    actuatedJoints (afterBuild 3 Arm.model)
    = Ret (l, afterBuild 3 Arm.model) /\ NoDup l.
Proof.
  destruct (actuatedJoints_spec (afterBuild 3 Arm.model))
    as [[(l & H & Hd & _) | (msg & Ht)] _].
  - exists 3%nat, (set_model_ Arm.model newParser). eexists.
    run. reflexivity.
  - exists l. auto.
  - run in Ht. discriminate.
Defined.

(** On the graph with the revolute joint j1 and the fixed gaze joint, the
    build gives the robot the actuated joints [j1]. *)
Lemma build_arm_actuated :
  exists r p,
    build 3 Arm.model = Ret (Some r, p) /\
    In (setActuatedJoints ["j1"]) (robotCalls r) /\
    actuatedJoints p = Ret (["j1"], p).
Proof.
  do 2 eexists. split; [run; reflexivity |].
  split; [run; tauto | run; reflexivity].
Qed.

(** After a build that failed on a planar joint, the registry lacks the
    node of that joint, which [actuatedJoints] does not skip: it raises an
    error. *)
Lemma actuatedJoints_after_failure :
  actuatedJoints (afterBuild 3 Planar.model)
  = Throw "failed to compute actuated joints".
Proof. run. reflexivity. Qed.

(** C10. The list can hold a joint that is not of an actuated kind.  On
    a document whose revolute joint is named base_joint, the creation of
    its node is rejected as a duplicate of the root joint and
    [parseJoints] drops the failure; the build returns a robot, and
    [actuatedJoints] lists the node registered under the name of the
    revolute joint: the free-flyer root that the parser created. *)
Lemma actuatedJoints_named_base_joint :
  exists r p node,
    build 3 (Duplicate.modelOf REVOLUTE) = Ret (Some r, p) /\
    type (Duplicate.baseJ REVOLUTE) = REVOLUTE /\
    In (error, "Duplicated rotation joint base_joint") (log_ p) /\
    actuatedJoints p = Ret (["base_joint"], p) /\
    In (setActuatedJoints ["base_joint"]) (robotCalls r) /\
    SMap.find "base_joint" (jointsMap_ p) = Some node /\
    kind node = FreeflyerJoint.
Proof.
  do 3 eexists. split; [run; reflexivity |].
  split; [reflexivity |].
  split; [run; tauto |].
  split; [run; reflexivity |].
  split; [run; tauto |].
  split; [run; reflexivity | reflexivity].
Qed.

(** * Further properties of the code *)

(** ** Pose resolver: the pose along a walk *)

(** X4. Along a walk of the graph that ends at the reference joint, or at
    a joint without parent joint, the resolver returns the product of the
    own transforms of the joints of the walk, root side first, and leaves
    the parser as it was; the fuel needed is the length of the walk. *)
Theorem getPoseInReferenceFrame_walk (reference : string) (p : Parser) :
  forall ancestors current extra,
    walk (model_ p) reference current ancestors ->
    getPoseInReferenceFrame (S (List.length ancestors) + extra) reference
                            (jname current) p
    = Ret (pathProduct current ancestors, p).
Proof.
  induction ancestors as [| a rest IH]; intros current extra [Hj Hw].
  - cbn [List.length plus getPoseInReferenceFrame].
    unfold bind, getParser. rewrite Hj.
    destruct (reference =? jname current) eqn:E; [reflexivity |].
    destruct Hw as [Hw | [Hw | (l & Hl & Hp)]].
    + apply String.eqb_neq in E. contradiction.
    + now rewrite Hw.
    + now rewrite Hl, Hp.
  - destruct Hw as (Hne & (l & pj & Hl & Hp & Hn) & Hrest).
    cbn [List.length plus].
    rewrite (getPoseInReferenceFrame_step _ p reference (jname current)
               current pj l Hne Hj Hl Hp).
    unfold bind. rewrite Hn.
    change (S (List.length rest + extra))
      with (S (List.length rest) + extra)%nat.
    rewrite (IH a extra Hrest). reflexivity.
Qed.

Lemma getPoseInReferenceFrame_walk_witness :
  getPoseInReferenceFrame 3 "base_footprint_joint" "C" Chain.parser
  = Ret (pathProduct Chain.C [Chain.B; Chain.A], Chain.parser).
Proof.
  apply (getPoseInReferenceFrame_walk "base_footprint_joint" Chain.parser
           [Chain.B; Chain.A] Chain.C 0).
  split; [reflexivity |]. split; [discriminate |].
  split; [exists Chain.L2, Chain.B; repeat split |].
  split; [reflexivity |]. split; [discriminate |].
  split; [exists Chain.L1, Chain.A; repeat split |].
  split; [reflexivity |].
  right. right. exists Chain.L0. split; reflexivity.
Defined.

(** ** Joint factory: creation under a new name *)

Lemma registeredAs_creation (p : Parser) (n msg : string) (node : Joint)
    (k : JointKind) (mat : CkitMat4) :
  SMap.find n (jointsMap_ p) = None ->
  name node = n -> kind node = k -> currentPosition node = mat ->
  childJoints node = [] -> linkedBody node = None ->
  registeredAs
    (p0 <- getParser ;;
     match SMap.find n (jointsMap_ p0) with
     | Some _ => hppDout error msg ;; ret None
     | None => register n node
     end) p n k mat.
Proof.
  intros Hf Hn Hk Hm Hc Hb. exists node. eexists.
  unfold bind at 1, getParser. rewrite Hf.
  split; [reflexivity |]. cbn [jointsMap_ set_jointsMap_].
  split; [apply find_insert_same |].
  repeat (split; [assumption |]).
  split; [intros k' Hk'; now apply find_insert_other |].
  unfold findJoint, bind, getParser. cbn [jointsMap_ set_jointsMap_].
  now rewrite find_insert_same.
Qed.

(** X5. When the name is not a key of the registry, each of the five
    creations returns the pointer to a new node that has the given name
    and position, the kind of the creation, no child and no body; the node
    is then found under the name, by the registry and by [findJoint], and
    the other entries of the registry are as they were. *)
Theorem create_fresh_registered
    (p : Parser) (n : string) (mat : CkitMat4) (lim : option JointLimits) :
  SMap.find n (jointsMap_ p) = None ->
  registeredAs (createFreeflyerJoint n mat) p n FreeflyerJoint mat /\
  registeredAs (createRotationJoint n mat lim) p n RotationJoint mat /\
  registeredAs (createContinuousJoint n mat) p n RotationJoint mat /\
  registeredAs (createTranslationJoint n mat lim) p n TranslationJoint mat /\
  registeredAs (createAnchorJoint n mat) p n AnchorJoint mat.
Proof.
  intros H. repeat split;
    (eapply registeredAs_creation; [exact H | ..]);
    try reflexivity; destruct lim; reflexivity.
Qed.

Lemma create_fresh_registered_witness :
  registeredAs (createAnchorJoint "j1" identity) newParser "j1"
               AnchorJoint identity.
Proof.
  apply (create_fresh_registered newParser "j1" identity None).
  reflexivity.
Defined.

(** ** Joint creation loop: what the registry holds afterwards *)

(** Pose resolution changes the log only. *)
Lemma getPoseInReferenceFrame_log (fuel : nat) (reference current : string)
    (p q : Parser) (t : CkitMat4) :
  getPoseInReferenceFrame fuel reference current p = Ret (t, q) ->
  exists msgs, q = set_log_ (log_ p ++ msgs)%list p.
Proof.
  intros H.
  destruct (getPoseInReferenceFrame_sameGraph fuel reference current p p t q
              (sameGraph_refl _) H) as [msgs Hq].
  exists msgs. congruence.
Qed.

(** The effect of a creation on the registry. *)
Lemma creation_effect (n msg : string) (node : Joint) (p p' : Parser)
    (h : option string) :
  (p0 <- getParser ;;
   match SMap.find n (jointsMap_ p0) with
   | Some _ => hppDout error msg ;; ret None
   | None => register n node
   end) p = Ret (h, p') ->
  (model_ p' = model_ p /\ rootJoint_ p' = rootJoint_ p /\
   robot_ p' = robot_ p) /\
  ((SMap.find n (jointsMap_ p) = None /\
    jointsMap_ p' = SMap.insert n node (jointsMap_ p)) \/
   (SMap.find n (jointsMap_ p) <> None /\ jointsMap_ p' = jointsMap_ p)).
Proof.
  unfold bind at 1, getParser.
  destruct (SMap.find n (jointsMap_ p)) eqn:E; intros H;
    injection H as _ <-; (split; [repeat split |]).
  - right. split; [discriminate | reflexivity].
  - left. split; reflexivity.
Qed.

(** One turn of the loop of [parseJoints] that leads to success. *)
Lemma parseJointsLoop_turn (fuel : nat) (first : string)
    (second : option UrdfJoint) (rest : list (string * option UrdfJoint))
    (p p' : Parser) :
  parseJointsLoop fuel ((first, second) :: rest) p = Ret (true, p') ->
  exists t q joint s node q',
    getPoseInReferenceFrame fuel "base_footprint_joint" first p = Ret (t, q) /\
    getJoint (model_ p) first = Some joint /\
    second = Some s /\
    nodeOfJoint first s (nodePosition joint t) = Some node /\
    (model_ q' = model_ p /\ rootJoint_ q' = rootJoint_ p /\
     robot_ q' = robot_ p) /\
    ((SMap.find first (jointsMap_ p) = None /\
      jointsMap_ q' = SMap.insert first node (jointsMap_ p)) \/
     (SMap.find first (jointsMap_ p) <> None /\
      jointsMap_ q' = jointsMap_ p)) /\
    parseJointsLoop fuel rest q' = Ret (true, p').
Proof.
  intros H. cbn [parseJointsLoop] in H.
  apply bind_Ret_inv in H. destruct H as (t & q & Hpose & H).
  destruct (getPoseInReferenceFrame_log _ _ _ _ _ _ Hpose) as [msgs Hq].
  unfold bind at 1, getParser in H.
  assert (Hm : model_ q = model_ p) by (rewrite Hq; reflexivity).
  assert (Hr : jointsMap_ q = jointsMap_ p) by (rewrite Hq; reflexivity).
  assert (Ho : rootJoint_ q = rootJoint_ p) by (rewrite Hq; reflexivity).
  assert (Hb : robot_ q = robot_ p) by (rewrite Hq; reflexivity).
  rewrite Hm in H.
  destruct (getJoint (model_ p) first) as [joint |]; [| discriminate].
  destruct second as [s |]; [| discriminate].
  fold (nodePosition joint t) in H.
  destruct (type s) eqn:Et;
    try (unfold bind, hppDout, modify, ret in H; discriminate);
    apply bind_Ret_inv in H; destruct H as (h & q' & Hc & H);
    apply creation_effect in Hc; destruct Hc as [Hm' Hc];
    rewrite Hm, Ho, Hb in Hm'; rewrite Hr in Hc;
    exists t, q, joint, s; eexists; exists q';
    (split; [exact Hpose |]); (split; [reflexivity |]);
    (split; [reflexivity |]);
    (split; [unfold nodeOfJoint; rewrite Et; reflexivity |]);
    (split; [exact Hm' |]); (split; [exact Hc | exact H]).
Qed.

Lemma find_NoDup {V} (k : string) (v : V) (m : SMap.t V) :
  NoDup (map fst m) -> In (k, v) m -> SMap.find k m = Some v.
Proof.
  induction m as [| [k' v'] m IH]; intros Hnd Hin; [destruct Hin |].
  inversion Hnd as [| ? ? Hk Hm]; subst. cbn.
  destruct Hin as [E | Hin].
  - injection E as -> ->. now rewrite String.eqb_refl.
  - destruct (String.eqb_spec k k') as [-> | _];
      [| now apply IH].
    elim Hk. change k' with (fst (k', v)). now apply in_map.
Qed.

(** The loop of [parseJoints], when it succeeds: the keys of the registry
    afterwards are the keys before and the names of the entries; the
    nodes that were registered before are untouched. *)
Lemma parseJointsLoop_keys (fuel : nat) :
  forall its p p',
    parseJointsLoop fuel its p = Ret (true, p') ->
    (model_ p' = model_ p /\ rootJoint_ p' = rootJoint_ p /\
     robot_ p' = robot_ p) /\
    (forall k, SMap.find k (jointsMap_ p') <> None <->
               (SMap.find k (jointsMap_ p) <> None \/ In k (map fst its))) /\
    (forall k n, SMap.find k (jointsMap_ p) = Some n ->
                 SMap.find k (jointsMap_ p') = Some n).
Proof.
  induction its as [| [first second] rest IH]; intros p p' H.
  - cbn in H. injection H as <-. repeat split; try tauto.
  - apply parseJointsLoop_turn in H.
    destruct H as (t & q & joint & s & node & q' & _ & _ & _ & _ & Hm & Hc & H).
    apply IH in H. destruct H as (Hm' & Hk & Hn).
    split; [intuition congruence |].
    assert (Hq : forall k, SMap.find k (jointsMap_ q') <> None <->
                   (SMap.find k (jointsMap_ p) <> None \/ k = first)).
    { intros k. destruct Hc as [[Hf ->] | [Hf ->]].
      - destruct (String.eqb_spec k first) as [-> | Hne].
        + rewrite find_insert_same. split; [auto | discriminate].
        + rewrite find_insert_other by exact Hne. tauto.
      - split; [tauto |]. intros [? | ->]; assumption. }
    split.
    + intros k. rewrite Hk, Hq. cbn [map fst In]. intuition congruence.
    + intros k n Hf. apply Hn. destruct Hc as [[Hf' ->] | [_ ->]];
        [| exact Hf].
      rewrite find_insert_other; [exact Hf |]. congruence.
Qed.

(** [parseJoints], when it succeeds from an empty registry: the graph is
    kept, the keys of the registry are base_joint and the names of the
    entries, and every entry holds a joint that is neither PLANAR nor
    UNKNOWN. *)
Lemma parseJoints_keys (fuel : nat) (p p' : Parser) :
  jointsMap_ p = SMap.empty ->
  parseJoints fuel p = Ret (true, p') ->
  model_ p' = model_ p /\
  (forall k, SMap.find k (jointsMap_ p') <> None <->
             (k = "base_joint" \/ In k (map fst (joints_ (model_ p))))) /\
  (forall k v, In (k, v) (joints_ (model_ p)) ->
     exists j, v = Some j /\ type j <> PLANAR /\ type j <> UNKNOWN).
Proof.
  intros He H. unfold parseJoints in H.
  unfold bind at 1, createFreeflyerJoint at 1 in H.
  unfold bind at 1, getParser in H. rewrite He in H.
  cbn [SMap.find SMap.empty] in H.
  unfold register, bind at 1, modify at 1, ret at 1 in H.
  unfold bind at 1, modify at 1 in H.
  apply bind_Ret_inv in H. destruct H as ([] & q & Hr & H).
  unfold onRobot in Hr.
  cbn [robot_ set_rootJoint_ set_jointsMap_] in Hr.
  destruct (robot_ p) as [r |]; [| discriminate].
  inversion Hr as [Hq]; clear Hr. rewrite <- Hq in H. clear Hq q.
  unfold bind, getParser in H.
  cbn [model_ set_robot_ set_rootJoint_ set_jointsMap_] in H.
  pose proof (parseJointsLoop_accepted fuel _ _ _ H) as Hacc.
  apply parseJointsLoop_keys in H.
  destruct H as ((Hm & _ & _) & Hk & _).
  cbn [model_ jointsMap_ set_robot_ set_rootJoint_ set_jointsMap_] in *.
  split; [exact Hm |]. split; [| exact Hacc].
  intros k. rewrite Hk.
  destruct (String.eqb_spec k "base_joint") as [-> | Hne].
  - rewrite find_insert_same. split; [auto | intros _; left; discriminate].
  - rewrite find_insert_other by exact Hne. rewrite ?He.
    cbn [SMap.find SMap.empty]. intuition congruence.
Qed.

(** [parseJoints], when it succeeds from an empty registry: base_joint is
    the root joint, and its node is a free-flyer of that name at the
    identity. *)
Lemma parseJoints_root (fuel : nat) (p p' : Parser) :
  jointsMap_ p = SMap.empty ->
  parseJoints fuel p = Ret (true, p') ->
  rootJoint_ p' = Some "base_joint" /\
  exists root, SMap.find "base_joint" (jointsMap_ p') = Some root /\
               name root = "base_joint" /\
               kind root = FreeflyerJoint /\
               currentPosition root = identity.
Proof.
  intros He H. unfold parseJoints in H.
  unfold bind at 1, createFreeflyerJoint at 1 in H.
  unfold bind at 1, getParser in H. rewrite He in H.
  cbn [SMap.find SMap.empty] in H.
  unfold register, bind at 1, modify at 1, ret at 1 in H.
  unfold bind at 1, modify at 1 in H.
  apply bind_Ret_inv in H. destruct H as ([] & q & Hr & H).
  unfold onRobot in Hr.
  cbn [robot_ set_rootJoint_ set_jointsMap_] in Hr.
  destruct (robot_ p) as [r |]; [| discriminate].
  inversion Hr as [Hq]; clear Hr. rewrite <- Hq in H. clear Hq q.
  unfold bind, getParser in H.
  cbn [model_ set_robot_ set_rootJoint_ set_jointsMap_] in H.
  apply parseJointsLoop_keys in H.
  destruct H as ((_ & Hroot & _) & _ & Hn).
  cbn [rootJoint_ jointsMap_ set_robot_ set_rootJoint_ set_jointsMap_] in *.
  split; [exact Hroot |].
  eexists. split; [apply Hn; apply find_insert_same |].
  repeat split; reflexivity.
Qed.

(** X6. When [parseJoints] succeeds from an empty registry, the registry
    holds a node for the root joint base_joint, a free-flyer at the
    identity, and one for each joint name of the graph, and nothing
    else; base_joint is the root joint of the parser. *)
Theorem parseJoints_registry (fuel : nat) (p p' : Parser) :
  jointsMap_ p = SMap.empty ->
  parseJoints fuel p = Ret (true, p') ->
  rootJoint_ p' = Some "base_joint" /\
  (exists root, SMap.find "base_joint" (jointsMap_ p') = Some root /\
                kind root = FreeflyerJoint /\
                currentPosition root = identity) /\
  (forall k, SMap.find k (jointsMap_ p') <> None <->
             (k = "base_joint" \/ In k (map fst (joints_ (model_ p))))).
Proof.
  intros He H.
  destruct (parseJoints_root fuel p p' He H)
    as (Hroot & root & Hf & _ & Hk & Hp).
  destruct (parseJoints_keys fuel p p' He H) as (_ & Hkeys & _).
  split; [exact Hroot |]. split; [| exact Hkeys].
  exists root. auto.
Qed.

Lemma parseJoints_registry_witness :
  jointsMap_ (resetParser Arm.model) = SMap.empty /\
  parseJoints 3 (resetParser Arm.model)
  = Ret (true, afterParseJoints 3 Arm.model) /\
  (SMap.find "j1" (jointsMap_ (afterParseJoints 3 Arm.model)) <> None <->
   ("j1" = "base_joint" \/
    In "j1" (map fst (joints_ (model_ (resetParser Arm.model)))))).
Proof.
  assert (He : jointsMap_ (resetParser Arm.model) = SMap.empty)
    by reflexivity.
  assert (H : parseJoints 3 (resetParser Arm.model)
              = Ret (true, afterParseJoints 3 Arm.model))
    by (run; reflexivity).
  split; [exact He |]. split; [exact H |].
  exact (proj2 (proj2 (parseJoints_registry 3 _ _ He H)) "j1").
Defined.

(** The loop of [parseJoints], when it succeeds on entries with distinct
    names: a name that was free gets the node of its entry. *)
Lemma parseJointsLoop_node (fuel : nat) :
  forall its p p',
    parseJointsLoop fuel its p = Ret (true, p') ->
    NoDup (map fst its) ->
    forall k j,
      In (k, Some j) its ->
      SMap.find k (jointsMap_ p) = None ->
      exists t q joint node,
        getPoseInReferenceFrame fuel "base_footprint_joint" k p = Ret (t, q) /\
        getJoint (model_ p) k = Some joint /\
        nodeOfJoint k j (nodePosition joint t) = Some node /\
        SMap.find k (jointsMap_ p') = Some node.
Proof.
  induction its as [| [first second] rest IH]; intros p p' H Hnd k j Hin Hf;
    [destruct Hin |].
  apply parseJointsLoop_turn in H.
  destruct H as (t & q & joint & s & node & q' & Hp & Hj & -> & Hn & Hm & Hc & H).
  inversion Hnd as [| ? ? Hk Hrest]; subst.
  destruct Hin as [E | Hin].
  - injection E as -> ->.
    destruct Hc as [[_ Hc] | [Hc _]]; [| contradiction].
    exists t, q, joint, node. repeat split; try assumption.
    apply (parseJointsLoop_keys _ _ _ _ H). rewrite Hc.
    apply find_insert_same.
  - assert (Hne : k <> first).
    { intros ->. apply Hk. change first with (fst (first, Some j)).
      now apply in_map. }
    assert (Hf' : SMap.find k (jointsMap_ q') = None).
    { destruct Hc as [[_ ->] | [_ ->]]; [| exact Hf].
      now rewrite find_insert_other. }
    destruct (IH _ _ H Hrest k j Hin Hf')
      as (t' & q2 & joint' & node' & Hp' & Hj' & Hn' & Hr').
    destruct Hm as (Hm & _ & _).
    destruct (getPoseInReferenceFrame_sameGraph fuel "base_footprint_joint" k
                q' p t' q2)
      as [msgs Hp2]; [rewrite Hm; apply sameGraph_refl | exact Hp' |].
    exists t'. eexists. exists joint', node'.
    rewrite Hm in Hj'. repeat split; eassumption.
Qed.

(** X7. When [parseJoints] succeeds from an empty registry on a graph
    whose entries have distinct names, the node registered under the name
    of an entry other than base_joint has the kind, the bounds and the
    position that the switch of [parseJoints] gives to that entry: the
    pose of the joint in the frame of base_footprint_joint, multiplied by
    the normalized axis frame for an actuated joint. *)
Theorem parseJoints_node (fuel : nat) (p p' : Parser) (k : string)
    (j : UrdfJoint) :
  jointsMap_ p = SMap.empty ->
  NoDup (map fst (joints_ (model_ p))) ->
  parseJoints fuel p = Ret (true, p') ->
  In (k, Some j) (joints_ (model_ p)) ->
  k <> "base_joint" ->
  exists t q node,
    getPoseInReferenceFrame fuel "base_footprint_joint" k p = Ret (t, q) /\
    nodeOfJoint k j (nodePosition j t) = Some node /\
    SMap.find k (jointsMap_ p') = Some node.
Proof.
  intros He Hnd H Hin Hne. unfold parseJoints in H.
  unfold bind at 1, createFreeflyerJoint at 1 in H.
  unfold bind at 1, getParser in H. rewrite He in H.
  cbn [SMap.find SMap.empty] in H.
  unfold register, bind at 1, modify at 1, ret at 1 in H.
  unfold bind at 1, modify at 1 in H.
  apply bind_Ret_inv in H. destruct H as ([] & q & Hr & H).
  unfold onRobot in Hr.
  cbn [robot_ set_rootJoint_ set_jointsMap_] in Hr.
  destruct (robot_ p) as [r |]; [| discriminate].
  inversion Hr as [Hq]; clear Hr. rewrite <- Hq in H. clear Hq q.
  unfold bind, getParser in H.
  cbn [model_ set_robot_ set_rootJoint_ set_jointsMap_] in H.
  destruct (parseJointsLoop_node _ _ _ _ H Hnd k j Hin)
    as (t & q & joint & node & Hp & Hj & Hn & Hf).
  { cbn [jointsMap_ set_robot_ set_rootJoint_ set_jointsMap_].
    rewrite find_insert_other by exact Hne. rewrite ?He. reflexivity. }
  cbn [model_ set_robot_ set_rootJoint_ set_jointsMap_] in Hj.
  unfold getJoint in Hj. rewrite (find_NoDup _ _ _ Hnd Hin) in Hj.
  injection Hj as <-.
  lazymatch type of Hp with
  | getPoseInReferenceFrame _ _ _ ?s = _ =>
      destruct (getPoseInReferenceFrame_sameGraph
                  fuel "base_footprint_joint" k s p t q)
        as [msgs Hp2]; [apply sameGraph_refl | exact Hp |]
  end.
  exists t. eexists. exists node. repeat split; eassumption.
Qed.

Lemma parseJoints_node_witness :
  exists t q node,
    getPoseInReferenceFrame 3 "base_footprint_joint" "j1"
                            (resetParser Arm.model) = Ret (t, q) /\
    nodeOfJoint "j1" joint122 (nodePosition joint122 t) = Some node /\
    SMap.find "j1" (jointsMap_ (afterParseJoints 3 Arm.model)) = Some node.
Proof.
  assert (He : jointsMap_ (resetParser Arm.model) = SMap.empty)
    by reflexivity.
  assert (Hnd : NoDup (map fst (joints_ (model_ (resetParser Arm.model))))).
  { cbn. repeat constructor; cbn; intuition discriminate. }
  assert (H : parseJoints 3 (resetParser Arm.model)
              = Ret (true, afterParseJoints 3 Arm.model))
    by (run; reflexivity).
  assert (Hin : In ("j1", Some joint122)
                   (joints_ (model_ (resetParser Arm.model))))
    by (cbn; auto).
  assert (Hne : "j1" <> "base_joint") by discriminate.
  exact (parseJoints_node 3 _ _ "j1" joint122 He Hnd H Hin Hne).
Defined.

(** ** Actuated joints after the joint creation loop *)

Lemma NoDup_map_filter {A B} (f : A -> B) (g : A -> bool) (l : list A) :
  NoDup (map f l) -> NoDup (map f (filter g l)).
Proof.
  induction l as [| a l IH]; intros H; [constructor |].
  inversion H as [| ? ? Ha Hl]; subst. cbn [filter].
  destruct (g a); [| now apply IH]. cbn [map]. constructor; [| now apply IH].
  intros Hin. apply Ha. apply in_map_iff in Hin.
  destruct Hin as (x & <- & Hx). apply in_map.
  now apply filter_In in Hx.
Qed.

(** The loop of [actuatedJoints], when every entry holds a joint, every
    entry that qualifies has a node and no name is visited twice: the
    names that qualify are appended in order. *)
Lemma actuatedJointsLoop_exact (p : Parser) :
  forall its jointsVect,
    (forall k v, In (k, v) its ->
       exists j, v = Some j /\
                 (qualifies (type j) = true ->
                  SMap.find k (jointsMap_ p) <> None)) ->
    NoDup (jointsVect ++ qualifyingNames its) ->
    actuatedJointsLoop its jointsVect p
    = Ret ((jointsVect ++ qualifyingNames its)%list, p).
Proof.
  induction its as [| [first second] rest IH]; intros jointsVect Hall Hnd.
  - cbn. unfold qualifyingNames. cbn. now rewrite app_nil_r.
  - destruct (Hall first second (or_introl eq_refl)) as (j & -> & Hreg).
    assert (Hrest : forall k v, In (k, v) rest ->
              exists j, v = Some j /\
                        (qualifies (type j) = true ->
                         SMap.find k (jointsMap_ p) <> None))
      by (intros k v Hin; apply Hall; now right).
    unfold qualifyingNames in *. cbn [filter snd] in *.
    cbn [actuatedJointsLoop].
    destruct (qualifies (type j)) eqn:Eq.
    + cbn [map fst] in *.
      assert (Hfresh : existsb (String.eqb first) jointsVect = false).
      { destruct (existsb (String.eqb first) jointsVect) eqn:E; [| reflexivity].
        apply existsb_exists in E. destruct E as (x & Hx & E).
        apply String.eqb_eq in E. subst x.
        apply NoDup_remove_2 in Hnd. elim Hnd. apply in_or_app. now left. }
      assert (Hstep : actuatedJointsLoop rest (jointsVect ++ [first]) p
                      = Ret ((jointsVect ++ first :: map fst
                                (filter (fun e => match snd e with
                                                  | Some j => qualifies (type j)
                                                  | None => false
                                                  end) rest))%list, p)).
      { rewrite (IH (jointsVect ++ [first])%list Hrest);
          rewrite <- app_assoc; [reflexivity | exact Hnd]. }
      destruct (SMap.find first (jointsMap_ p)) eqn:Ef;
        [| elim (Hreg eq_refl); reflexivity].
      unfold qualifies in Eq.
      destruct (type j); try discriminate;
        unfold bind, getParser; rewrite Ef, Hfresh; exact Hstep.
    + unfold qualifies in Eq.
      destruct (type j); try discriminate; now apply IH.
Qed.

(** X8. After [parseJoints] has succeeded from an empty registry on a
    graph whose entries have distinct names, [actuatedJoints] raises no
    error: it returns, in the order of the map, the names of the joints
    that are neither UNKNOWN, FLOATING nor FIXED, and leaves the parser as
    it is. *)
Theorem parseJoints_actuatedJoints (fuel : nat) (p p' : Parser) :
  jointsMap_ p = SMap.empty ->
  NoDup (map fst (joints_ (model_ p))) ->
  parseJoints fuel p = Ret (true, p') ->
  actuatedJoints p' = Ret (qualifyingNames (joints_ (model_ p)), p').
Proof.
  intros He Hnd H.
  destruct (parseJoints_keys fuel p p' He H) as (Hm & Hk & Hacc).
  unfold actuatedJoints, bind, getParser. rewrite Hm.
  apply (actuatedJointsLoop_exact p' (joints_ (model_ p)) []).
  - intros k v Hin. destruct (Hacc k v Hin) as (j & -> & _).
    exists j. split; [reflexivity |]. intros _. apply Hk. right.
    change k with (fst (k, Some j)). now apply in_map.
  - cbn [app]. now apply NoDup_map_filter.
Qed.

Lemma parseJoints_actuatedJoints_witness :
  actuatedJoints (afterParseJoints 3 Arm.model)
  = Ret (qualifyingNames (joints_ (model_ (resetParser Arm.model))),
         afterParseJoints 3 Arm.model).
Proof.
  assert (He : jointsMap_ (resetParser Arm.model) = SMap.empty)
    by reflexivity.
  assert (Hnd : NoDup (map fst (joints_ (model_ (resetParser Arm.model))))).
  { cbn. repeat constructor; cbn; intuition discriminate. }
  assert (H : parseJoints 3 (resetParser Arm.model)
              = Ret (true, afterParseJoints 3 Arm.model))
    by (run; reflexivity).
  exact (parseJoints_actuatedJoints 3 _ _ He Hnd H).
Defined.

(** ** Children of a joint *)

(** The loop of [getChildrenJoint] over child joints that are all
    registered appends their names and never recurses. *)
Lemma getChildrenJointLoop_all_registered
    (recurse : string -> list string -> M (bool * list string))
    (p : Parser) :
  forall jointChildren result,
    (forall j, In j jointChildren ->
               SMap.find (jname j) (jointsMap_ p) <> None) ->
    getChildrenJointLoop recurse jointChildren result p
    = Ret ((true, (result ++ map jname jointChildren)%list), p).
Proof.
  induction jointChildren as [| joint rest IH]; intros result Hall.
  - cbn. now rewrite app_nil_r.
  - cbn [getChildrenJointLoop]. unfold bind at 1, getParser.
    unfold SMap.count.
    destruct (SMap.find (jname joint) (jointsMap_ p)) eqn:E;
      [| elim (Hall joint (or_introl eq_refl)); exact E].
    cbn [Nat.ltb Nat.leb]. rewrite IH by (intros x Hx; apply Hall; now right).
    cbn [map]. now rewrite <- app_assoc.
Qed.

(** X9. When the child joints of the link that [getChildrenJoint] visits
    for a joint are all registered, the operation returns their names in
    the order of the link, and leaves the parser as it is. *)
Theorem getChildrenJoint_registered (fuel : nat) (p : Parser)
    (jointName : string) (l : UrdfLink) :
  childLinkOf (model_ p) jointName = Some l ->
  (forall j, In j (child_joints l) ->
             SMap.find (jname j) (jointsMap_ p) <> None) ->
  getChildrenJoint (S fuel) jointName p
  = Ret (map jname (child_joints l), p).
Proof.
  intros Hl Hall. unfold getChildrenJoint, childLinkOf in *.
  cbn [getChildrenJointInto]. unfold bind at 1. unfold bind at 1, getParser.
  destruct (jointName =? "base_joint") eqn:Eb.
  - rewrite Hl.
    destruct (getJoint (model_ p) jointName);
      rewrite getChildrenJointLoop_all_registered by exact Hall;
      reflexivity.
  - destruct (getJoint (model_ p) jointName) as [joint |]; [| discriminate].
    rewrite Hl.
    rewrite getChildrenJointLoop_all_registered by exact Hall.
    reflexivity.
Qed.

Lemma getChildrenJoint_registered_witness :
  getChildrenJoint 1 "base_joint" (afterParseJoints 3 Arm.model)
  = Ret (map jname (child_joints Arm.baseLink),
         afterParseJoints 3 Arm.model).
Proof.
  apply (getChildrenJoint_registered 0 (afterParseJoints 3 Arm.model)
           "base_joint" Arm.baseLink).
  - run. reflexivity.
  - intros j [<- | [<- | []]]; run; discriminate.
Defined.

(** X10. When the graph does not hold the link that [getChildrenJoint]
    visits for a joint (base_link for base_joint, the child link of a
    joint of the graph otherwise), the operation prints an error and then
    reads the child joints of the null link: it has no defined result. *)
Theorem getChildrenJoint_missing_link (fuel : nat) (p : Parser)
    (jointName : string) :
  childLinkOf (model_ p) jointName = None ->
  jointName = "base_joint" \/ getJoint (model_ p) jointName <> None ->
  getChildrenJoint (S fuel) jointName p = Undefined.
Proof.
  intros Hl Hj. unfold getChildrenJoint, childLinkOf in *.
  cbn [getChildrenJointInto]. unfold bind at 1. unfold bind at 1, getParser.
  destruct (jointName =? "base_joint") eqn:Eb.
  - rewrite Hl. destruct (getJoint (model_ p) jointName); reflexivity.
  - destruct Hj as [-> | Hj]; [discriminate |].
    destruct (getJoint (model_ p) jointName) as [j |]; [| now elim Hj].
    rewrite Hl. reflexivity.
Qed.

Lemma getChildrenJoint_missing_link_witness :
  getChildrenJoint 1 "base_joint" (resetParser Trunk.model) = Undefined.
Proof.
  apply (getChildrenJoint_missing_link 0 (resetParser Trunk.model)
           "base_joint").
  - reflexivity.
  - left. reflexivity.
Defined.

(** X11. A document whose decoded graph has no link named base_link gives
    no robot: [parseStream] returns the null robot when the joints are
    not accepted or the root link is missing, and otherwise
    [connectJoints] reads the child joints of the null link, so that the
    build has no defined result (or the recursion bound is reached before
    that). *)
Theorem parseStream_without_base_link
    (inverse Inversion : CkitMat4 -> CkitMat4)
    (loadPolyhedronFromResource : string -> vector3d -> bool)
    (getCapsule : R -> R -> vector3d * vector3d)
    (initString : string -> option ModelInterface)
    (fuel : nat) (doc : string) (p : Parser) (m : ModelInterface) :
  initString doc = Some m ->
  getLink m "base_link" = None ->
  givesNoRobot
    (parseStream inverse Inversion loadPolyhedronFromResource getCapsule
                 initString fuel doc p).
Proof.
  intros Hdoc Hbase.
  cut (exists o,
         parseStream inverse Inversion loadPolyhedronFromResource getCapsule
                     initString fuel doc p = o /\ givesNoRobot o).
  { intros (o & E & H). rewrite E. exact H. }
  unfold givesNoRobot, parseStream.
  do 4 (unfold bind at 1; unfold modify at 1).
  rewrite Hdoc. unfold bind at 1; unfold modify at 1.
  match goal with
  | |- context [bind findSpecialJoints _ ?s] =>
      destruct (findSpecialJoints_returns s) as (p1 & H1 & G1 & R1 & J1)
  end.
  unfold bind at 1. rewrite H1.
  cbn [model_ set_model_ robot_ set_robot_ jointsMap_ set_jointsMap_
       set_rootJoint_] in G1, R1, J1.
  unfold bind at 1.
  destruct (parseJoints fuel p1) as [[ok p2] | | msg |] eqn:HP;
    [| eexists; split; [reflexivity | now left]
     | eexists; split; [reflexivity | right; right; left; now exists msg]
     | eexists; split; [reflexivity | right; now left]].
  destruct ok; cbn [negb];
    [| eexists; split; [reflexivity |];
       right; right; right; eexists; split; reflexivity].
  destruct (parseJoints_root fuel p1 p2 J1 HP)
    as (Hroot & root & Hf & Hn & _ & _).
  destruct (parseJoints_keys fuel p1 p2 J1 HP) as (Hm & _ & _).
  unfold bind at 1, getParser.
  destruct (getRoot (model_ p2));
    [| eexists; split; [reflexivity |];
       right; right; right; eexists; split; reflexivity].
  rewrite Hroot. unfold bind at 1.
  destruct fuel as [| fuel];
    [eexists; split; [reflexivity | right; now left] |].
  cbn [connectJoints]. unfold bind at 1, deref at 1. rewrite Hf.
  unfold bind at 1. rewrite Hn.
  destruct fuel as [| fuel];
    [eexists; split; [reflexivity | right; now left] |].
  unfold getChildrenJoint. cbn [getChildrenJointInto].
  unfold bind at 1. unfold bind at 1, getParser.
  rewrite Hm. destruct G1 as [_ GL]. rewrite GL.
  change ("base_joint" =? "base_joint") with true. rewrite Hbase.
  destruct (getJoint (model_ p1) "base_joint");
    (eexists; split; [reflexivity | now left]).
Qed.

Lemma parseStream_without_base_link_witness :
  givesNoRobot (build 3 Trunk.model).
Proof.
  apply (parseStream_without_base_link rigidInverse rigidInverse loadAlways
           capsuleAlongX (decodeAs Trunk.model) 3 "" newParser Trunk.model);
    reflexivity.
Defined.

(** ** Positions of bodies, hands and feet *)

(** The frame of the axis z: the axes are permuted. *)
Lemma normalizeFrameOrientation_axis_z (j : UrdfJoint) :
  axis j = mkV3 0 0 1 ->
  normalizeFrameOrientation (Some j)
  = mkM4 0 1 0 0
         0 0 1 0
         1 0 0 0
         0 0 0 1.
Proof.
  intros H. unfold normalizeFrameOrientation. rewrite H.
  assert (E : normalize (mkV3 0 0 1) = mkV3 0 0 1).
  { unfold normalize, norm, dot; simpl.
    replace (0 * 0 + 0 * 0 + 1 * 1) with 1 by ring. rewrite sqrt_1.
    f_equal; field. }
  rewrite E.
  assert (S : smallestComponent (mkV3 0 0 1) = 0%nat).
  { rewrite smallestComponent_eq; simpl.
    rewrite Rabs_R0, Rabs_R1.
    destruct (Rlt_dec 0 0) as [H0 | _]; [lra |].
    destruct (Rlt_dec 1 0) as [H1 | _]; [lra | reflexivity]. }
  rewrite S. unfold cross, vset; simpl. apply mkM4_eq; ring.
Qed.

(** X12. [computeBodyAbsolutePosition] undoes the normalization of
    [parseJoints]: for a link other than base_link whose parent joint has
    a node at the position that [parseJoints] gives it from the pose [t],
    and an [inverse] that returns a right inverse of the normalized
    frame, the position of the body is [t] multiplied by the pose of the
    body in the joint, and the parser is left as it is. *)
Theorem computeBodyAbsolutePosition_denormalizes
    (inverse : CkitMat4 -> CkitMat4)
    (link : UrdfLink) (pose : Pose) (p : Parser)
    (parent : UrdfJoint) (node : Joint) (t : CkitMat4) :
  ((lname link =? "base_link") = false) ->
  parent_joint link = Some parent ->
  SMap.find (jname parent) (jointsMap_ p) = Some node ->
  currentPosition node = nodePosition parent t ->
  mul (normalizeFrameOrientation (Some parent))
      (inverse (normalizeFrameOrientation (Some parent))) = identity ->
  computeBodyAbsolutePosition inverse link pose p
  = Ret (mul t (poseToMatrix pose), p).
Proof.
  intros Hn Hp Hf Hc Hi. unfold computeBodyAbsolutePosition.
  rewrite Hn, Hp. unfold bind at 1, findJoint. unfold bind at 1, getParser.
  rewrite Hf. unfold ret at 1. unfold bind at 1, deref. rewrite Hf.
  unfold ret. rewrite Hc. unfold nodePosition.
  destruct (isActuatedType (type parent)); [| reflexivity].
  rewrite (mul_assoc t), Hi, mul_identity_r. reflexivity.
Qed.

Lemma computeBodyAbsolutePosition_denormalizes_witness :
  computeBodyAbsolutePosition rigidInverse AxisZ.link AxisZ.pose AxisZ.parser
  = Ret (mul (poseToMatrix (translation 4 5 6)) (poseToMatrix AxisZ.pose),
         AxisZ.parser).
Proof.
  apply (computeBodyAbsolutePosition_denormalizes rigidInverse AxisZ.link
           AxisZ.pose AxisZ.parser AxisZ.joint
           (createNode RotationJoint "j1"
              (nodePosition AxisZ.joint (poseToMatrix (translation 4 5 6))))
           (poseToMatrix (translation 4 5 6))).
  - reflexivity.
  - reflexivity.
  - reflexivity.
  - reflexivity.
  - rewrite (normalizeFrameOrientation_axis_z AxisZ.joint eq_refl).
    unfold rigidInverse, mul, identity; simpl. apply mkM4_eq; ring.
Defined.

(** The translation column and the columns of the rotation block of a
    product whose right factor has the last row (0, 0, 0, 1). *)
Lemma mul_trans3 (w x : CkitMat4) :
  m33 x = 1 -> trans3 (mul w x) = transform w (trans3 x).
Proof.
  intros H. unfold trans3, transform, add3, apply3, rot3, mul; simpl.
  rewrite H. f_equal; ring.
Qed.

Lemma mul_col3 (w x : CkitMat4) (i : nat) :
  m30 x = 0 -> m31 x = 0 -> m32 x = 0 ->
  col3 (rot3 (mul w x)) i = apply3 (rot3 w) (col3 (rot3 x) i).
Proof.
  intros H0 H1 H2.
  destruct i as [| [| i]]; unfold col3, apply3, rot3, mul; simpl;
    rewrite ?H0, ?H1, ?H2; f_equal; ring.
Qed.

Lemma affine_mul (a b : CkitMat4) : affine a -> affine b -> affine (mul a b).
Proof.
  unfold affine, mul; simpl.
  intros (A0 & A1 & A2 & A3) (B0 & B1 & B2 & B3).
  rewrite A0, A1, A2, A3, B0, B1, B2, B3. repeat split; ring.
Qed.

Lemma right_inverse_cancel (inv : CkitMat4 -> CkitMat4) (w h : CkitMat4) :
  mul w (inv w) = identity -> mul w (mul (inv w) h) = h.
Proof.
  intros H. now rewrite <- mul_assoc, H, mul_identity_l.
Qed.

(** X13. The vector that [computeAnklePositionInLocalFrame] returns is
    the origin of the ankle expressed in the frame of the foot: the
    position of the foot maps it to the origin of the ankle in the world,
    when [Inversion] gives a right inverse of the position of the foot
    with the last row (0, 0, 0, 1). *)
Theorem computeAnklePositionInLocalFrame_in_foot_frame
    (Inversion : CkitMat4 -> CkitMat4) (foot ankle : Joint) :
  mul (initialPosition foot) (Inversion (initialPosition foot)) = identity ->
  affine (Inversion (initialPosition foot)) ->
  m33 (initialPosition ankle) = 1 ->
  transform (initialPosition foot)
            (computeAnklePositionInLocalFrame Inversion foot ankle)
  = trans3 (initialPosition ankle).
Proof.
  intros Hi (A0 & A1 & A2 & A3) Ha. unfold computeAnklePositionInLocalFrame.
  rewrite <- mul_trans3.
  - now rewrite (right_inverse_cancel Inversion).
  - unfold mul; simpl. rewrite A0, A1, A2, A3, Ha. ring.
Qed.

Lemma computeAnklePositionInLocalFrame_in_foot_frame_witness :
  transform (initialPosition Limb.foot)
            (computeAnklePositionInLocalFrame rigidInverse
               Limb.foot Limb.ankle)
  = trans3 (initialPosition Limb.ankle).
Proof.
  apply (computeAnklePositionInLocalFrame_in_foot_frame rigidInverse
           Limb.foot Limb.ankle).
  - unfold rigidInverse, mul, identity; simpl. apply mkM4_eq; ring.
  - unfold affine; simpl. auto.
  - reflexivity.
Defined.

(** X14. The centre and the three axes that [computeHandsInformation]
    returns are those of the hand expressed in the frame of the wrist: the
    position of the wrist maps the centre to the origin of the hand in the
    world, and its rotation block maps the axes to the columns of the
    rotation of the hand, when [Inversion] gives a right inverse of the
    position of the wrist and both matrices have the last row
    (0, 0, 0, 1). *)
Theorem computeHandsInformation_in_wrist_frame
    (Inversion : CkitMat4 -> CkitMat4) (hand wrist : Joint) :
  mul (initialPosition wrist) (Inversion (initialPosition wrist))
  = identity ->
  affine (Inversion (initialPosition wrist)) ->
  affine (initialPosition hand) ->
  let '(center, thumbAxis, foreFingerAxis, palmNormal) :=
    computeHandsInformation Inversion hand wrist in
  transform (initialPosition wrist) center = trans3 (initialPosition hand) /\
  apply3 (rot3 (initialPosition wrist)) thumbAxis
  = col3 (rot3 (initialPosition hand)) 0 /\
  apply3 (rot3 (initialPosition wrist)) foreFingerAxis
  = col3 (rot3 (initialPosition hand)) 1 /\
  apply3 (rot3 (initialPosition wrist)) palmNormal
  = col3 (rot3 (initialPosition hand)) 2.
Proof.
  intros Hi Hw Hh. unfold computeHandsInformation.
  destruct (affine_mul _ _ Hw Hh) as (X0 & X1 & X2 & X3).
  pose proof (right_inverse_cancel Inversion _ (initialPosition hand) Hi)
    as Hc.
  rewrite <- mul_trans3 by exact X3.
  rewrite <- !mul_col3 by assumption.
  rewrite Hc. repeat split; reflexivity.
Qed.

Lemma computeHandsInformation_in_wrist_frame_witness :
  let '(center, thumbAxis, foreFingerAxis, palmNormal) :=
    computeHandsInformation rigidInverse Limb.hand Limb.wrist in
  transform (initialPosition Limb.wrist) center
  = trans3 (initialPosition Limb.hand) /\
  apply3 (rot3 (initialPosition Limb.wrist)) thumbAxis
  = col3 (rot3 (initialPosition Limb.hand)) 0 /\
  apply3 (rot3 (initialPosition Limb.wrist)) foreFingerAxis
  = col3 (rot3 (initialPosition Limb.hand)) 1 /\
  apply3 (rot3 (initialPosition Limb.wrist)) palmNormal
  = col3 (rot3 (initialPosition Limb.hand)) 2.
Proof.
  apply (computeHandsInformation_in_wrist_frame rigidInverse
           Limb.hand Limb.wrist).
  - unfold rigidInverse, mul, identity; simpl. apply mkM4_eq; ring.
  - unfold affine; simpl. auto.
  - unfold affine; simpl. auto.
Defined.

(** ** Names of the special joints *)

Lemma specialJointName_sameGraph (m m' : ModelInterface)
    (repName jointName : string) :
  sameGraph m m' ->
  specialJointName m' repName jointName = specialJointName m repName jointName.
Proof. intros [_ L]. unfold specialJointName. now rewrite L. Qed.

(** [findSpecialJoint] returns the name read in the graph, and changes
    the graph at most by a null entry of [links_]. *)
Lemma findSpecialJoint_value (repName jointName : string) (p : Parser) :
  exists m',
    findSpecialJoint repName jointName p
    = Ret (specialJointName (model_ p) repName jointName, set_model_ m' p) /\
    sameGraph (model_ p) m'.
Proof.
  unfold findSpecialJoint, specialJointName, getLink, bind, getParser.
  destruct (SMap.find repName (links_ (model_ p))) as [[l |] |] eqn:E.
  - destruct (parent_joint l); exists (model_ p);
      rewrite set_model_same; (split; [reflexivity | apply sameGraph_refl]).
  - exists (model_ p); rewrite set_model_same.
    split; [reflexivity | apply sameGraph_refl].
  - eexists. split; [reflexivity |]. split; [reflexivity |].
    intros n. unfold getLink. cbn [links_].
    destruct (String.eqb_spec n repName) as [-> | Hne].
    + now rewrite find_insert_same, E.
    + now rewrite find_insert_other.
Qed.

(** X15. [findSpecialJoints] always returns.  The waist is base_joint;
    each other role gets the name of the parent joint of its link
    (torso, l_wrist, r_wrist, l_gripper, r_gripper, l_ankle, r_ankle,
    l_sole, r_sole, gaze) as the graph had it on entry, and keeps the
    name that the parser already held when the graph has no such link or
    the link has no parent joint.  The joints and the links of the graph
    are as before. *)
Theorem findSpecialJoints_names (p : Parser) :
  exists p',
    findSpecialJoints p = Ret (tt, p') /\
    sameGraph (model_ p) (model_ p') /\
    waistJointName_ p' = "base_joint" /\
    chestJointName_ p'
    = specialJointName (model_ p) "torso" (chestJointName_ p) /\
    leftWristJointName_ p'
    = specialJointName (model_ p) "l_wrist" (leftWristJointName_ p) /\
    rightWristJointName_ p'
    = specialJointName (model_ p) "r_wrist" (rightWristJointName_ p) /\
    leftHandJointName_ p'
    = specialJointName (model_ p) "l_gripper" (leftHandJointName_ p) /\
    rightHandJointName_ p'
    = specialJointName (model_ p) "r_gripper" (rightHandJointName_ p) /\
    leftAnkleJointName_ p'
    = specialJointName (model_ p) "l_ankle" (leftAnkleJointName_ p) /\
    rightAnkleJointName_ p'
    = specialJointName (model_ p) "r_ankle" (rightAnkleJointName_ p) /\
    leftFootJointName_ p'
    = specialJointName (model_ p) "l_sole" (leftFootJointName_ p) /\
    rightFootJointName_ p'
    = specialJointName (model_ p) "r_sole" (rightFootJointName_ p) /\
    gazeJointName_ p'
    = specialJointName (model_ p) "gaze" (gazeJointName_ p).
Proof.
  unfold findSpecialJoints. unfold bind at 1, getParser.
  repeat match goal with
         | |- context [bind (findSpecialJoint ?r ?n) _ ?q] =>
             let m := fresh "m" in
             let H := fresh "H" in
             let G := fresh "G" in
             destruct (findSpecialJoint_value r n q) as (m & H & G);
             unfold bind at 1; rewrite H; clear H; cbn [model_ set_model_] in *
         end.
  eexists. split; [reflexivity |].
  cbn [model_ set_specialNames set_model_ waistJointName_ chestJointName_
       leftWristJointName_ rightWristJointName_ leftHandJointName_
       rightHandJointName_ leftAnkleJointName_ rightAnkleJointName_
       leftFootJointName_ rightFootJointName_ gazeJointName_].
  assert (T0 := G).
  assert (T1 := sameGraph_trans _ _ _ T0 G0).
  assert (T2 := sameGraph_trans _ _ _ T1 G1).
  assert (T3 := sameGraph_trans _ _ _ T2 G2).
  assert (T4 := sameGraph_trans _ _ _ T3 G3).
  assert (T5 := sameGraph_trans _ _ _ T4 G4).
  assert (T6 := sameGraph_trans _ _ _ T5 G5).
  assert (T7 := sameGraph_trans _ _ _ T6 G6).
  assert (T8 := sameGraph_trans _ _ _ T7 G7).
  assert (T9 := sameGraph_trans _ _ _ T8 G8).
  split; [exact T9 |]. split; [reflexivity |].
  rewrite (specialJointName_sameGraph _ _ "l_wrist" _ T0).
  rewrite (specialJointName_sameGraph _ _ "r_wrist" _ T1).
  rewrite (specialJointName_sameGraph _ _ "l_gripper" _ T2).
  rewrite (specialJointName_sameGraph _ _ "r_gripper" _ T3).
  rewrite (specialJointName_sameGraph _ _ "l_ankle" _ T4).
  rewrite (specialJointName_sameGraph _ _ "r_ankle" _ T5).
  rewrite (specialJointName_sameGraph _ _ "l_sole" _ T6).
  rewrite (specialJointName_sameGraph _ _ "r_sole" _ T7).
  rewrite (specialJointName_sameGraph _ _ "gaze" _ T8).
  repeat split; reflexivity.
Qed.

(** ** Tree assembler: what it changes *)

Lemma withChildren_same (a : Joint) : withChildren a (childJoints a) = a.
Proof. destruct a; reflexivity. Qed.

Lemma childrenExtended_refl (r : SMap.t Joint) : childrenExtended r r.
Proof.
  intros k. destruct (SMap.find k r) as [a |] eqn:E; [| reflexivity].
  exists []. split; [| intros c []].
  now rewrite app_nil_r, withChildren_same.
Qed.

Lemma childrenExtended_keys (r r' : SMap.t Joint) (c : string) :
  childrenExtended r r' ->
  (SMap.find c r <> None <-> SMap.find c r' <> None).
Proof.
  intros H. specialize (H c).
  destruct (SMap.find c r) as [a |].
  - destruct H as (s & -> & _). split; discriminate.
  - rewrite H. tauto.
Qed.

Lemma childrenExtended_trans (r1 r2 r3 : SMap.t Joint) :
  childrenExtended r1 r2 -> childrenExtended r2 r3 ->
  childrenExtended r1 r3.
Proof.
  intros H12 H23 k.
  pose proof (H12 k) as A. pose proof (H23 k) as B.
  destruct (SMap.find k r1) as [a |].
  - destruct A as (s1 & E2 & K1). rewrite E2 in B.
    destruct B as (s2 & E3 & K2).
    exists (s1 ++ s2)%list. split.
    + rewrite E3. unfold withChildren; cbn. now rewrite app_assoc.
    + intros c Hin. apply in_app_or in Hin. destruct Hin as [Hin | Hin].
      * now apply K1.
      * apply (childrenExtended_keys r1 r2 c H12). now apply K2.
  - rewrite A in B. exact B.
Qed.

Lemma childrenExtended_addChildJoint (r : SMap.t Joint) (n c : string)
    (a : Joint) :
  SMap.find n r = Some a -> SMap.find c r <> None ->
  childrenExtended r (SMap.insert n (addChildJoint c a) r).
Proof.
  intros Hn Hc k. destruct (String.eqb_spec k n) as [-> | Hne].
  - rewrite Hn, find_insert_same. exists [c]. split; [reflexivity |].
    intros x [<- | []]. exact Hc.
  - rewrite find_insert_other by exact Hne.
    destruct (SMap.find k r) as [b |]; [| reflexivity].
    exists []. split; [| intros x []].
    now rewrite app_nil_r, withChildren_same.
Qed.

Lemma connectJointsLoop_appends (recurse : option string -> M bool)
    (rootJoint : option string) :
  (forall j p b p',
      recurse j p = Ret (b, p') ->
      childrenExtended (jointsMap_ p) (jointsMap_ p')) ->
  forall children p b p',
    connectJointsLoop recurse rootJoint children p = Ret (b, p') ->
    childrenExtended (jointsMap_ p) (jointsMap_ p').
Proof.
  intros Hrec. induction children as [| c rest IH]; intros p b p' H.
  - cbn in H. injection H as _ <-. apply childrenExtended_refl.
  - cbn [connectJointsLoop] in H. unfold bind at 1, getParser in H.
    destruct (SMap.find c (jointsMap_ p)) as [node |] eqn:Ec;
      [| discriminate].
    apply bind_Ret_inv in H. destruct H as ([] & q & Hq & H).
    apply bind_Ret_inv in H. destruct H as (b' & q' & Hq' & H).
    unfold onJoint in Hq. destruct rootJoint as [n |]; [| discriminate].
    destruct (SMap.find n (jointsMap_ p)) as [a |] eqn:En; [| discriminate].
    injection Hq as <-.
    apply Hrec in Hq'. apply IH in H.
    cbn [jointsMap_ set_jointsMap_] in Hq'.
    refine (childrenExtended_trans _ _ _ _
              (childrenExtended_trans _ _ _ Hq' H)).
    apply childrenExtended_addChildJoint; [exact En |].
    rewrite Ec. discriminate.
Qed.

(** [connectJoints] only appends names of registered nodes to lists of
    children. *)
Lemma connectJoints_childrenExtended (fuel : nat) :
  forall rootJoint p b p',
    connectJoints fuel rootJoint p = Ret (b, p') ->
    childrenExtended (jointsMap_ p) (jointsMap_ p').
Proof.
  induction fuel as [| fuel IH]; intros rootJoint p b p' H;
    [discriminate |].
  cbn [connectJoints] in H.
  apply bind_Ret_inv in H. destruct H as (j & q & Hq & H).
  apply bind_Ret_inv in H. destruct H as (children & q' & Hq' & H).
  unfold deref in Hq. destruct rootJoint as [n |]; [| discriminate].
  destruct (SMap.find n (jointsMap_ p)); [| discriminate].
  injection Hq as _ <-.
  unfold getChildrenJoint in Hq'.
  apply bind_Ret_inv in Hq'. destruct Hq' as (r & q2 & Hr & E).
  injection E as _ <-.
  apply getChildrenJointInto_registered in Hr. destruct Hr as [Hr _].
  rewrite <- Hr.
  exact (connectJointsLoop_appends _ _ IH _ _ _ _ H).
Qed.

(** X16. [connectJoints] changes nothing but lists of children: when it
    returns, the graph is as before, the registry has the same keys, and
    each node is the node it was with names of registered nodes appended
    to its children. *)
Theorem connectJoints_appends (fuel : nat) :
  forall rootJoint p b p',
    connectJoints fuel rootJoint p = Ret (b, p') ->
    model_ p' = model_ p /\
    childrenExtended (jointsMap_ p) (jointsMap_ p').
Proof.
  intros rootJoint p b p' H. split.
  - exact (keepsModel_connectJoints fuel rootJoint p b p' H).
  - exact (connectJoints_childrenExtended fuel rootJoint p b p' H).
Qed.

Lemma connectJoints_appends_witness :
  exists p',
    connectJoints 3 (Some "base_joint") (afterParseJoints 3 Arm.model)
    = Ret (true, p') /\
    model_ p' = model_ (afterParseJoints 3 Arm.model) /\
    childrenExtended (jointsMap_ (afterParseJoints 3 Arm.model))
                     (jointsMap_ p').
Proof.
  eexists. split; [run; reflexivity |].
  eapply (connectJoints_appends 3 (Some "base_joint")
            (afterParseJoints 3 Arm.model) true).
  run; reflexivity.
Defined.

(** ** Positions of the registered nodes *)

Lemma affine_identity : affine identity.
Proof. unfold affine; simpl; auto. Qed.

Lemma affine_poseToMatrix (pose : Pose) : affine (poseToMatrix pose).
Proof. unfold affine; simpl; auto. Qed.

Lemma affine_normalizeFrameOrientation (j : option UrdfJoint) :
  affine (normalizeFrameOrientation j).
Proof. destruct j; unfold affine; simpl; auto. Qed.

(** Every pose that the resolver returns has the last row
    (0, 0, 0, 1). *)
Lemma getPoseInReferenceFrame_affine (fuel : nat) :
  forall reference current p t p',
    getPoseInReferenceFrame fuel reference current p = Ret (t, p') ->
    affine t.
Proof.
  induction fuel as [| fuel IH]; intros reference current p t p' H;
    [discriminate |].
  cbn [getPoseInReferenceFrame] in H. unfold bind at 1, getParser in H.
  destruct (reference =? current).
  - destruct (getJoint (model_ p) current); [| discriminate].
    injection H as <- _. apply affine_poseToMatrix.
  - destruct (getJoint (model_ p) current) as [j |].
    + destruct (getLink (model_ p) (parent_link_name j)) as [l |].
      * destruct (parent_joint l) as [pj |].
        -- apply bind_Ret_inv in H. destruct H as (t0 & q & H0 & H).
           injection H as <- _. apply affine_mul.
           ++ exact (IH _ _ _ _ _ H0).
           ++ apply affine_poseToMatrix.
        -- injection H as <- _. apply affine_poseToMatrix.
      * injection H as <- _. apply affine_poseToMatrix.
    + apply bind_Ret_inv in H. destruct H as (u & q & _ & H).
      injection H as <- _. apply affine_identity.
Qed.

(** ** Body attacher: what it changes *)

Lemma bodyAttached_refl (r : SMap.t Joint) : bodyAttached r r.
Proof.
  intros k. destruct (SMap.find k r) as [a |]; [| reflexivity].
  exists a. repeat split; auto.
Qed.

Lemma bodyAttached_trans (r1 r2 r3 : SMap.t Joint) :
  bodyAttached r1 r2 -> bodyAttached r2 r3 -> bodyAttached r1 r3.
Proof.
  intros H12 H23 k. pose proof (H12 k) as A. pose proof (H23 k) as B.
  destruct (SMap.find k r1) as [a |].
  - destruct A as (b & E & A1 & A2 & A3 & A4 & A5 & A6). rewrite E in B.
    destruct B as (c & E' & B1 & B2 & B3 & B4 & B5 & B6).
    exists c. repeat split; try congruence. auto.
  - rewrite A in B. exact B.
Qed.

Lemma keepsSkeleton_ret {A} (a : A) : keepsSkeleton (ret a).
Proof. intros p a' p' H. injection H as _ <-. apply bodyAttached_refl. Qed.

Lemma keepsSkeleton_bind {A B} (c : M A) (k : A -> M B) :
  keepsSkeleton c -> (forall a, keepsSkeleton (k a)) ->
  keepsSkeleton (bind c k).
Proof.
  intros Hc Hk p b p' H. apply bind_Ret_inv in H.
  destruct H as (a & q & H1 & H2).
  exact (bodyAttached_trans _ _ _ (Hc _ _ _ H1) (Hk _ _ _ _ H2)).
Qed.

Lemma keepsSkeleton_getParser : keepsSkeleton getParser.
Proof. intros p a p' H. injection H as _ <-. apply bodyAttached_refl. Qed.

Lemma keepsSkeleton_undefined {A} : keepsSkeleton (@undefined A).
Proof. intros p a p' H. discriminate. Qed.

Lemma keepsSkeleton_hppDout (l : Level) (msg : string) :
  keepsSkeleton (hppDout l msg).
Proof. intros p a p' H. injection H as _ <-. apply bodyAttached_refl. Qed.

Lemma keepsSkeleton_deref (j : option string) : keepsSkeleton (deref j).
Proof.
  intros p a p' H. unfold deref in H. destruct j; [| discriminate].
  destruct (SMap.find s (jointsMap_ p)); [| discriminate].
  injection H as _ <-. apply bodyAttached_refl.
Qed.

Lemma keepsSkeleton_findJoint (n : string) : keepsSkeleton (findJoint n).
Proof.
  intros p a p' H. unfold findJoint, bind, getParser in H.
  destruct (SMap.find n (jointsMap_ p)); injection H as _ <-;
    apply bodyAttached_refl.
Qed.

Lemma bodyAttached_insert (r : SMap.t Joint) (n : string) (a : Joint)
    (f : Joint -> Joint) :
  gentle f -> SMap.find n r = Some a ->
  bodyAttached r (SMap.insert n (f a) r).
Proof.
  intros Hf Hn k. destruct (String.eqb_spec k n) as [-> | Hne].
  - rewrite Hn, find_insert_same. exists (f a). split; [reflexivity |].
    apply Hf.
  - rewrite find_insert_other by exact Hne.
    destruct (SMap.find k r) as [b |]; [| reflexivity].
    exists b. repeat split; auto.
Qed.

Lemma keepsSkeleton_onJoint (j : option string) (f : Joint -> Joint) :
  gentle f -> keepsSkeleton (onJoint j f).
Proof.
  intros Hf p a p' H. unfold onJoint in H. destruct j as [n |];
    [| discriminate].
  destruct (SMap.find n (jointsMap_ p)) as [node |] eqn:E; [| discriminate].
  injection H as _ <-. cbn [jointsMap_ set_jointsMap_].
  now apply bodyAttached_insert.
Qed.

Lemma gentle_setLinkedBody (b : Body) : gentle (setLinkedBody b).
Proof. intros a. repeat split. discriminate. Qed.

Lemma gentle_addSolidComponentRef (c : SolidComponent) :
  gentle (addSolidComponentRef c).
Proof. intros a. repeat split. auto. Qed.

Lemma gentle_setBodyName (n : string) : gentle (setBodyName n).
Proof. intros a. repeat split. auto. Qed.

(** Decomposition of an operation into the steps above. *)
Ltac skeleton :=
  repeat first
    [ assumption
    | apply keepsSkeleton_ret
    | apply keepsSkeleton_getParser
    | apply keepsSkeleton_undefined
    | apply keepsSkeleton_hppDout
    | apply keepsSkeleton_deref
    | apply keepsSkeleton_findJoint
    | apply keepsSkeleton_onJoint;
        first [ apply gentle_setLinkedBody
              | apply gentle_addSolidComponentRef
              | apply gentle_setBodyName ]
    | apply keepsSkeleton_bind; [| intros ?]
    | match goal with
      | |- keepsSkeleton (match ?x with _ => _ end) => destruct x
      | |- keepsSkeleton (if ?b then _ else _) => destruct b
      end ].

Lemma keepsSkeleton_computeBodyAbsolutePosition
    (inverse : CkitMat4 -> CkitMat4) (link : UrdfLink) (pose : Pose) :
  keepsSkeleton (computeBodyAbsolutePosition inverse link pose).
Proof. unfold computeBodyAbsolutePosition. skeleton. Qed.

Lemma keepsSkeleton_addSolidComponentToJoint
    (inverse : CkitMat4 -> CkitMat4)
    (loadPolyhedronFromResource : string -> vector3d -> bool)
    (getCapsule : R -> R -> vector3d * vector3d)
    (link : UrdfLink) (joint : option string) :
  keepsSkeleton (addSolidComponentToJoint inverse loadPolyhedronFromResource
                                          getCapsule link joint).
Proof.
  unfold addSolidComponentToJoint. skeleton;
    apply keepsSkeleton_computeBodyAbsolutePosition.
Qed.

Lemma keepsSkeleton_bodyOfLink (inverse : CkitMat4 -> CkitMat4)
    (first childLinkName : string) (link : UrdfLink) :
  keepsSkeleton (bodyOfLink inverse first childLinkName link).
Proof. unfold bodyOfLink. skeleton. Qed.

Lemma keepsSkeleton_addBodiesLoop
    (inverse : CkitMat4 -> CkitMat4)
    (loadPolyhedronFromResource : string -> vector3d -> bool)
    (getCapsule : R -> R -> vector3d * vector3d) :
  forall keys,
    keepsSkeleton (addBodiesLoop inverse loadPolyhedronFromResource
                                 getCapsule keys).
Proof.
  induction keys as [| first rest IH]; cbn [addBodiesLoop]; skeleton;
    first [ apply keepsSkeleton_bodyOfLink
          | apply keepsSkeleton_addSolidComponentToJoint ].
Qed.

Lemma find_keys {V} (k : string) (m : SMap.t V) :
  SMap.find k m <> None -> In k (SMap.keys m).
Proof.
  unfold SMap.keys. induction m as [| [k' v] m IH]; cbn; [tauto |].
  destruct (String.eqb_spec k k') as [-> | _]; auto.
Qed.

(** The loop of [addBodiesToJoints], when it succeeds: every key that it
    visits and that is base_joint or the name of a joint of the graph has
    a node with a body afterwards. *)
Lemma addBodiesLoop_attaches
    (inverse : CkitMat4 -> CkitMat4)
    (loadPolyhedronFromResource : string -> vector3d -> bool)
    (getCapsule : R -> R -> vector3d * vector3d) :
  forall keys p p',
    addBodiesLoop inverse loadPolyhedronFromResource getCapsule keys p
    = Ret (true, p') ->
    forall k, In k keys ->
      k = "base_joint" \/ getJoint (model_ p) k <> None ->
      exists node, SMap.find k (jointsMap_ p') = Some node /\
                   linkedBody node <> None.
Proof.
  induction keys as [| first rest IH]; intros p p' H k Hin Hk;
    [destruct Hin |].
  cbn [addBodiesLoop] in H. unfold bind at 1, getParser in H.
  assert (Hskip : getJoint (model_ p) first = None ->
                  (first =? "base_joint") = false ->
                  addBodiesLoop inverse loadPolyhedronFromResource getCapsule
                                rest p = Ret (true, p') ->
                  exists node, SMap.find k (jointsMap_ p') = Some node /\
                               linkedBody node <> None).
  { intros Ej Eb H'. destruct Hin as [<- | Hin]; [| now apply (IH p p' H')].
    destruct Hk as [-> | Hk]; [discriminate | contradiction]. }
  assert (Hstep :
    forall childLinkName,
      match getLink (model_ p) childLinkName with
      | None =>
          (hppDout error
             ("Link " ++ childLinkName
                ++ " not found, inconsistent model") ;;
           ret false)
      | Some link =>
          (jrlBody <- bodyOfLink inverse first childLinkName link ;;
           onJoint (Some first) (setLinkedBody jrlBody) ;;
           match visual link, collision link with
           | Some _, Some _ =>
               ok <- addSolidComponentToJoint inverse
                       loadPolyhedronFromResource getCapsule link
                       (Some first) ;;
               if ok then
                 onJoint (Some first) (setBodyName childLinkName) ;;
                 addBodiesLoop inverse loadPolyhedronFromResource getCapsule
                               rest
               else
                 hppDout error
                   "Could not add solid component to joint." ;;
                 ret false
           | _, _ =>
               addBodiesLoop inverse loadPolyhedronFromResource getCapsule
                             rest
           end)
      end p = Ret (true, p') ->
      exists node, SMap.find k (jointsMap_ p') = Some node /\
                   linkedBody node <> None).
  { intros childLinkName H'.
    destruct (getLink (model_ p) childLinkName) as [link |];
      [| discriminate].
    apply bind_Ret_inv in H'. destruct H' as (body & q1 & Hb & H').
    apply bind_Ret_inv in H'. destruct H' as ([] & q2 & Hl & H').
    pose proof (keepsModel_bodyOfLink _ _ _ _ _ _ _ Hb) as M1.
    pose proof (keepsModel_onJoint _ _ _ _ _ Hl) as M2.
    assert (Hfirst : exists a, SMap.find first (jointsMap_ q2) = Some a /\
                               linkedBody a <> None).
    { unfold onJoint in Hl.
      destruct (SMap.find first (jointsMap_ q1)) as [a |]; [| discriminate].
      injection Hl as <-. cbn [jointsMap_ set_jointsMap_].
      rewrite find_insert_same. eexists. split; [reflexivity |].
      discriminate. }
    assert (Htail :
      exists q3,
        bodyAttached (jointsMap_ q2) (jointsMap_ q3) /\
        model_ q3 = model_ q2 /\
        addBodiesLoop inverse loadPolyhedronFromResource getCapsule rest q3
        = Ret (true, p')).
    { destruct (visual link), (collision link);
        try (exists q2; split; [apply bodyAttached_refl |];
             split; [reflexivity | exact H']).
      apply bind_Ret_inv in H'. destruct H' as (ok & q3 & Hs & H').
      destruct ok; [| discriminate].
      apply bind_Ret_inv in H'. destruct H' as ([] & q4 & Hn & H').
      exists q4. split; [| split; [| exact H']].
      - exact (bodyAttached_trans _ _ _
                 (keepsSkeleton_addSolidComponentToJoint _ _ _ _ _ _ _ _ Hs)
                 (keepsSkeleton_onJoint _ _ (gentle_setBodyName _) _ _ _ Hn)).
      - rewrite (keepsModel_onJoint _ _ _ _ _ Hn).
        exact (keepsModel_addSolidComponentToJoint _ _ _ _ _ _ _ _ Hs). }
    destruct Htail as (q3 & B3 & M3 & Hrest).
    destruct Hin as [<- | Hin].
    - destruct Hfirst as (a & Ea & La).
      pose proof (bodyAttached_trans _ _ _ B3
                    (keepsSkeleton_addBodiesLoop _ _ _ _ _ _ _ Hrest) first)
        as B.
      rewrite Ea in B. destruct B as (b & Eb & _ & _ & _ & _ & _ & Lb).
      exists b. auto.
    - apply (IH q3 p' Hrest k Hin).
      rewrite M3, M2, M1. exact Hk. }
  destruct (getJoint (model_ p) first) as [j |] eqn:Ej;
    destruct (first =? "base_joint") eqn:Eb.
  - exact (Hstep _ H).
  - exact (Hstep _ H).
  - exact (Hstep _ H).
  - now apply Hskip.
Qed.

(** X17. When [addBodiesToJoints] succeeds, every registered node that
    is base_joint or bears the name of a joint of the graph has a body.
    The registry has the same keys as before, and the name, the kind,
    the position, the bounds and the children of every node are as they
    were; the graph is unchanged. *)
Theorem addBodiesToJoints_attaches
    (inverse : CkitMat4 -> CkitMat4)
    (loadPolyhedronFromResource : string -> vector3d -> bool)
    (getCapsule : R -> R -> vector3d * vector3d)
    (p p' : Parser) :
  addBodiesToJoints inverse loadPolyhedronFromResource getCapsule p
  = Ret (true, p') ->
  model_ p' = model_ p /\
  bodyAttached (jointsMap_ p) (jointsMap_ p') /\
  forall k, SMap.find k (jointsMap_ p) <> None ->
    k = "base_joint" \/ getJoint (model_ p) k <> None ->
    exists node, SMap.find k (jointsMap_ p') = Some node /\
                 linkedBody node <> None.
Proof.
  intros H. unfold addBodiesToJoints, bind, getParser in H.
  split; [exact (keepsModel_addBodiesLoop _ _ _ _ _ _ _ H) |].
  split; [exact (keepsSkeleton_addBodiesLoop _ _ _ _ _ _ _ H) |].
  intros k Hf Hk.
  exact (addBodiesLoop_attaches _ _ _ _ _ _ H k (find_keys _ _ Hf) Hk).
Qed.

Lemma addBodiesToJoints_attaches_witness :
  exists p',
    addBodiesToJoints rigidInverse loadAlways capsuleAlongX
                      (afterParseJoints 3 Arm.model) = Ret (true, p') /\
    model_ p' = model_ (afterParseJoints 3 Arm.model) /\
    bodyAttached (jointsMap_ (afterParseJoints 3 Arm.model))
                 (jointsMap_ p') /\
    forall k,
      SMap.find k (jointsMap_ (afterParseJoints 3 Arm.model)) <> None ->
      k = "base_joint"
      \/ getJoint (model_ (afterParseJoints 3 Arm.model)) k <> None ->
      exists node, SMap.find k (jointsMap_ p') = Some node /\
                   linkedBody node <> None.
Proof.
  eexists. split; [run; reflexivity |].
  eapply (addBodiesToJoints_attaches rigidInverse loadAlways capsuleAlongX
            (afterParseJoints 3 Arm.model)).
  run; reflexivity.
Defined.

(** ** Positions of the registered nodes, continued *)

Lemma nodeOfJoint_position (first : string) (second : UrdfJoint)
    (position : CkitMat4) (node : Joint) :
  nodeOfJoint first second position = Some node ->
  currentPosition node = position.
Proof.
  unfold nodeOfJoint. destruct (type second); intros H;
    try discriminate; injection H as <-;
    try reflexivity; destruct (limits second); reflexivity.
Qed.

Lemma parseJointsLoop_affine (fuel : nat) :
  forall its p p',
    parseJointsLoop fuel its p = Ret (true, p') ->
    affinePositions (jointsMap_ p) -> affinePositions (jointsMap_ p').
Proof.
  induction its as [| [first second] rest IH]; intros p p' H Ha.
  - cbn in H. now injection H as <-.
  - apply parseJointsLoop_turn in H.
    destruct H as (t & q & joint & s & node & q' & Hp & _ & _ & Hn & _ & Hc & H).
    apply (IH _ _ H). destruct Hc as [[_ ->] | [_ ->]]; [| exact Ha].
    intros k x. destruct (String.eqb_spec k first) as [-> | Hne].
    + rewrite find_insert_same. intros E. injection E as <-.
      rewrite (nodeOfJoint_position _ _ _ _ Hn). unfold nodePosition.
      pose proof (getPoseInReferenceFrame_affine _ _ _ _ _ _ Hp) as At.
      destruct (isActuatedType (type joint)); [| exact At].
      apply affine_mul; [exact At |].
      apply affine_normalizeFrameOrientation.
    + rewrite find_insert_other by exact Hne. apply Ha.
Qed.

(** X18. When [parseJoints] succeeds from an empty registry, the position
    of every registered node is a homogeneous matrix of last row
    (0, 0, 0, 1), as the operations on hands and feet expect of the
    positions they read. *)
Theorem parseJoints_positions_affine (fuel : nat) (p p' : Parser) :
  jointsMap_ p = SMap.empty ->
  parseJoints fuel p = Ret (true, p') ->
  affinePositions (jointsMap_ p').
Proof.
  intros He H. unfold parseJoints in H.
  unfold bind at 1, createFreeflyerJoint at 1 in H.
  unfold bind at 1, getParser in H. rewrite He in H.
  cbn [SMap.find SMap.empty] in H.
  unfold register, bind at 1, modify at 1, ret at 1 in H.
  unfold bind at 1, modify at 1 in H.
  apply bind_Ret_inv in H. destruct H as ([] & q & Hr & H).
  unfold onRobot in Hr.
  cbn [robot_ set_rootJoint_ set_jointsMap_] in Hr.
  destruct (robot_ p) as [r |]; [| discriminate].
  inversion Hr as [Hq]; clear Hr. rewrite <- Hq in H. clear Hq q.
  unfold bind, getParser in H.
  apply (parseJointsLoop_affine _ _ _ _ H).
  cbn [jointsMap_ set_robot_ set_rootJoint_ set_jointsMap_]. rewrite ?He.
  intros k x. destruct (String.eqb_spec k "base_joint") as [-> | Hne].
  - rewrite find_insert_same. intros E. injection E as <-.
    apply affine_identity.
  - rewrite find_insert_other by exact Hne. discriminate.
Qed.

Lemma parseJoints_positions_affine_witness :
  affinePositions (jointsMap_ (afterParseJoints 3 Arm.model)).
Proof.
  apply (parseJoints_positions_affine 3 (resetParser Arm.model)).
  - reflexivity.
  - run; reflexivity.
Defined.

(** ** The build starts from a reset parser *)

(** X19. [parseStream] resets the graph, the robot, the root joint and
    the registry before it reads the document: its result does not depend
    on what the parser held there. *)
Theorem parseStream_resets
    (inverse Inversion : CkitMat4 -> CkitMat4)
    (loadPolyhedronFromResource : string -> vector3d -> bool)
    (getCapsule : R -> R -> vector3d * vector3d)
    (initString : string -> option ModelInterface)
    (fuel : nat) (doc : string) (p : Parser)
    (m : ModelInterface) (r : option HumanoidRobot)
    (rootJoint : option string) (registry : SMap.t Joint) :
  parseStream inverse Inversion loadPolyhedronFromResource getCapsule
              initString fuel doc
              (set_jointsMap_ registry
                 (set_rootJoint_ rootJoint (set_robot_ r (set_model_ m p))))
  = parseStream inverse Inversion loadPolyhedronFromResource getCapsule
                initString fuel doc p.
Proof.
  unfold parseStream.
  do 4 (unfold bind at 1; unfold modify at 1).
  symmetry. do 4 (unfold bind at 1; unfold modify at 1).
  reflexivity.
Qed.

(** ** The build: what a returned robot comes with *)

Lemma bodiesKept_refl (r : SMap.t Joint) : bodiesKept r r.
Proof.
  intros k. destruct (SMap.find k r) as [a |]; [| reflexivity].
  exists a. auto.
Qed.

Lemma bodiesKept_trans (r1 r2 r3 : SMap.t Joint) :
  bodiesKept r1 r2 -> bodiesKept r2 r3 -> bodiesKept r1 r3.
Proof.
  intros H12 H23 k. pose proof (H12 k) as A. pose proof (H23 k) as B.
  destruct (SMap.find k r1) as [a |].
  - destruct A as (b & E & A1). rewrite E in B.
    destruct B as (c & E' & B1). exists c. auto.
  - rewrite A in B. exact B.
Qed.

Lemma bodiesKept_keys (r r' : SMap.t Joint) (k : string) :
  bodiesKept r r' -> (SMap.find k r' <> None <-> SMap.find k r <> None).
Proof.
  intros H. specialize (H k). destruct (SMap.find k r) as [a |].
  - destruct H as (b & -> & _). split; discriminate.
  - rewrite H. tauto.
Qed.

Lemma bodiesKept_body (r r' : SMap.t Joint) (k : string) :
  bodiesKept r r' ->
  (exists a, SMap.find k r = Some a /\ linkedBody a <> None) ->
  exists b, SMap.find k r' = Some b /\ linkedBody b <> None.
Proof.
  intros H (a & Ea & La). specialize (H k). rewrite Ea in H.
  destruct H as (b & Eb & Lb). exists b. auto.
Qed.

Lemma childrenExtended_bodiesKept (r r' : SMap.t Joint) :
  childrenExtended r r' -> bodiesKept r r'.
Proof.
  intros H k. specialize (H k). destruct (SMap.find k r) as [a |];
    [| exact H].
  destruct H as (s & E & _). eexists. split; [exact E |]. auto.
Qed.

Lemma bodyAttached_bodiesKept (r r' : SMap.t Joint) :
  bodyAttached r r' -> bodiesKept r r'.
Proof.
  intros H k. specialize (H k). destruct (SMap.find k r) as [a |];
    [| exact H].
  destruct H as (b & E & _ & _ & _ & _ & _ & L). exists b. auto.
Qed.

Lemma keepsRegistry_ret {A} (a : A) : keepsRegistry (ret a).
Proof. intros p a' p' H. now injection H as _ <-. Qed.

Lemma keepsRegistry_bind {A B} (c : M A) (k : A -> M B) :
  keepsRegistry c -> (forall a, keepsRegistry (k a)) ->
  keepsRegistry (bind c k).
Proof.
  intros Hc Hk p b p' H. apply bind_Ret_inv in H.
  destruct H as (a & q & H1 & H2).
  rewrite (Hk _ _ _ _ H2). exact (Hc _ _ _ H1).
Qed.

Lemma keepsRegistry_getParser : keepsRegistry getParser.
Proof. intros p a p' H. now injection H as _ <-. Qed.

Lemma keepsRegistry_undefined {A} : keepsRegistry (@undefined A).
Proof. intros p a p' H. discriminate. Qed.

Lemma keepsRegistry_throw {A} (msg : string) : keepsRegistry (@throw A msg).
Proof. intros p a p' H. discriminate. Qed.

Lemma keepsRegistry_hppDout (l : Level) (msg : string) :
  keepsRegistry (hppDout l msg).
Proof. intros p a p' H. now injection H as _ <-. Qed.

Lemma keepsRegistry_onRobot (c : RobotCall) : keepsRegistry (onRobot c).
Proof.
  intros p a p' H. unfold onRobot in H.
  destruct (robot_ p); [| discriminate]. now injection H as _ <-.
Qed.

Lemma keepsRegistry_findJoint (n : string) : keepsRegistry (findJoint n).
Proof.
  intros p a p' H. unfold findJoint, bind, getParser in H.
  destruct (SMap.find n (jointsMap_ p)); now injection H as _ <-.
Qed.

(** Decomposition of an operation into the steps above. *)
Ltac registry :=
  repeat first
    [ assumption
    | apply keepsRegistry_ret
    | apply keepsRegistry_getParser
    | apply keepsRegistry_undefined
    | apply keepsRegistry_throw
    | apply keepsRegistry_hppDout
    | apply keepsRegistry_onRobot
    | apply keepsRegistry_findJoint
    | apply keepsRegistry_bind; [| intros ?]
    | match goal with
      | |- keepsRegistry (match ?x with _ => _ end) => destruct x
      | |- keepsRegistry (if ?b then _ else _) => destruct b
      | |- keepsRegistry (let '(_, _) := ?x in _) => destruct x
      end ].

Lemma keepsRegistry_setSpecialJoints : keepsRegistry setSpecialJoints.
Proof. unfold setSpecialJoints, setSpecialJoint. registry. Qed.

Lemma keepsRegistry_actuatedJointsLoop :
  forall its jointsVect, keepsRegistry (actuatedJointsLoop its jointsVect).
Proof.
  induction its as [| [first [second |]] rest IH]; intros jointsVect;
    cbn [actuatedJointsLoop]; registry; apply IH.
Qed.

Lemma keepsRegistry_fillGaze : keepsRegistry fillGaze.
Proof. unfold fillGaze. registry. Qed.

Lemma keepsRegistry_fillHandsAndFeet (Inversion : CkitMat4 -> CkitMat4) :
  keepsRegistry (fillHandsAndFeet Inversion).
Proof. unfold fillHandsAndFeet, fillHand, fillFoot. registry. Qed.

(** [setFreeFlyerBounds] changes the bounds of one node. *)
Lemma setFreeFlyerBounds_bodiesKept (p p' : Parser) (u : unit) :
  setFreeFlyerBounds p = Ret (u, p') ->
  bodiesKept (jointsMap_ p) (jointsMap_ p').
Proof.
  intros H. unfold setFreeFlyerBounds in H.
  apply bind_Ret_inv in H. destruct H as (rootJoint & q & Hq & H).
  unfold getRootJoint in Hq. destruct (robot_ p); [| discriminate].
  injection Hq as _ <-.
  unfold onJoint in H. destruct rootJoint as [n |]; [| discriminate].
  destruct (SMap.find n (jointsMap_ p)) as [a |] eqn:E; [| discriminate].
  injection H as _ <-. cbn [jointsMap_ set_jointsMap_].
  intros k. destruct (String.eqb_spec k n) as [-> | Hne].
  - rewrite E, find_insert_same. eexists. split; [reflexivity |].
    cbn. auto.
  - rewrite find_insert_other by exact Hne.
    destruct (SMap.find k (jointsMap_ p)) as [b |]; [| reflexivity].
    exists b. auto.
Qed.

Lemma keys_find {V} (k : string) (m : SMap.t V) :
  In k (map fst m) -> SMap.find k m <> None.
Proof.
  induction m as [| [k' v] m IH]; cbn; [tauto |].
  destruct (String.eqb_spec k k') as [-> | Hne]; [discriminate |].
  intros [E | Hin]; [congruence | now apply IH].
Qed.

(** X20. When [parseStream] returns a robot for a document, the robot is
    the one the parser holds, the graph of the parser has the joints and
    the links of the decoded graph, the keys of the registry are
    base_joint and the joint names of the graph, and each of these nodes
    has a body. *)
Theorem parseStream_success_registry
    (inverse Inversion : CkitMat4 -> CkitMat4)
    (loadPolyhedronFromResource : string -> vector3d -> bool)
    (getCapsule : R -> R -> vector3d * vector3d)
    (initString : string -> option ModelInterface)
    (fuel : nat) (doc : string) (p0 p : Parser) (r : HumanoidRobot)
    (m : ModelInterface) :
  initString doc = Some m ->
  parseStream inverse Inversion loadPolyhedronFromResource getCapsule
              initString fuel doc p0 = Ret (Some r, p) ->
  robot_ p = Some r /\
  sameGraph m (model_ p) /\
  (forall k, SMap.find k (jointsMap_ p) <> None <->
             (k = "base_joint" \/ In k (map fst (joints_ m)))) /\
  (forall k, k = "base_joint" \/ In k (map fst (joints_ m)) ->
             exists node, SMap.find k (jointsMap_ p) = Some node /\
                          linkedBody node <> None).
Proof.
  intros Hdoc H. unfold parseStream in H.
  do 4 (unfold bind at 1 in H; unfold modify at 1 in H).
  rewrite Hdoc in H. unfold bind at 1 in H; unfold modify at 1 in H.
  match type of H with
  | context [bind findSpecialJoints _ ?s] =>
      destruct (findSpecialJoints_returns s) as (p1 & H1 & G1 & R1 & J1)
  end.
  unfold bind at 1 in H. rewrite H1 in H. clear H1.
  cbn [model_ set_model_ robot_ set_robot_ jointsMap_ set_jointsMap_
       set_rootJoint_] in G1, R1, J1.
  apply bind_Ret_inv in H. destruct H as (ok & p2 & Hparse & H).
  destruct ok; [| discriminate]. cbn [negb] in H.
  unfold bind at 1, getParser in H.
  destruct (getRoot (model_ p2)); [| discriminate].
  apply bind_Ret_inv in H. destruct H as (ok & q1 & Hconn & H).
  destruct ok; [| discriminate]. cbn [negb] in H.
  apply bind_Ret_inv in H. destruct H as ([] & q2 & Hspec & H).
  apply bind_Ret_inv in H. destruct H as (ok & q3 & Hbodies & H).
  destruct ok; [| discriminate]. cbn [negb] in H.
  apply bind_Ret_inv in H. destruct H as ([] & q4 & Hinit & H).
  apply bind_Ret_inv in H. destruct H as (act & q5 & Hact & H).
  apply bind_Ret_inv in H. destruct H as ([] & q6 & Hset & H).
  apply bind_Ret_inv in H. destruct H as ([] & q7 & Hgaze & H).
  apply bind_Ret_inv in H. destruct H as ([] & q8 & Hhf & H).
  apply bind_Ret_inv in H. destruct H as ([] & q9 & Hsteer & H).
  apply bind_Ret_inv in H. destruct H as ([] & q10 & Hffb & H).
  unfold bind, getParser, ret in H. injection H as Hr <-.
  (* the graph *)
  destruct (parseJoints_keys fuel p1 p2 J1 Hparse) as (M2 & K2 & A2).
  pose proof (keepsModel_connectJoints _ _ _ _ _ Hconn) as M3.
  pose proof (keepsModel_setSpecialJoints _ _ _ Hspec) as M4.
  unfold addBodiesToJoints, bind, getParser in Hbodies.
  pose proof (keepsModel_addBodiesLoop _ _ _ _ _ _ _ Hbodies) as M5.
  pose proof (keepsModel_onRobot _ _ _ _ Hinit) as M6.
  unfold actuatedJoints, bind, getParser in Hact.
  pose proof (keepsModel_actuatedJointsLoop _ _ _ _ _ Hact) as M7.
  pose proof (keepsModel_onRobot _ _ _ _ Hset) as M8.
  pose proof (keepsModel_fillGaze _ _ _ Hgaze) as M9.
  pose proof (keepsModel_fillHandsAndFeet _ _ _ _ Hhf) as M10.
  pose proof (keepsModel_onRobot _ _ _ _ Hsteer) as M11.
  pose proof (keepsModel_setFreeFlyerBounds _ _ _ Hffb) as M12.
  assert (Mq2 : model_ q2 = model_ p1) by congruence.
  assert (Mfinal : model_ q10 = model_ p1) by congruence.
  (* the registry *)
  pose proof (connectJoints_childrenExtended _ _ _ _ _ Hconn) as B1.
  apply childrenExtended_bodiesKept in B1.
  pose proof (keepsRegistry_setSpecialJoints _ _ _ Hspec) as E2.
  pose proof (keepsSkeleton_addBodiesLoop _ _ _ _ _ _ _ Hbodies) as B3.
  apply bodyAttached_bodiesKept in B3.
  pose proof (keepsRegistry_onRobot _ _ _ _ Hinit) as E4.
  pose proof (keepsRegistry_actuatedJointsLoop _ _ _ _ _ Hact) as E5.
  pose proof (keepsRegistry_onRobot _ _ _ _ Hset) as E6.
  pose proof (keepsRegistry_fillGaze _ _ _ Hgaze) as E7.
  pose proof (keepsRegistry_fillHandsAndFeet _ _ _ _ Hhf) as E8.
  pose proof (keepsRegistry_onRobot _ _ _ _ Hsteer) as E9.
  pose proof (setFreeFlyerBounds_bodiesKept _ _ _ Hffb) as B10.
  assert (E39 : jointsMap_ q9 = jointsMap_ q3) by congruence.
  rewrite E39 in B10. rewrite E2 in B3.
  pose proof (bodiesKept_trans _ _ _ B1 B3) as B13.
  split; [exact Hr |]. split; [now rewrite Mfinal |].
  assert (Hnames : joints_ (model_ p1) = joints_ m) by apply G1.
  rewrite Hnames in K2.
  split.
  - intros k. rewrite (bodiesKept_keys _ _ k B10).
    rewrite (bodiesKept_keys _ _ k B13). apply K2.
  - intros k Hk.
    apply (bodiesKept_body _ _ k B10).
    apply (addBodiesLoop_attaches _ _ _ _ _ _ Hbodies k).
    + apply find_keys. rewrite E2.
      apply (bodiesKept_keys _ _ k B1). now apply K2.
    + destruct Hk as [-> | Hk]; [now left | right].
      rewrite Mq2. unfold getJoint. rewrite Hnames.
      pose proof (keys_find k (joints_ m) Hk) as Hf.
      destruct (SMap.find k (joints_ m)) as [v |] eqn:Ef; [| now elim Hf].
      apply find_In in Ef. rewrite <- Hnames in Ef.
      destruct (A2 k v Ef) as (j & -> & _). discriminate.
Qed.

Lemma parseStream_success_registry_witness :
  exists r p,
    build 3 GazeOnly.model = Ret (Some r, p) /\
    robot_ p = Some r /\
    sameGraph GazeOnly.model (model_ p) /\
    (forall k, SMap.find k (jointsMap_ p) <> None <->
               (k = "base_joint"
                \/ In k (map fst (joints_ GazeOnly.model)))) /\
    (forall k, k = "base_joint"
               \/ In k (map fst (joints_ GazeOnly.model)) ->
               exists node, SMap.find k (jointsMap_ p) = Some node /\
                            linkedBody node <> None).
Proof.
  do 2 eexists. split; [run; reflexivity |].
  eapply (parseStream_success_registry rigidInverse rigidInverse loadAlways
            capsuleAlongX (decodeAs GazeOnly.model) 3 "" newParser).
  - reflexivity.
  - run; reflexivity.
Defined.

(** ** Tree assembler: a child without node *)



(** ** Body attacher: one turn of the loop *)

(** A turn of the loop of [addBodiesToJoints] returns failure, or goes on
    with the keys that follow, in a parser that has the same graph. *)
Lemma addBodiesLoop_next
    (inverse : CkitMat4 -> CkitMat4)
    (loadPolyhedronFromResource : string -> vector3d -> bool)
    (getCapsule : R -> R -> vector3d * vector3d)
    (first : string) (rest : list string) (p p' : Parser) (ok : bool) :
  addBodiesLoop inverse loadPolyhedronFromResource getCapsule
                (first :: rest) p = Ret (ok, p') ->
  ok = false \/
  exists q,
    model_ q = model_ p /\
    addBodiesLoop inverse loadPolyhedronFromResource getCapsule rest q
    = Ret (ok, p').
Proof.
  intros H. cbn [addBodiesLoop] in H. unfold bind at 1, getParser in H.
  assert (Hstep :
    forall childLinkName,
      match getLink (model_ p) childLinkName with
      | None =>
          (hppDout error
             ("Link " ++ childLinkName
                ++ " not found, inconsistent model") ;;
           ret false)
      | Some link =>
          (jrlBody <- bodyOfLink inverse first childLinkName link ;;
           onJoint (Some first) (setLinkedBody jrlBody) ;;
           match visual link, collision link with
           | Some _, Some _ =>
               ok <- addSolidComponentToJoint inverse
                       loadPolyhedronFromResource getCapsule link
                       (Some first) ;;
               if ok then
                 onJoint (Some first) (setBodyName childLinkName) ;;
                 addBodiesLoop inverse loadPolyhedronFromResource getCapsule
                               rest
               else
                 hppDout error
                   "Could not add solid component to joint." ;;
                 ret false
           | _, _ =>
               addBodiesLoop inverse loadPolyhedronFromResource getCapsule
                             rest
           end)
      end p = Ret (ok, p') ->
      ok = false \/
      exists q,
        model_ q = model_ p /\
        addBodiesLoop inverse loadPolyhedronFromResource getCapsule rest q
        = Ret (ok, p')).
  { intros childLinkName H'.
    destruct (getLink (model_ p) childLinkName) as [link |].
    - apply bind_Ret_inv in H'. destruct H' as (body & q1 & Hb & H').
      apply bind_Ret_inv in H'. destruct H' as ([] & q2 & Hl & H').
      pose proof (keepsModel_bodyOfLink _ _ _ _ _ _ _ Hb) as M1.
      pose proof (keepsModel_onJoint _ _ _ _ _ Hl) as M2.
      destruct (visual link), (collision link);
        try (right; exists q2; split; [congruence | exact H']).
      apply bind_Ret_inv in H'. destruct H' as (ok1 & q3 & Hs & H').
      pose proof (keepsModel_addSolidComponentToJoint _ _ _ _ _ _ _ _ Hs)
        as M3.
      destruct ok1.
      + apply bind_Ret_inv in H'. destruct H' as ([] & q4 & Hn & H').
        pose proof (keepsModel_onJoint _ _ _ _ _ Hn) as M4.
        right. exists q4. split; [congruence | exact H'].
      + left. unfold bind, hppDout, modify, ret in H'.
        now injection H' as <- _.
    - left. unfold bind, hppDout, modify, ret in H'.
      now injection H' as <- _. }
  destruct (getJoint (model_ p) first) as [j |] eqn:Ej;
    destruct (first =? "base_joint") eqn:Eb.
  - exact (Hstep _ H).
  - exact (Hstep _ H).
  - exact (Hstep _ H).
  - right. exists p. split; [reflexivity | exact H].
Qed.

(** ** Geometry attachment: a failure is fatal *)

Lemma childLinkOf_sameGraph (m m' : ModelInterface) (k : string) :
  sameGraph m m' -> childLinkOf m' k = childLinkOf m k.
Proof.
  intros G. unfold childLinkOf.
  rewrite (sameGraph_getJoint _ _ k G). destruct G as [_ L].
  rewrite L. destruct (k =? "base_joint"); [reflexivity |].
  destruct (getJoint m k); [apply L | reflexivity].
Qed.

Lemma childLinkOf_key (m : ModelInterface) (k : string) (l : UrdfLink) :
  childLinkOf m k = Some l ->
  k = "base_joint" \/ In k (map fst (joints_ m)).
Proof.
  unfold childLinkOf, getJoint. intros H.
  destruct (String.eqb_spec k "base_joint") as [-> | _]; [now left |].
  right. destruct (SMap.find k (joints_ m)) as [v |] eqn:E;
    [| discriminate].
  apply find_In in E. change k with (fst (k, v)). now apply in_map.
Qed.

(** The loop of [addBodiesToJoints] never returns success when one of its
    keys leads to a link whose visual and collision meshes differ. *)
Lemma addBodiesLoop_mismatch
    (inverse : CkitMat4 -> CkitMat4)
    (loadPolyhedronFromResource : string -> vector3d -> bool)
    (getCapsule : R -> R -> vector3d * vector3d)
    (k : string) (link : UrdfLink)
    (v : Visual) (c : Collision) (f1 f2 : string) (s1 s2 : vector3d) :
  visual link = Some v -> collision link = Some c ->
  visual_geometry v = MESH f1 s1 -> collision_geometry c = MESH f2 s2 ->
  f1 <> f2 ->
  forall keys p ok p',
    In k keys ->
    childLinkOf (model_ p) k = Some link ->
    addBodiesLoop inverse loadPolyhedronFromResource getCapsule keys p
    = Ret (ok, p') ->
    ok = false.
Proof.
  intros Hv Hc Hgv Hgc Hne.
  induction keys as [| first rest IH]; intros p ok p' Hin Hl H;
    [destruct Hin |].
  destruct (String.eqb_spec first k) as [-> | Hfk].
  - clear IH Hin. cbn [addBodiesLoop] in H.
    unfold bind at 1, getParser in H.
    assert (Hstep :
      forall childLinkName,
        getLink (model_ p) childLinkName = Some link ->
        match getLink (model_ p) childLinkName with
        | None =>
            (hppDout error
               ("Link " ++ childLinkName
                  ++ " not found, inconsistent model") ;;
             ret false)
        | Some link =>
            (jrlBody <- bodyOfLink inverse k childLinkName link ;;
             onJoint (Some k) (setLinkedBody jrlBody) ;;
             match visual link, collision link with
             | Some _, Some _ =>
                 ok <- addSolidComponentToJoint inverse
                         loadPolyhedronFromResource getCapsule link
                         (Some k) ;;
                 if ok then
                   onJoint (Some k) (setBodyName childLinkName) ;;
                   addBodiesLoop inverse loadPolyhedronFromResource
                                 getCapsule rest
                 else
                   hppDout error
                     "Could not add solid component to joint." ;;
                   ret false
             | _, _ =>
                 addBodiesLoop inverse loadPolyhedronFromResource getCapsule
                               rest
             end)
        end p = Ret (ok, p') ->
        ok = false).
    { intros childLinkName E H'. rewrite E in H'.
      apply bind_Ret_inv in H'. destruct H' as (body & q1 & _ & H').
      apply bind_Ret_inv in H'. destruct H' as ([] & q2 & _ & H').
      rewrite Hv, Hc in H'.
      apply bind_Ret_inv in H'. destruct H' as (ok1 & q3 & Hs & H').
      rewrite (addSolidComponentToJoint_mismatch _ _ _ _ _ _ _ _ _ _ _ _
                 Hv Hc Hgv Hgc Hne) in Hs.
      injection Hs as <- _.
      unfold bind, hppDout, modify, ret in H'. now injection H' as <- _. }
    unfold childLinkOf in Hl.
    destruct (k =? "base_joint") eqn:Eb.
    + destruct (getJoint (model_ p) k); exact (Hstep _ Hl H).
    + destruct (getJoint (model_ p) k) as [j |]; [| discriminate].
      exact (Hstep _ Hl H).
  - destruct Hin as [E | Hin]; [contradiction |].
    apply addBodiesLoop_next in H. destruct H as [H | (q & Hm & H)];
      [exact H |].
    apply (IH q ok p' Hin); [now rewrite Hm | exact H].
Qed.

(** What a returned robot tells of the run of [parseStream]: the body
    attacher has succeeded in a parser that has the joints and the links
    of the decoded graph and a node for base_joint and for every joint
    name. *)
Lemma parseStream_robot_inv
    (inverse Inversion : CkitMat4 -> CkitMat4)
    (loadPolyhedronFromResource : string -> vector3d -> bool)
    (getCapsule : R -> R -> vector3d * vector3d)
    (initString : string -> option ModelInterface)
    (fuel : nat) (doc : string) (p0 p : Parser) (r : HumanoidRobot)
    (m : ModelInterface) :
  initString doc = Some m ->
  parseStream inverse Inversion loadPolyhedronFromResource getCapsule
              initString fuel doc p0 = Ret (Some r, p) ->
  exists q2 q3,
    sameGraph m (model_ q2) /\
    (forall k, k = "base_joint" \/ In k (map fst (joints_ m)) ->
               SMap.find k (jointsMap_ q2) <> None) /\
    addBodiesToJoints inverse loadPolyhedronFromResource getCapsule q2
    = Ret (true, q3).
Proof.
  intros Hdoc H. unfold parseStream in H.
  do 4 (unfold bind at 1 in H; unfold modify at 1 in H).
  rewrite Hdoc in H. unfold bind at 1 in H; unfold modify at 1 in H.
  match type of H with
  | context [bind findSpecialJoints _ ?s] =>
      destruct (findSpecialJoints_returns s) as (p1 & H1 & G1 & R1 & J1)
  end.
  unfold bind at 1 in H. rewrite H1 in H. clear H1.
  cbn [model_ set_model_ robot_ set_robot_ jointsMap_ set_jointsMap_
       set_rootJoint_] in G1, R1, J1.
  apply bind_Ret_inv in H. destruct H as (ok & p2 & Hparse & H).
  destruct ok; [| discriminate]. cbn [negb] in H.
  unfold bind at 1, getParser in H.
  destruct (getRoot (model_ p2)); [| discriminate].
  apply bind_Ret_inv in H. destruct H as (ok & q1 & Hconn & H).
  destruct ok; [| discriminate]. cbn [negb] in H.
  apply bind_Ret_inv in H. destruct H as ([] & q2 & Hspec & H).
  apply bind_Ret_inv in H. destruct H as (ok & q3 & Hbodies & H).
  destruct ok; [| discriminate].
  destruct (parseJoints_keys fuel p1 p2 J1 Hparse) as (M2 & K2 & _).
  pose proof (keepsModel_connectJoints _ _ _ _ _ Hconn) as M3.
  pose proof (keepsModel_setSpecialJoints _ _ _ Hspec) as M4.
  pose proof (connectJoints_childrenExtended _ _ _ _ _ Hconn) as B1.
  pose proof (keepsRegistry_setSpecialJoints _ _ _ Hspec) as E2.
  exists q2, q3. split; [| split; [| exact Hbodies]].
  - assert (E : model_ q2 = model_ p1) by congruence. now rewrite E.
  - intros k Hk. rewrite E2.
    apply (childrenExtended_keys _ _ k B1). apply K2.
    destruct G1 as [GJ _]. now rewrite GJ.
Qed.

(** When [parseStream] returns the null robot, [robot_] is null. *)
Lemma parseStream_null_robot
    (inverse Inversion : CkitMat4 -> CkitMat4)
    (loadPolyhedronFromResource : string -> vector3d -> bool)
    (getCapsule : R -> R -> vector3d * vector3d)
    (initString : string -> option ModelInterface)
    (fuel : nat) (doc : string) (p0 p : Parser) :
  parseStream inverse Inversion loadPolyhedronFromResource getCapsule
              initString fuel doc p0 = Ret (None, p) ->
  robot_ p = None.
Proof.
  assert (Habort : forall msg q x,
            abortBuild msg q = Ret (x, p) -> robot_ p = None).
  { intros msg q x H. unfold abortBuild, bind, hppDout, modify, ret in H.
    now injection H as _ <-. }
  intros H. unfold parseStream in H.
  do 4 (unfold bind at 1 in H; unfold modify at 1 in H).
  destruct (initString doc) as [m |]; [| exact (Habort _ _ _ H)].
  unfold bind at 1 in H; unfold modify at 1 in H.
  apply bind_Ret_inv in H. destruct H as ([] & p1 & _ & H).
  apply bind_Ret_inv in H. destruct H as (ok & p2 & _ & H).
  destruct ok; [| exact (Habort _ _ _ H)]. cbn [negb] in H.
  unfold bind at 1, getParser in H.
  destruct (getRoot (model_ p2)); [| exact (Habort _ _ _ H)].
  apply bind_Ret_inv in H. destruct H as (ok & q1 & _ & H).
  destruct ok; [| exact (Habort _ _ _ H)]. cbn [negb] in H.
  apply bind_Ret_inv in H. destruct H as ([] & q2 & _ & H).
  apply bind_Ret_inv in H. destruct H as (ok & q3 & _ & H).
  destruct ok; [| exact (Habort _ _ _ H)]. cbn [negb] in H.
  apply bind_Ret_inv in H. destruct H as ([] & q4 & _ & H).
  apply bind_Ret_inv in H. destruct H as (act & q5 & _ & H).
  apply bind_Ret_inv in H. destruct H as ([] & q6 & _ & H).
  apply bind_Ret_inv in H. destruct H as ([] & q7 & _ & H).
  apply bind_Ret_inv in H. destruct H as ([] & q8 & _ & H).
  apply bind_Ret_inv in H. destruct H as ([] & q9 & _ & H).
  apply bind_Ret_inv in H. destruct H as ([] & q10 & _ & H).
  unfold bind, getParser, ret in H. injection H as Hr <-. exact Hr.
Qed.

(** C4, as the code has it. For every link whose visual and collision
    geometries are meshes of different files, geometry attachment fails:
    [addSolidComponentToJoint] returns failure, prints an error and
    leaves the registry as it was.  The failure is not local to the
    link.  When the link is one that the body attacher visits (base_link
    for base_joint, or the child link of a registered joint of the graph),
    [addBodiesToJoints] never returns success; and no document whose
    graph holds such a link gives a robot: whenever [parseStream]
    returns, it returns the null robot and [robot_] is reset. *)
Theorem mesh_mismatch_fatal
    (inverse Inversion : CkitMat4 -> CkitMat4)
    (loadPolyhedronFromResource : string -> vector3d -> bool)
    (getCapsule : R -> R -> vector3d * vector3d)
    (initString : string -> option ModelInterface)
    (link : UrdfLink)
    (v : Visual) (c : Collision) (f1 f2 : string) (s1 s2 : vector3d) :
  visual link = Some v -> collision link = Some c ->
  visual_geometry v = MESH f1 s1 -> collision_geometry c = MESH f2 s2 ->
  f1 <> f2 ->
  (forall joint p,
      exists p1,
        addSolidComponentToJoint inverse loadPolyhedronFromResource
                                 getCapsule link joint p = Ret (false, p1) /\
        jointsMap_ p1 = jointsMap_ p /\
        In (error,
            ("Unhandled:visual and collision meshes not the same for "
               ++ lname link)%string) (log_ p1)) /\
  (forall k p ok p',
      childLinkOf (model_ p) k = Some link ->
      SMap.find k (jointsMap_ p) <> None ->
      addBodiesToJoints inverse loadPolyhedronFromResource getCapsule p
      = Ret (ok, p') ->
      ok = false) /\
  (forall k m fuel doc p,
      initString doc = Some m ->
      childLinkOf m k = Some link ->
      givesNoRobot
        (parseStream inverse Inversion loadPolyhedronFromResource getCapsule
                     initString fuel doc p)).
Proof.
  intros Hv Hc Hgv Hgc Hne. split; [| split].
  - intros joint p. eexists. split.
    + eapply addSolidComponentToJoint_mismatch; eassumption.
    + split; [reflexivity |]. cbn. apply in_or_app. right. now left.
  - intros k p ok p' Hl Hf H.
    unfold addBodiesToJoints, bind, getParser in H.
    exact (addBodiesLoop_mismatch inverse loadPolyhedronFromResource
             getCapsule k link v c f1 f2 s1 s2 Hv Hc Hgv Hgc Hne
             _ p ok p' (find_keys _ _ Hf) Hl H).
  - intros k m fuel doc p Hdoc Hl. unfold givesNoRobot.
    destruct (parseStream inverse Inversion loadPolyhedronFromResource
                getCapsule initString fuel doc p)
      as [[[r |] p'] | | msg |] eqn:E.
    + exfalso.
      destruct (parseStream_robot_inv _ _ _ _ _ _ _ _ _ _ _ Hdoc E)
        as (q2 & q3 & G & K & H).
      unfold addBodiesToJoints, bind, getParser in H.
      assert (F : true = false); [| discriminate F].
      apply (addBodiesLoop_mismatch inverse loadPolyhedronFromResource
               getCapsule k link v c f1 f2 s1 s2 Hv Hc Hgv Hgc Hne
               (SMap.keys (jointsMap_ q2)) q2 true q3).
      * apply find_keys, K. exact (childLinkOf_key _ _ _ Hl).
      * now rewrite (childLinkOf_sameGraph _ _ k G).
      * exact H.
    + right. right. right. exists p'. split; [reflexivity |].
      exact (parseStream_null_robot _ _ _ _ _ _ _ _ _ E).
    + now left.
    + right. right. left. now exists msg.
    + right. now left.
Qed.

Lemma mesh_mismatch_fatal_witness :
  givesNoRobot (build 3 Meshes.model).
Proof.
  destruct (mesh_mismatch_fatal rigidInverse rigidInverse loadAlways
              capsuleAlongX (decodeAs Meshes.model) Meshes.la
              (mkVisual (translation 0 0 0) (MESH "a.obj" (mkV3 1 1 1)))
              (mkCollision (translation 0 0 0) (MESH "b.obj" (mkV3 1 1 1)))
              "a.obj" "b.obj" (mkV3 1 1 1) (mkV3 1 1 1))
    as (_ & _ & H); try reflexivity; try discriminate.
  apply (H "ja" Meshes.model 3%nat ""%string newParser); reflexivity.
Defined.

(** ** Body and inertia attacher: the inertia of the attached body *)

Lemma keepsLinked_ret (k : string) {A} (a : A) : keepsLinked k (ret a).
Proof. intros p a' p' H. now injection H as _ <-. Qed.

Lemma keepsLinked_bind (k : string) {A B} (c : M A) (f : A -> M B) :
  keepsLinked k c -> (forall a, keepsLinked k (f a)) ->
  keepsLinked k (bind c f).
Proof.
  intros Hc Hf p b p' H. apply bind_Ret_inv in H.
  destruct H as (a & q & H1 & H2).
  rewrite (Hf _ _ _ _ H2). exact (Hc _ _ _ H1).
Qed.

Lemma keepsLinked_getParser (k : string) : keepsLinked k getParser.
Proof. intros p a p' H. now injection H as _ <-. Qed.

Lemma keepsLinked_undefined (k : string) {A} : keepsLinked k (@undefined A).
Proof. intros p a p' H. discriminate. Qed.

Lemma keepsLinked_hppDout (k : string) (l : Level) (msg : string) :
  keepsLinked k (hppDout l msg).
Proof. intros p a p' H. now injection H as _ <-. Qed.

Lemma keepsLinked_deref (k : string) (j : option string) :
  keepsLinked k (deref j).
Proof.
  intros p a p' H. unfold deref in H. destruct j; [| discriminate].
  destruct (SMap.find s (jointsMap_ p)); [| discriminate].
  now injection H as _ <-.
Qed.

Lemma keepsLinked_findJoint (k n : string) : keepsLinked k (findJoint n).
Proof.
  intros p a p' H. unfold findJoint, bind, getParser in H.
  destruct (SMap.find n (jointsMap_ p)); now injection H as _ <-.
Qed.

(** A change of a node that keeps its body, and a change of another
    node. *)
Lemma keepsLinked_onJoint_same (k : string) (j : option string)
    (f : Joint -> Joint) :
  (forall a, linkedBody (f a) = linkedBody a) -> keepsLinked k (onJoint j f).
Proof.
  intros Hf p a p' H. unfold onJoint in H. destruct j as [n |];
    [| discriminate].
  destruct (SMap.find n (jointsMap_ p)) as [node |] eqn:E; [| discriminate].
  injection H as _ <-. cbn [jointsMap_ set_jointsMap_].
  destruct (String.eqb_spec k n) as [-> | Hne].
  - rewrite find_insert_same, E. cbn. now rewrite Hf.
  - now rewrite find_insert_other.
Qed.

Lemma keepsLinked_onJoint_other (k n : string) (f : Joint -> Joint) :
  n <> k -> keepsLinked k (onJoint (Some n) f).
Proof.
  intros Hne p a p' H. unfold onJoint in H.
  destruct (SMap.find n (jointsMap_ p)) as [node |]; [| discriminate].
  injection H as _ <-. cbn [jointsMap_ set_jointsMap_].
  rewrite find_insert_other; [reflexivity | congruence].
Qed.

(** Decomposition of an operation into the steps above. *)
Ltac linked :=
  repeat first
    [ assumption
    | apply keepsLinked_ret
    | apply keepsLinked_getParser
    | apply keepsLinked_undefined
    | apply keepsLinked_hppDout
    | apply keepsLinked_deref
    | apply keepsLinked_findJoint
    | apply keepsLinked_onJoint_same; intros ?; reflexivity
    | apply keepsLinked_onJoint_other; assumption
    | apply keepsLinked_bind; [| intros ?]
    | match goal with
      | |- keepsLinked _ (match ?x with _ => _ end) => destruct x
      | |- keepsLinked _ (if ?b then _ else _) => destruct b
      end ].

Lemma keepsLinked_computeBodyAbsolutePosition (k : string)
    (inverse : CkitMat4 -> CkitMat4) (link : UrdfLink) (pose : Pose) :
  keepsLinked k (computeBodyAbsolutePosition inverse link pose).
Proof. unfold computeBodyAbsolutePosition. linked. Qed.

Lemma keepsLinked_addSolidComponentToJoint (k : string)
    (inverse : CkitMat4 -> CkitMat4)
    (loadPolyhedronFromResource : string -> vector3d -> bool)
    (getCapsule : R -> R -> vector3d * vector3d)
    (link : UrdfLink) (joint : option string) :
  keepsLinked k (addSolidComponentToJoint inverse loadPolyhedronFromResource
                                          getCapsule link joint).
Proof.
  unfold addSolidComponentToJoint. linked;
    apply keepsLinked_computeBodyAbsolutePosition.
Qed.

Lemma keepsLinked_bodyOfLink (k : string) (inverse : CkitMat4 -> CkitMat4)
    (first childLinkName : string) (link : UrdfLink) :
  keepsLinked k (bodyOfLink inverse first childLinkName link).
Proof. unfold bodyOfLink. linked. Qed.

(** The turns of the loop for other keys leave the body of [k] as it
    is. *)
Lemma keepsLinked_addBodiesLoop (k : string)
    (inverse : CkitMat4 -> CkitMat4)
    (loadPolyhedronFromResource : string -> vector3d -> bool)
    (getCapsule : R -> R -> vector3d * vector3d) :
  forall keys,
    ~ In k keys ->
    keepsLinked k (addBodiesLoop inverse loadPolyhedronFromResource
                                 getCapsule keys).
Proof.
  induction keys as [| first rest IH]; intros Hk; cbn [addBodiesLoop].
  - apply keepsLinked_ret.
  - assert (Hne : first <> k) by (intros ->; apply Hk; now left).
    assert (Hrest : keepsLinked k
              (addBodiesLoop inverse loadPolyhedronFromResource getCapsule
                             rest))
      by (apply IH; intros Hin; apply Hk; now right).
    linked;
      first [ apply keepsLinked_bodyOfLink
            | apply keepsLinked_addSolidComponentToJoint ].
Qed.

(** The body that [bodyOfLink] computes for a link with a mass under an
    actuated joint: the mass, and the centre of mass and the inertia
    re-expressed in the normalized frame of the joint. *)
Lemma bodyOfLink_reexpressed (inverse : CkitMat4 -> CkitMat4)
    (first childLinkName : string) (link : UrdfLink) (i : Inertial)
    (parent : UrdfJoint) (p : Parser) :
  inertial link = Some i ->
  (first =? "base_joint") = false ->
  parent_joint link = Some parent ->
  isActuatedType (type parent) = true ->
  bodyOfLink inverse first childLinkName link p
  = Ret (mkBody (mass i)
           (reexpressCom inverse (normalizeFrameOrientation (Some parent))
                         (position (inertial_origin i)))
           (reexpressInertia inverse
                             (normalizeFrameOrientation (Some parent))
                             (inertiaOf i)),
         p).
Proof.
  intros Hi Hb Hp Ha. unfold bodyOfLink. now rewrite Hi, Hb, Hp, Ha.
Qed.

(** When the loop of [addBodiesToJoints] succeeds on distinct keys, the
    node of a key other than base_joint holds the body that [bodyOfLink]
    computes for the child link of its joint. *)
Lemma addBodiesLoop_links
    (inverse : CkitMat4 -> CkitMat4)
    (loadPolyhedronFromResource : string -> vector3d -> bool)
    (getCapsule : R -> R -> vector3d * vector3d)
    (k : string) (j : UrdfJoint) (link : UrdfLink) (body : Body) :
  (k =? "base_joint") = false ->
  (forall q, bodyOfLink inverse k (child_link_name j) link q
             = Ret (body, q)) ->
  forall keys p p',
    addBodiesLoop inverse loadPolyhedronFromResource getCapsule keys p
    = Ret (true, p') ->
    NoDup keys -> In k keys ->
    getJoint (model_ p) k = Some j ->
    getLink (model_ p) (child_link_name j) = Some link ->
    exists node,
      SMap.find k (jointsMap_ p') = Some node /\
      linkedBody node = Some body.
Proof.
  intros Hb Hbody.
  induction keys as [| first rest IH]; intros p p' H Hnd Hin Hj Hl;
    [destruct Hin |].
  inversion Hnd as [| ? ? Hfirst Hrest]; subst.
  destruct (String.eqb_spec first k) as [-> | Hfk].
  - clear IH Hin. cbn [addBodiesLoop] in H.
    unfold bind at 1, getParser in H. rewrite Hj, Hb, Hl in H.
    unfold bind at 1 in H. rewrite Hbody in H.
    apply bind_Ret_inv in H. destruct H as ([] & q2 & Hq2 & H).
    assert (K : keepsLinked k
              (match visual link, collision link with
               | Some _, Some _ =>
                   ok <- addSolidComponentToJoint inverse
                           loadPolyhedronFromResource getCapsule link
                           (Some k) ;;
                   if ok then
                     onJoint (Some k) (setBodyName (child_link_name j)) ;;
                     addBodiesLoop inverse loadPolyhedronFromResource
                                   getCapsule rest
                   else
                     hppDout error
                       "Could not add solid component to joint." ;;
                     ret false
               | _, _ =>
                   addBodiesLoop inverse loadPolyhedronFromResource
                                 getCapsule rest
               end)).
    { pose proof (keepsLinked_addBodiesLoop k inverse
                    loadPolyhedronFromResource getCapsule rest Hfirst).
      linked. apply keepsLinked_addSolidComponentToJoint. }
    apply K in H.
    unfold onJoint in Hq2.
    destruct (SMap.find k (jointsMap_ p)) as [a |]; [| discriminate].
    injection Hq2 as <-. cbn [jointsMap_ set_jointsMap_] in H.
    rewrite find_insert_same in H. cbn in H.
    destruct (SMap.find k (jointsMap_ p')) as [node |]; [| discriminate].
    exists node. split; [reflexivity |]. cbn in H. congruence.
  - destruct Hin as [E | Hin]; [contradiction |].
    apply addBodiesLoop_next in H. destruct H as [H | (q & Hm & H)];
      [discriminate |].
    apply (IH q p' H Hrest Hin); now rewrite Hm.
Qed.

(** C9. For a link with a mass under an actuated joint, let I be the
    inertia matrix of the link and R the normalized frame of the joint,
    with [inverse] returning a left inverse of R (for an orthonormal R,
    the transpose).  The inertia matrix that the attacher computes,
    [inverse (R) * I * R], has the eigenvalues of I.  It is the inertia
    of the body that [bodyOfLink] returns for the link, together with the
    mass of the link; and when [addBodiesToJoints] succeeds on a registry
    of distinct keys, it is the inertia of the body linked to the node of
    every joint, other than base_joint, whose child link is that link. *)
Theorem attached_inertia_eigenvalues
    (inverse : CkitMat4 -> CkitMat4)
    (loadPolyhedronFromResource : string -> vector3d -> bool)
    (getCapsule : R -> R -> vector3d * vector3d)
    (link : UrdfLink) (i : Inertial) (parent : UrdfJoint) :
  inertial link = Some i ->
  parent_joint link = Some parent ->
  isActuatedType (type parent) = true ->
  mul (inverse (normalizeFrameOrientation (Some parent)))
      (normalizeFrameOrientation (Some parent)) = identity ->
  (forall l,
      eigenvalue (reexpressInertia inverse
                    (normalizeFrameOrientation (Some parent)) (inertiaOf i)) l
      <-> eigenvalue (inertiaOf i) l) /\
  (forall first childLinkName p,
      (first =? "base_joint") = false ->
      exists body,
        bodyOfLink inverse first childLinkName link p = Ret (body, p) /\
        bodyMass body = mass i /\
        inertiaMatrix body
        = reexpressInertia inverse
            (normalizeFrameOrientation (Some parent)) (inertiaOf i) /\
        forall l, eigenvalue (inertiaMatrix body) l
                  <-> eigenvalue (inertiaOf i) l) /\
  (forall k j p p',
      addBodiesToJoints inverse loadPolyhedronFromResource getCapsule p
      = Ret (true, p') ->
      NoDup (SMap.keys (jointsMap_ p)) ->
      SMap.find k (jointsMap_ p) <> None ->
      (k =? "base_joint") = false ->
      getJoint (model_ p) k = Some j ->
      getLink (model_ p) (child_link_name j) = Some link ->
      exists node body,
        SMap.find k (jointsMap_ p') = Some node /\
        linkedBody node = Some body /\
        bodyMass body = mass i /\
        inertiaMatrix body
        = reexpressInertia inverse
            (normalizeFrameOrientation (Some parent)) (inertiaOf i) /\
        forall l, eigenvalue (inertiaMatrix body) l
                  <-> eigenvalue (inertiaOf i) l).
Proof.
  intros Hi Hp Ha Hinv.
  assert (Heig : forall l,
    eigenvalue (reexpressInertia inverse
                  (normalizeFrameOrientation (Some parent)) (inertiaOf i)) l
    <-> eigenvalue (inertiaOf i) l).
  { rewrite normalizeFrameOrientation_embed3 in Hinv |- *.
    apply (reexpressInertia_eigenvalues inverse _ (inertiaOf i) Hinv). }
  split; [exact Heig | split].
  - intros first childLinkName p Hb. eexists. split.
    + exact (bodyOfLink_reexpressed inverse first childLinkName link i
               parent p Hi Hb Hp Ha).
    + split; [reflexivity |]. split; [reflexivity | exact Heig].
  - intros k j p p' H Hnd Hf Hb Hj Hl.
    unfold addBodiesToJoints, bind, getParser in H.
    destruct (addBodiesLoop_links inverse loadPolyhedronFromResource
                getCapsule k j link _ Hb
                (fun q => bodyOfLink_reexpressed inverse k
                            (child_link_name j) link i parent q
                            Hi Hb Hp Ha)
                _ p p' H Hnd (find_keys _ _ Hf) Hj Hl)
      as (node & Hn & Hbody).
    exists node. eexists. split; [exact Hn |].
    split; [exact Hbody |]. split; [reflexivity |].
    split; [reflexivity | exact Heig].
Qed.

Lemma attached_inertia_eigenvalues_witness :
  (eigenvalue (reexpressInertia rigidInverse
                 (normalizeFrameOrientation (Some AxisZ.joint))
                 (inertiaOf sampleInertial)) 5
   <-> eigenvalue (inertiaOf sampleInertial) 5) /\
  exists p' node body,
    addBodiesToJoints rigidInverse loadAlways capsuleAlongX
                      (afterParseJoints 3 Heavy.model) = Ret (true, p') /\
    SMap.find "j1" (jointsMap_ p') = Some node /\
    linkedBody node = Some body /\
    bodyMass body = mass sampleInertial /\
    inertiaMatrix body
    = reexpressInertia rigidInverse
        (normalizeFrameOrientation (Some AxisZ.joint))
        (inertiaOf sampleInertial).
Proof.
  destruct (attached_inertia_eigenvalues rigidInverse loadAlways
              capsuleAlongX Heavy.link sampleInertial AxisZ.joint)
    as (E & _ & A); try reflexivity.
  { rewrite (normalizeFrameOrientation_axis_z AxisZ.joint eq_refl).
    unfold rigidInverse, mul, identity; simpl. apply mkM4_eq; ring. }
  split; [apply E |].
  assert (H : exists p',
             addBodiesToJoints rigidInverse loadAlways capsuleAlongX
                               (afterParseJoints 3 Heavy.model)
             = Ret (true, p')) by (eexists; run; reflexivity).
  destruct H as [p' H]. exists p'.
  destruct (A "j1" AxisZ.joint (afterParseJoints 3 Heavy.model) p' H)
    as (node & body & Hn & Hb & Hm & Hi & _).
  - run. repeat constructor; cbn; intuition discriminate.
  - run. discriminate.
  - reflexivity.
  - reflexivity.
  - reflexivity.
  - exists node, body. auto.
Defined.
